(** * The symbolic address space of KLEE (lib/Core/AddressSpace.cpp)

    A shallow embedding of [AddressSpace]: the copy-on-write object map with
    its segment index ([bindObject], [unbindObject], [findObject],
    [getWriteable]), the pointer resolvers ([resolveConstantAddress],
    [resolveOne], [checkPointerInObject], [resolve],
    [resolveConstantSegment]) and the concrete shadow memory for external
    calls ([copyOutConcretes], [copyInConcretes], [copyInConcrete]),
    followed by the properties of the specification that concern them.
    After it come [strtok] and [getenv] of the runtime library and the
    truth queries of the Z3 back end (lib/Solver/Z3Solver.cpp). *)

From Stdlib Require Import ZArith List Bool Lia.
From Stdlib Require String.
Import ListNotations.
Import String.StringSyntax.
Local Open Scope Z_scope.
Delimit Scope string_scope with string.

(** ** Machine integers *)

(** [uint64_t] and [unsigned] values are integers reduced modulo the width. *)
Definition wrap64 (z : Z) : Z := z mod 2 ^ 64.
Definition wrap32 (z : Z) : Z := z mod 2 ^ 32.

(** ** Expressions *)

(** Modelled from the spec: the expression representation (klee/Expr/Expr.h)
    is an external collaborator; only the constructors the resolver builds or
    inspects are present.  Every integer expression has the pointer width
    (64 bits); comparisons yield 0 or 1. *)
Inductive Expr : Type :=
| ConstantExpr (v : Z)
| SymbolicExpr (x : nat)
| SubExpr (l r : Expr)
| EqExpr (l r : Expr)
| UltExpr (l r : Expr)
| UgeExpr (l r : Expr)
| NotExpr (e : Expr).

(** [isa<ConstantExpr>(e)]. *)
Definition isConstantExpr (e : Expr) : bool :=
  match e with ConstantExpr _ => true | _ => false end.

(** [Expr::createIsZero(e)]. *)
Definition createIsZero (e : Expr) : Expr := EqExpr e (ConstantExpr 0).

(** A model assigns a value to every symbolic variable. *)
Definition Model : Type := nat -> Z.

Definition b2z (b : bool) : Z := if b then 1 else 0.

Fixpoint eval (m : Model) (e : Expr) : Z :=
  match e with
  | ConstantExpr v => wrap64 v
  | SymbolicExpr x => wrap64 (m x)
  | SubExpr l r => wrap64 (eval m l - eval m r)
  | EqExpr l r => b2z (eval m l =? eval m r)
  | UltExpr l r => b2z (eval m l <? eval m r)
  | UgeExpr l r => b2z (eval m r <=? eval m l)
  | NotExpr e => b2z (eval m e =? 0)
  end.

(** Truth of a predicate expression under a model. *)
Definition holdsb (m : Model) (e : Expr) : bool := negb (eval m e =? 0).

(** ** Memory objects, object states, pointers *)

(** Modelled from the spec: [MemoryObject] (Memory.h) has a concrete base
    [address], a [size] expression and a [segment] identifier (0 for
    address-only objects).  It is immutable once created, so the descriptor
    itself stands for the pointer to it. *)
Record MemoryObject : Type := mkMemoryObject {
  address : Z;
  size : Expr;
  segment : Z
}.

(** Modelled from the spec: [MemoryObject::getBaseExpr] is the base address
    as a constant. *)
Definition getBaseExpr (mo : MemoryObject) : Expr := ConstantExpr (address mo).

(** Modelled from the spec: [ObjectState] (Memory.h) has the [readOnly]
    flag, the [copyOnWriteOwner] key and a byte store.  It lives on the heap
    and is designated by its location: two states are the same object
    exactly when their locations agree. *)
Record ObjectState : Type := mkObjectState {
  readOnly : bool;
  copyOnWriteOwner : Z;
  concreteStore : list Z
}.

Definition loc : Type := nat.
Definition Heap : Type := list ObjectState.

Definition deref (h : Heap) (l : loc) : option ObjectState := nth_error h l.

Fixpoint store (h : Heap) (l : loc) (v : ObjectState) : Heap :=
  match h, l with
  | [], _ => []
  | _ :: t, O => v :: t
  | x :: t, S l' => x :: store t l' v
  end.

(** [new ObjectState(...)]: the fresh location is the next free one. *)
Definition alloc (h : Heap) (v : ObjectState) : loc * Heap :=
  (length h, h ++ [v]).

Definition setOwner (os : ObjectState) (k : Z) : ObjectState :=
  mkObjectState (readOnly os) k (concreteStore os).

(** Modelled from the spec: [KValue] (klee/Module/KValue.h), a pointer, is
    a segment expression and a value (offset) expression. *)
Record KValue : Type := mkKValue {
  getSegment : Expr;
  getValue : Expr
}.

Definition getOffset (p : KValue) : Expr := getValue p.

Definition isConstant (p : KValue) : bool :=
  isConstantExpr (getSegment p) && isConstantExpr (getValue p).

(** [ConstantExpr::getZExtValue()] of a constant.  The source reaches it
    through [cast<ConstantExpr>(e)] or [dyn_cast<ConstantExpr>(e)]: every
    function below tests [isConstantExpr] at that place and crashes where
    the cast asserts, so the value given here to any other expression is
    never used. *)
Definition getZExtValue (e : Expr) : Z :=
  match e with ConstantExpr v => wrap64 v | _ => 0 end.

(** Modelled from the spec: [MemoryObject::getBoundsCheckPointer] (Memory.h)
    is the solver expression "offset lies within [base, base + size), or
    equals the base for zero-sized objects". *)
Definition getBoundsCheckPointer (mo : MemoryObject) (p : KValue) : Expr :=
  let off := SubExpr (getOffset p) (getBaseExpr mo) in
  match size mo with
  | ConstantExpr v =>
      if wrap64 v =? 0 then EqExpr off (ConstantExpr 0)
      else UltExpr off (size mo)
  | _ => UltExpr off (size mo)
  end.

(** ** The persistent ordered map *)

(** Modelled from the spec: the persistent map (ImmutableMap.h) is an ordered
    map with [lookup], [lookup_previous] (floor), [upper_bound], [replace],
    [remove] and in-order iteration.  A version of the map is the list of its
    entries in increasing key order; every operation returns a new list. *)
Module ImmutableMap.
Section Map.
Context {E : Type}.
Variable key : E -> Z.

Fixpoint lookup (k : Z) (m : list E) : option E :=
match m with
| [] => None
| e :: t => if key e =? k then Some e else lookup k t
end.

Fixpoint remove (k : Z) (m : list E) : list E :=
match m with
| [] => []
| e :: t => if key e =? k then remove k t else e :: remove k t
end.

Fixpoint insert (x : E) (m : list E) : list E :=
match m with
| [] => [x]
| e :: t => if key x <? key e then x :: e :: t else e :: insert x t
end.

Definition replace (x : E) (m : list E) : list E :=
insert x (remove (key x) m).

(** [upper_bound k] is an iterator at the least entry above [k]: the
  entries before it (those [--it] walks over) and the entries from it on. *)
Fixpoint upper_bound (k : Z) (m : list E) : list E * list E :=
match m with
| [] => ([], [])
| e :: t =>
    if k <? key e then ([], e :: t)
    else let (b, a) := upper_bound k t in (e :: b, a)
end.

(** The greatest entry whose key is at most [k]. *)
Definition lookup_previous (k : Z) (m : list E) : option E :=
match rev (fst (upper_bound k m)) with
| [] => None
| e :: _ => Some e
end.

Fixpoint sorted (m : list E) : Prop :=
match m with
| [] => True
| e :: t => (forall x, In x t -> key e < key x) /\ sorted t
end.
End Map.
End ImmutableMap.

(** ** The address space *)

Definition ObjectPair : Type := (MemoryObject * loc)%type.
Definition MemoryMap : Type := list ObjectPair.
Definition SegmentMap : Type := list (Z * MemoryObject).

(** [MemoryObjectLT::operator()] (lines 441-443) orders the objects by
    address; it is the order of the keys of [objects]. *)
Definition MemoryObjectLT (a b : MemoryObject) : bool := address a <? address b.

Definition moKey (op : ObjectPair) : Z := address (fst op).
Definition segKey (e : Z * MemoryObject) : Z := fst e.

Record AddressSpace : Type := mkAddressSpace {
  cowKey : Z;
  objects : MemoryMap;
  segmentMap : SegmentMap
}.

(** An address space together with the heap its object states live on. *)
Definition State : Type := (AddressSpace * Heap)%type.

(** [AddressSpace::bindObject] (lines 27-33).  An [assert] failure or the
    dereference of an invalid pointer yields [None]. *)
Definition bindObject (mo : MemoryObject) (os : loc) (st : State) : option State :=
  let (sp, h) := st in
  match deref h os with
  | None => None
  | Some s =>
      if copyOnWriteOwner s =? 0 then
        let h' := store h os (setOwner s (cowKey sp)) in
        let objs := ImmutableMap.replace moKey (mo, os) (objects sp) in
        let segs :=
          if negb (segment mo =? 0)
          then ImmutableMap.replace segKey (segment mo, mo) (segmentMap sp)
          else segmentMap sp in
        Some (mkAddressSpace (cowKey sp) objs segs, h')
      else None
  end.

(** [AddressSpace::unbindObject] (lines 35-40). *)
Definition unbindObject (mo : MemoryObject) (st : State) : State :=
  let (sp, h) := st in
  let segs :=
    if negb (segment mo =? 0)
    then ImmutableMap.remove segKey (segment mo) (segmentMap sp)
    else segmentMap sp in
  (mkAddressSpace (cowKey sp) (ImmutableMap.remove moKey (address mo) (objects sp)) segs, h).

(** [AddressSpace::findObject] (lines 42-45). *)
Definition findObject (mo : MemoryObject) (sp : AddressSpace) : option loc :=
  match ImmutableMap.lookup moKey (address mo) (objects sp) with
  | Some res => Some (snd res)
  | None => None
  end.

(** [AddressSpace::getWriteable] (lines 47-60).  The new state is a copy of
    [os] whose owner is set to [cowKey]. *)
Definition getWriteable (mo : MemoryObject) (os : loc) (st : State)
  : option (loc * State) :=
  let (sp, h) := st in
  match deref h os with
  | None => None
  | Some s =>
      if readOnly s then None
      else if cowKey sp =? copyOnWriteOwner s then Some (os, st)
      else
        let (newObjectState, h') := alloc h (setOwner s (cowKey sp)) in
        let objs := ImmutableMap.replace moKey (mo, newObjectState) (objects sp) in
        Some (newObjectState, (mkAddressSpace (cowKey sp) objs (segmentMap sp), h'))
  end.

(** A newly created address space. *)
Definition emptySpace (k : Z) : AddressSpace := mkAddressSpace k [] [].

(** Sequences of the three mutating operations. *)
Inductive Op : Type :=
| OpBind (mo : MemoryObject) (os : loc)
| OpUnbind (mo : MemoryObject)
| OpGetWriteable (mo : MemoryObject) (os : loc).

Definition applyOp (o : Op) (st : State) : option State :=
  match o with
  | OpBind mo os => bindObject mo os st
  | OpUnbind mo => Some (unbindObject mo st)
  | OpGetWriteable mo os =>
      match getWriteable mo os st with
      | Some (_, st') => Some st'
      | None => None
      end
  end.

Fixpoint applyOps (ops : list Op) (st : State) : option State :=
  match ops with
  | [] => Some st
  | o :: rest =>
      match applyOp o st with
      | Some st' => applyOps rest st'
      | None => None
      end
  end.

(** ** The solver, the clock and the trace of a resolver call *)

(** Modelled from the spec: [TimingSolver] (TimingSolver.h) as the resolver
    sees it on one execution state.  The constraints and the query metadata
    of the state are fixed, and every query either answers or fails
    ([None]). *)
Module TimingSolver.
Record t : Type := mk {
  getValue : Expr -> option Z;
  mayBeTrue : Expr -> option bool;
  mustBeTrue : Expr -> option bool
}.
End TimingSolver.

(** What a resolver call does to the outside: the solver queries with their
    answers and the readings of [timer.delta()]. *)
Inductive Event : Type :=
| EvGetValue (e : Expr) (r : option Z)
| EvMayBeTrue (e : Expr) (r : option bool)
| EvMustBeTrue (e : Expr) (r : option bool)
| EvDelta (d : Z).

(** [trace] holds the events so far, latest first; [ticks] counts the clock
    readings. *)
Record World : Type := mkWorld {
  trace : list Event;
  ticks : nat
}.

Definition initialWorld : World := mkWorld [] 0.

(** A computation reads and extends the world; [None] is a crash
    (dereference of a null lookup result). *)
Definition M (A : Type) : Type := World -> option (A * World).

Definition ret {A : Type} (a : A) : M A := fun w => Some (a, w).

Definition bind {A B : Type} (m : M A) (k : A -> M B) : M B :=
  fun w => match m w with
           | Some (a, w') => k a w'
           | None => None
           end.

Definition crash {A : Type} : M A := fun _ => None.

Declare Scope resolver_scope.
Delimit Scope resolver_scope with resolver.
Notation "x <- m ;; k" := (bind m (fun x => k))
  (at level 100, m at next level, right associativity) : resolver_scope.
Local Open Scope resolver_scope.

Definition logEvent (ev : Event) (w : World) : World :=
  mkWorld (ev :: trace w) (ticks w).

Definition failedQuery (ev : Event) : bool :=
  match ev with
  | EvGetValue _ None | EvMayBeTrue _ None | EvMustBeTrue _ None => true
  | _ => false
  end.

Definition expiredReading (timeout : Z) (ev : Event) : bool :=
  match ev with
  | EvDelta d => negb (timeout =? 0) && (timeout <? d)
  | _ => false
  end.

(** Some solver call of the trace failed. *)
Definition solverFailed (w : World) : bool := existsb failedQuery (trace w).

(** Some timeout test of the trace found the budget exceeded. *)
Definition timeoutExceeded (timeout : Z) (w : World) : bool :=
  existsb (expiredReading timeout) (trace w).

(** The outcome of a loop body: an early [return], or falling out of the
    loop (by [break] or at its end). *)
Inductive Flow (A : Type) : Type :=
| Returned (a : A)
| FellThrough.
Arguments Returned {A} a.
Arguments FellThrough {A}.

Definition isSome {A : Type} (o : option A) : bool :=
  match o with Some _ => true | None => false end.

Definition ResolutionList : Type := list ObjectPair.

Section Resolver.
Variable solver : TimingSolver.t.
(** [clock n] is the [n]-th reading of [timer.delta()]. *)
Variable clock : nat -> Z.
Variable sp : AddressSpace.

Definition solverGetValue (e : Expr) : M (option Z) :=
  fun w => let r := TimingSolver.getValue solver e in
           Some (r, logEvent (EvGetValue e r) w).

Definition solverMayBeTrue (e : Expr) : M (option bool) :=
  fun w => let r := TimingSolver.mayBeTrue solver e in
           Some (r, logEvent (EvMayBeTrue e r) w).

Definition solverMustBeTrue (e : Expr) : M (option bool) :=
  fun w => let r := TimingSolver.mustBeTrue solver e in
           Some (r, logEvent (EvMustBeTrue e r) w).

Definition timerDelta : M Z :=
  fun w => let d := clock (ticks w) in
           Some (d, mkWorld (EvDelta d :: trace w) (S (ticks w))).

(** [timeout && timeout < timer.delta()]: the clock is read only when a
    timeout is set. *)
Definition timedOut (timeout : Z) : M bool :=
  if timeout =? 0 then ret false
  else d <- timerDelta ;; ret (timeout <? d).

(** [AddressSpace::resolveConstantAddress] (lines 64-96) is pure.  The
    outer [None] is a crash: [cast<ConstantExpr>] asserting on a segment
    (line 66) or an address (line 77) that is no constant, or
    [*objects.lookup(...)] finding nothing; the inner option is the [result]
    written on [return true], and [None] stands for [return false]. *)
Definition resolveConstantAddress (pointer : KValue)
  : option (option ObjectPair) :=
  if negb (isConstantExpr (getSegment pointer)) then None else
  let seg := getZExtValue (getSegment pointer) in
  if negb (seg =? 0) then
    match ImmutableMap.lookup segKey seg (segmentMap sp) with
    | Some res =>
        match ImmutableMap.lookup moKey (address (snd res)) (objects sp) with
        | Some objpair => Some (Some objpair)
        | None => None
        end
    | None => Some None
    end
  else
    if negb (isConstantExpr (getValue pointer)) then None else
    let a := getZExtValue (getValue pointer) in
    match ImmutableMap.lookup_previous moKey a (objects sp) with
    | Some res =>
        let mo := fst res in
        match size mo with
        | ConstantExpr _ =>
            (* unsigned size = CE->getZExtValue(); *)
            let sz := wrap32 (getZExtValue (size mo)) in
            if ((sz =? 0) && (a =? address mo))
               || (wrap64 (a - address mo) <? sz)
            then Some (Some res)
            else Some None
        | _ => Some None
        end
    | None => Some None
    end.

(** The value returned by [resolveOne], the [result] it wrote and the
    [success] it wrote; [None] in the last two means the out-parameter was
    left as the caller passed it. *)
Definition ResolveOneResult : Type :=
  (bool * option ObjectPair * option bool)%type.

(** The backward search of [resolveOne] (lines 150-173) over the entries
    before the iterator, nearest first. *)
Fixpoint resolveOneBackward (pointer : KValue) (l : list ObjectPair)
  : M (Flow ResolveOneResult) :=
  match l with
  | [] => ret FellThrough
  | oi :: rest =>
      let mo := fst oi in
      r <- solverMayBeTrue (getBoundsCheckPointer mo pointer) ;;
      match r with
      | None => ret (Returned (false, None, None))
      | Some true => ret (Returned (true, Some oi, Some true))
      | Some false =>
          r2 <- solverMustBeTrue (UgeExpr (getOffset pointer) (getBaseExpr mo)) ;;
          match r2 with
          | None => ret (Returned (false, None, None))
          | Some true => ret FellThrough
          | Some false => resolveOneBackward pointer rest
          end
      end
  end.

(** The forward search of [resolveOne] (lines 176-200) over the entries from
    the iterator on. *)
Fixpoint resolveOneForward (pointer : KValue) (l : list ObjectPair)
  : M (Flow ResolveOneResult) :=
  match l with
  | [] => ret FellThrough
  | oi :: rest =>
      let mo := fst oi in
      r <- solverMustBeTrue (UltExpr (getOffset pointer) (getBaseExpr mo)) ;;
      match r with
      | None => ret (Returned (false, None, None))
      | Some true => ret FellThrough
      | Some false =>
          r2 <- solverMayBeTrue (getBoundsCheckPointer mo pointer) ;;
          match r2 with
          | None => ret (Returned (false, None, None))
          | Some true => ret (Returned (true, Some oi, Some true))
          | Some false => resolveOneForward pointer rest
          end
      end
  end.

(** The fast path of [resolveOne] (lines 128-141): the floor object of the
    example, tested against its full 64-bit size. *)
Definition cheapSearch (example : Z) : option ObjectPair :=
  match ImmutableMap.lookup_previous moKey example (objects sp) with
  | Some res =>
      let mo := fst res in
      match size mo with
      | ConstantExpr _ =>
          if wrap64 (example - address mo) <? getZExtValue (size mo)
          then Some res else None
      | _ => None
      end
  | None => None
  end.

(** [AddressSpace::resolveOne] (lines 98-205).  The
    [TimerStatIncrementer] only feeds the statistics and is left out. *)
Definition resolveOne (pointer : KValue) : M ResolveOneResult :=
  if isConstant pointer then
    match resolveConstantAddress pointer with
    | None => crash
    | Some r => ret (true, r, Some (isSome r))
    end
  else
    seg <- (match getSegment pointer with
            | ConstantExpr v => ret (Some (ConstantExpr v))
            | e => r <- solverGetValue e ;;
                   ret (option_map (fun v => ConstantExpr v) r)
            end) ;;
    match seg with
    | None => ret (false, None, None)
    | Some segment =>
        if negb (getZExtValue segment =? 0) then
          match resolveConstantAddress (mkKValue segment (getOffset pointer)) with
          | None => crash
          | Some r => ret (isSome r, r, None)
          end
        else
          cex <- solverGetValue (getOffset pointer) ;;
          match cex with
          | None => ret (false, None, None)
          | Some v =>
              let example := wrap64 v in
              match cheapSearch example with
              | Some res => ret (true, Some res, Some true)
              | None =>
                  let (before, after) :=
                    ImmutableMap.upper_bound moKey example (objects sp) in
                  b <- resolveOneBackward pointer (rev before) ;;
                  match b with
                  | Returned r => ret r
                  | FellThrough =>
                      f <- resolveOneForward pointer after ;;
                      match f with
                      | Returned r => ret r
                      | FellThrough => ret (true, None, Some false)
                      end
                  end
              end
          end
    end.

(** [AddressSpace::checkPointerInObject] (lines 207-243) returns 0 (done),
    1 (incomplete) or 2 (go on), together with the resolution list. *)
Definition checkPointerInObject (pointer : KValue) (op : ObjectPair)
  (rl : ResolutionList) (maxResolutions : nat) : M (Z * ResolutionList) :=
  let mo := fst op in
  let inBounds := getBoundsCheckPointer mo pointer in
  r <- solverMayBeTrue inBounds ;;
  match r with
  | None => ret (1, rl)
  | Some true =>
      let rl' := rl ++ [op] in
      let sz := length rl' in
      if Nat.eqb sz 1 then
        r2 <- solverMustBeTrue inBounds ;;
        match r2 with
        | None => ret (1, rl')
        | Some true => ret (0, rl')
        | Some false => ret (2, rl')
        end
      else if Nat.eqb sz maxResolutions then ret (1, rl')
      else ret (2, rl')
  | Some false => ret (2, rl)
  end.

Definition ResolveResult : Type := (bool * ResolutionList)%type.

(** The backward search of [resolveConstantSegment] (lines 333-355). *)
Fixpoint searchBackward (pointer : KValue) (maxResolutions : nat)
  (timeout : Z) (l : list ObjectPair) (rl : ResolutionList)
  : M (Flow bool * ResolutionList) :=
  match l with
  | [] => ret (FellThrough, rl)
  | oi :: rest =>
      let mo := fst oi in
      t <- timedOut timeout ;;
      if t then ret (Returned true, rl)
      else
        c <- checkPointerInObject pointer oi rl maxResolutions ;;
        let (incomplete, rl1) := c in
        if negb (incomplete =? 2)
        then ret (Returned (negb (incomplete =? 0)), rl1)
        else
          r <- solverMustBeTrue (UgeExpr (getOffset pointer) (getBaseExpr mo)) ;;
          match r with
          | None => ret (Returned true, rl1)
          | Some true => ret (FellThrough, rl1)
          | Some false => searchBackward pointer maxResolutions timeout rest rl1
          end
  end.

(** The forward search of [resolveConstantSegment] (lines 358-377). *)
Fixpoint searchForward (pointer : KValue) (maxResolutions : nat)
  (timeout : Z) (l : list ObjectPair) (rl : ResolutionList)
  : M (Flow bool * ResolutionList) :=
  match l with
  | [] => ret (FellThrough, rl)
  | oi :: rest =>
      let mo := fst oi in
      t <- timedOut timeout ;;
      if t then ret (Returned true, rl)
      else
        r <- solverMustBeTrue (UltExpr (getOffset pointer) (getBaseExpr mo)) ;;
        match r with
        | None => ret (Returned true, rl)
        | Some true => ret (FellThrough, rl)
        | Some false =>
            c <- checkPointerInObject pointer oi rl maxResolutions ;;
            let (incomplete, rl1) := c in
            if negb (incomplete =? 2)
            then ret (Returned (negb (incomplete =? 0)), rl1)
            else searchForward pointer maxResolutions timeout rest rl1
        end
  end.

(** [AddressSpace::resolveConstantSegment] (lines 283-380); it crashes
    where [cast<ConstantExpr>] asserts on a segment that is no constant
    (line 289). *)
Definition resolveConstantSegment (pointer : KValue) (rl : ResolutionList)
  (maxResolutions : nat) (timeout : Z) : M ResolveResult :=
  if negb (isConstantExpr (getSegment pointer)) then crash else
  if negb (getZExtValue (getSegment pointer) =? 0) then
    match resolveConstantAddress pointer with
    | None => crash
    | Some (Some res) => ret (false, rl ++ [res])
    | Some None => ret (false, rl)
    end
  else
    cex <- solverGetValue (getOffset pointer) ;;
    match cex with
    | None => ret (true, rl)
    | Some v =>
        let example := wrap64 v in
        let (before, after) :=
          ImmutableMap.upper_bound moKey example (objects sp) in
        b <- searchBackward pointer maxResolutions timeout (rev before) rl ;;
        match b with
        | (Returned r, rl1) => ret (r, rl1)
        | (FellThrough, rl1) =>
            f <- searchForward pointer maxResolutions timeout after rl1 ;;
            match f with
            | (Returned r, rl2) => ret (r, rl2)
            | (FellThrough, rl2) => ret (false, rl2)
            end
        end
    end.

(** The loop of [resolve] over the segment map (lines 267-279). *)
Fixpoint resolveSegments (pointer : KValue) (timeout : Z)
  (l : SegmentMap) (rl : ResolutionList) : M ResolveResult :=
  match l with
  | [] => ret (false, rl)
  | res :: rest =>
      t <- timedOut timeout ;;
      if t then ret (true, rl)
      else
        let expr := EqExpr (getSegment pointer) (ConstantExpr (fst res)) in
        r <- solverMayBeTrue expr ;;
        match r with
        | None => ret (true, rl)
        | Some true =>
            match ImmutableMap.lookup moKey (address (snd res)) (objects sp) with
            | Some objpair =>
                resolveSegments pointer timeout rest (rl ++ [objpair])
            | None => crash
            end
        | Some false => resolveSegments pointer timeout rest rl
        end
  end.

(** [AddressSpace::resolve] (lines 245-281). *)
Definition resolve (pointer : KValue) (rl : ResolutionList)
  (maxResolutions : nat) (timeout : Z) : M ResolveResult :=
  if isConstantExpr (getSegment pointer) then
    resolveConstantSegment pointer rl maxResolutions timeout
  else
    let zeroSegment := ConstantExpr 0 in
    r <- solverMayBeTrue (createIsZero (getSegment pointer)) ;;
    match r with
    | None => ret (true, rl)
    | Some mayBeTrue =>
        z <- (if mayBeTrue
              then resolveConstantSegment
                     (mkKValue zeroSegment (getValue pointer))
                     rl maxResolutions timeout
              else ret (false, rl)) ;;
        let (incomplete, rl1) := z in
        if incomplete then ret (true, rl1)
        else resolveSegments pointer timeout (segmentMap sp) rl1
    end.
End Resolver.

(** ** Invariants of the address space *)

(** [mo] is a key of [objects]. *)
Definition bound (sp : AddressSpace) (mo : MemoryObject) : Prop :=
  exists os, In (mo, os) (objects sp).

(** [segmentMap[s] == mo]. *)
Definition segmentLookup (sp : AddressSpace) (s : Z) : option MemoryObject :=
  option_map snd (ImmutableMap.lookup segKey s (segmentMap sp)).

(** The synchronisation invariant read for every [s], together with its
    second half. *)
Definition segmentSyncAll (sp : AddressSpace) : Prop :=
  (forall s mo, segmentLookup sp s = Some mo <-> bound sp mo /\ segment mo = s)
  /\ (forall mo, bound sp mo -> segment mo <> 0 ->
        exists s, segmentLookup sp s = Some mo).

(** The synchronisation invariant on the segments the code indexes, the
    non-zero ones. *)
Definition segmentSync (sp : AddressSpace) : Prop :=
  forall s mo, s <> 0 ->
    (segmentLookup sp s = Some mo <-> bound sp mo /\ segment mo = s).

(** Sequences of operations each of which meets a precondition [P]. *)
Inductive runs (P : State -> Op -> Prop) : State -> list Op -> State -> Prop :=
| runs_nil : forall st, runs P st [] st
| runs_cons : forall st o st1 ops st2,
    P st o -> applyOp o st = Some st1 -> runs P st1 ops st2 ->
    runs P st (o :: ops) st2.

(** The precondition of [bindObject] alone: no distinct bound object has the
    same non-zero segment. *)
Definition bindSegmentFree (st : State) (o : Op) : Prop :=
  match o with
  | OpBind mo _ =>
      forall mo', bound (fst st) mo' -> mo' <> mo -> segment mo <> 0 ->
                  segment mo' <> segment mo
  | _ => True
  end.

(** The preconditions under which the callers use the three operations:
    [bindObject] on an object that shares neither its non-zero segment nor
    its address with a distinct bound object, [unbindObject] and
    [getWriteable] on a bound object. *)
Definition wellUsed (st : State) (o : Op) : Prop :=
  match o with
  | OpBind mo _ =>
      forall mo', bound (fst st) mo' -> mo' <> mo ->
                  address mo' <> address mo
                  /\ (segment mo <> 0 -> segment mo' <> segment mo)
  | OpUnbind mo => bound (fst st) mo
  | OpGetWriteable mo _ => bound (fst st) mo
  end.

(** Every object state reachable from the address space is unowned or owned
    by this address space. *)
Definition ownersOk (st : State) : Prop :=
  forall mo os, In (mo, os) (objects (fst st)) ->
    exists s, deref (snd st) os = Some s
              /\ (copyOnWriteOwner s = 0 \/ copyOnWriteOwner s = cowKey (fst st)).

(** ** Concrete objects and address spaces *)

Definition freshState : ObjectState := mkObjectState false 0 [0; 0; 0; 0].

Definition moS1 : MemoryObject := mkMemoryObject 4096 (ConstantExpr 16) 1.
Definition moS1' : MemoryObject := mkMemoryObject 8192 (ConstantExpr 8) 1.
Definition moS2 : MemoryObject := mkMemoryObject 4096 (ConstantExpr 8) 2.
Definition moFlat : MemoryObject := mkMemoryObject 12288 (ConstantExpr 8) 0.

Definition startState : State := (emptySpace 7, [freshState; freshState]).

(** ** Solvers that decide a constraint set *)

(** A solver decides the constraint set [C] when every answer it gives is
    the right one: a sampled value is the value under some model of [C],
    [mayBeTrue] is satisfiability and [mustBeTrue] is validity over [C]. *)
Definition satisfiable (C : Model -> Prop) (e : Expr) : Prop :=
  exists m, C m /\ holdsb m e = true.

Definition valid (C : Model -> Prop) (e : Expr) : Prop :=
  forall m, C m -> holdsb m e = true.

Record decides (C : Model -> Prop) (S : TimingSolver.t) : Prop := mkDecides {
  getValue_sound : forall e v,
    TimingSolver.getValue S e = Some v -> exists m, C m /\ eval m e = wrap64 v;
  mayBeTrue_sound : forall e b,
    TimingSolver.mayBeTrue S e = Some b -> (b = true <-> satisfiable C e);
  mustBeTrue_sound : forall e b,
    TimingSolver.mustBeTrue S e = Some b -> (b = true <-> valid C e)
}.

(** A solver none of whose queries fails. *)
Definition neverFails (S : TimingSolver.t) : Prop :=
  forall e, TimingSolver.getValue S e <> None
            /\ TimingSolver.mayBeTrue S e <> None
            /\ TimingSolver.mustBeTrue S e <> None.

(** The solver that knows the models of the constraints one by one. *)
Definition modelSolver (ms : list Model) : TimingSolver.t :=
  TimingSolver.mk
    (fun e => match ms with [] => None | m :: _ => Some (eval m e) end)
    (fun e => Some (existsb (fun m => holdsb m e) ms))
    (fun e => Some (forallb (fun m => holdsb m e) ms)).

(** The model in which every symbolic variable has the value [v]. *)
Definition constModel (v : Z) : Model := fun _ => v.

(** A clock that never advances. *)
Definition stoppedClock : nat -> Z := fun _ => 0.

(** ** Layout of the objects *)

(** Under the model [m] the object lies inside the 64-bit address space. *)
Definition inRange (m : Model) (x : ObjectPair) : Prop :=
  0 <= address (fst x) < 2 ^ 64
  /\ address (fst x) + eval m (size (fst x)) <= 2 ^ 64.

(** Under the model [m] the object [x] ends before [y] starts. *)
Definition below (m : Model) (x y : ObjectPair) : Prop :=
  address (fst x) < address (fst y)
  /\ address (fst x) + eval m (size (fst x)) <= address (fst y).

(** Under the model [m] the objects of the list lie in increasing address
    order inside the 64-bit address space and do not overlap. *)
Fixpoint layoutOk (m : Model) (l : list ObjectPair) : Prop :=
  match l with
  | [] => True
  | e :: t =>
      inRange m e /\ (forall x, In x t -> below m e x) /\ layoutOk m t
  end.

(** The pointer cannot lie in [mo] under the constraints [C]:
    [mustBeTrue(not bounds_check(mo, p))]. *)
Definition excluded (C : Model -> Prop) (p : KValue) (mo : MemoryObject) : Prop :=
  valid C (NotExpr (getBoundsCheckPointer mo p)).

(** The resolution cap was hit by the comparison of [checkPointerInObject]. *)
Definition capReached (maxResolutions : nat) (rl : ResolutionList) : Prop :=
  (2 <= maxResolutions)%nat /\ length rl = maxResolutions.

(** The list has not grown to a cap that [checkPointerInObject] compares
    with (a cap of 0 or 1 is never compared with). *)
Definition belowCap (maxResolutions : nat) (rl : ResolutionList) : Prop :=
  (2 <= maxResolutions)%nat -> (length rl < maxResolutions)%nat.


(** ** Concrete scenarios *)

Definition moA : MemoryObject := mkMemoryObject 4096 (ConstantExpr 16) 0.
Definition moB : MemoryObject := mkMemoryObject 8192 (ConstantExpr 8) 0.
Definition moC : MemoryObject := mkMemoryObject 12288 (ConstantExpr 4) 0.
Definition moZ : MemoryObject := mkMemoryObject 12288 (ConstantExpr 0) 0.
Definition moBig : MemoryObject := mkMemoryObject 4096 (ConstantExpr (2 ^ 32)) 0.

(** Three flat objects. *)
Definition flatSpace : AddressSpace :=
  mkAddressSpace 7 [(moA, 0%nat); (moB, 1%nat); (moC, 2%nat)] [].

(** Two flat objects. *)
Definition twoSpace : AddressSpace :=
  mkAddressSpace 7 [(moA, 0%nat); (moB, 1%nat)] [].

(** One object of 4 GiB. *)
Definition bigSpace : AddressSpace := mkAddressSpace 7 [(moBig, 0%nat)] [].

(** One object reached through segment 1. *)
Definition segmentedSpace : AddressSpace :=
  mkAddressSpace 7 [(moS1, 0%nat)] [(1, moS1)].

(** A pointer with a symbolic offset in the flat space. *)
Definition symbolicOffset : KValue := mkKValue (ConstantExpr 0) (SymbolicExpr 0).

(** The offset may be 4100 (in [moA]), 8192 (in [moB]) or 12289 (in [moC]). *)
Definition threeModels : list Model :=
  [constModel 4100; constModel 8192; constModel 12289].

(** The offset may be 4100 (in [moA]) or 8192 (in [moB]). *)
Definition twoModels : list Model := [constModel 4100; constModel 8192].

(** Segment 5 names no object; the offset is symbolic. *)
Definition strayPointer : KValue := mkKValue (ConstantExpr 5) (SymbolicExpr 0).

(** Segment 1 names [moS1]; the offset is symbolic. *)
Definition segmentOnePointer : KValue := mkKValue (ConstantExpr 1) (SymbolicExpr 0).

(** A symbolic segment (variable 1) and a symbolic offset (variable 0). *)
Definition symbolicPointer : KValue := mkKValue (SymbolicExpr 1) (SymbolicExpr 0).



(** The family of address spaces with segments [1 .. n], one 8-byte object
    each, and the constraint sets under which the segment variable may be any
    of them. *)
Definition segObject (i : nat) : MemoryObject :=
  mkMemoryObject (4096 * Z.of_nat i) (ConstantExpr 8) (Z.of_nat i).

Definition segmentsSpace (n : nat) : AddressSpace :=
  mkAddressSpace 7
    (map (fun i => (segObject i, i)) (seq 1 n))
    (map (fun i => (Z.of_nat i, segObject i)) (seq 1 n)).

Definition segmentModels (n : nat) : list Model :=
  map (fun i => constModel (Z.of_nat i)) (seq 1 n).

Definition anySegmentPointer : KValue := mkKValue (SymbolicExpr 0) (ConstantExpr 0).

(** A solver all of whose queries fail. *)
Definition failingSolver : TimingSolver.t :=
  TimingSolver.mk (fun _ => None) (fun _ => None) (fun _ => None).

(** The entries the loop of [resolve] over the segment map is to append: one
    for every segment [s] of the map with [mayBeTrue(pointer.segment == s)]. *)
Fixpoint segmentMatches (S : TimingSolver.t) (sp : AddressSpace) (p : KValue)
  (l : SegmentMap) : ResolutionList :=
  match l with
  | [] => []
  | res :: rest =>
      match TimingSolver.mayBeTrue S (EqExpr (getSegment p) (ConstantExpr (fst res))),
            ImmutableMap.lookup moKey (address (snd res)) (objects sp) with
      | Some true, Some objpair => objpair :: segmentMatches S sp p rest
      | _, _ => segmentMatches S sp p rest
      end
  end.

(** Every entry of the segment map names a bound object. *)
Definition segmentsBound (sp : AddressSpace) (l : SegmentMap) : Prop :=
  forall res, In res l ->
    exists objpair,
      ImmutableMap.lookup moKey (address (snd res)) (objects sp) = Some objpair.

(** The clock never passes the budget: no timeout is set, or no reading
    exceeds it. *)
Definition neverExpires (clock : nat -> Z) (timeout : Z) : Prop :=
  timeout = 0 \/ (forall n, clock n <= timeout).

(** What a walk leaves behind: when it returns incomplete, a solver call
    has failed, a timeout test has fired or the cap comparison has
    succeeded; otherwise no query failed, no test fired and the cap
    comparison has not succeeded.  Every object it appended is one of the
    walk whose bounds check may be true. *)
Definition walkOutcome (S : TimingSolver.t) (p : KValue) (maxResolutions : nat)
  (t : Z) (l : list ObjectPair) (rl : ResolutionList) (w : World)
  (res : Flow bool) (rl' : ResolutionList) (w' : World) : Prop :=
  match res with
  | Returned true =>
      solverFailed w' = true \/ timeoutExceeded t w' = true
      \/ capReached maxResolutions rl'
  | _ =>
      solverFailed w' = solverFailed w
      /\ timeoutExceeded t w' = timeoutExceeded t w
      /\ (belowCap maxResolutions rl -> belowCap maxResolutions rl')
  end
  /\ exists added,
       rl' = rl ++ added
       /\ forall x, In x added ->
            In x l /\ TimingSolver.mayBeTrue S (getBoundsCheckPointer (fst x) p) = Some true.


(** What a walk has settled when it does not report incomplete: after
    falling through, every object of the walk is in the list or cannot
    contain the pointer; after returning complete, the list is the one
    object that must contain the pointer. *)
Definition settled (C : Model -> Prop) (p : KValue) (l : list ObjectPair)
  (rl : ResolutionList) (res : Flow bool) (rl' : ResolutionList) : Prop :=
  match res with
  | FellThrough => forall x, In x l -> In x rl' \/ excluded C p (fst x)
  | Returned false =>
      rl = [] /\ exists e : ObjectPair,
                   In e l /\ rl' = [e]
                   /\ valid C (getBoundsCheckPointer (fst e) p)
  | Returned true => True
  end.



(** ** The paths of the resolvers *)










(** ** Queries of a run *)

Definition isQuery (ev : Event) : bool :=
  match ev with EvDelta _ => false | _ => true end.

(** The solver queries of a run, first to last. *)
Definition queries (w : World) : list Event := rev (filter isQuery (trace w)).

(** ** Concrete shadow memory for external calls *)

(** The native memory of the process, a byte at every address.  Ranges are
    not wrapped around the end of the address space: a range that crosses
    it is no valid argument of [memcpy] or [memcmp]. *)
Definition Memory : Type := Z -> Z.

(** The [n] bytes at [a]. *)
Definition readBytes (mem : Memory) (a : Z) (n : nat) : list Z :=
  map (fun i => mem (a + Z.of_nat i)) (seq 0 n).

(** [memcpy(a, data.data(), data.size())] into native memory. *)
Definition memcpy (mem : Memory) (a : Z) (data : list Z) : Memory :=
  fun x =>
    if (a <=? x) && (x <? a + Z.of_nat (length data))
    then nth (Z.to_nat (x - a)) data 0
    else mem x.

Fixpoint bytesEqual (l1 l2 : list Z) : bool :=
  match l1, l2 with
  | [], [] => true
  | x :: t1, y :: t2 => (x =? y) && bytesEqual t1 t2
  | _, _ => false
  end.

(** [std::vector::resize(n, v)]. *)
Definition resize (l : list Z) (n : nat) (v : Z) : list Z :=
  firstn n l ++ repeat v (n - length l).

Definition setStore (os : ObjectState) (bytes : list Z) : ObjectState :=
  mkObjectState (readOnly os) (copyOnWriteOwner os) bytes.

Section Shadow.
(** Modelled from the spec: [MemoryObject::isUserSpecified], "if true,
    excluded from concrete-shadow traffic". *)
Variable isUserSpecified : MemoryObject -> bool.
(** The [sizeBound] and the [initialValue] of the offset plane of the state
    at a location; [copyOutConcretes] reads them and nothing in it assigns
    them. *)
Variable sizeBound : loc -> nat.
Variable initialValue : loc -> Z.

(** [AddressSpace::copyOutConcretes] (lines 388-405) over the entries of
    [objects] in address order.  The store is resized in place, on the state
    the entry points to. *)
Fixpoint copyOutLoop (l : list ObjectPair) (h : Heap) (mem : Memory)
  : option (Heap * Memory) :=
  match l with
  | [] => Some (h, mem)
  | (mo, os) :: rest =>
      if negb (isUserSpecified mo) then
        match deref h os with
        | None => None
        | Some s =>
            if negb (readOnly s) then
              let cs := resize (concreteStore s) (sizeBound os) (initialValue os) in
              copyOutLoop rest (store h os (setStore s cs)) (memcpy mem (address mo) cs)
            else copyOutLoop rest h mem
        end
      else copyOutLoop rest h mem
  end.

Definition copyOutConcretes (st : State) (mem : Memory) : option (Heap * Memory) :=
  copyOutLoop (objects (fst st)) (snd st) mem.

(** [AddressSpace::copyInConcrete] (lines 422-437): the value returned and
    the state afterwards. *)
Definition copyInConcrete (mem : Memory) (mo : MemoryObject) (os : loc)
  (src_address : Z) (st : State) : option (bool * State) :=
  match deref (snd st) os with
  | None => None
  | Some s =>
      let concreteStoreR := concreteStore s in
      if negb (bytesEqual (readBytes mem src_address (length concreteStoreR))
                 concreteStoreR)
      then
        if readOnly s then Some (false, st)
        else
          match getWriteable mo os st with
          | None => None
          | Some (wos, st1) =>
              match deref (snd st1) wos with
              | None => None
              | Some ws =>
                  let bytes := readBytes mem src_address (length (concreteStore ws)) in
                  Some (true, (fst st1, store (snd st1) wos (setStore ws bytes)))
              end
          end
      else Some (true, st)
  end.

(** [AddressSpace::copyInConcretes] (lines 407-420).  Modelled from the
    spec: every operation of the persistent map returns a new version and
    prior versions remain valid and unchanged, so the range-for runs over
    the map as it is on entry, whatever [getWriteable] replaces meanwhile. *)
Fixpoint copyInLoop (mem : Memory) (l : list ObjectPair) (st : State)
  : option (bool * State) :=
  match l with
  | [] => Some (true, st)
  | (mo, os) :: rest =>
      if negb (isUserSpecified mo) then
        match copyInConcrete mem mo os (address mo) st with
        | None => None
        | Some (false, st1) => Some (false, st1)
        | Some (true, st1) => copyInLoop mem rest st1
        end
      else copyInLoop mem rest st
  end.

Definition copyInConcretes (mem : Memory) (st : State) : option (bool * State) :=
  copyInLoop mem (objects (fst st)) st.
End Shadow.

(** The bytes of the state bound at a location differ from native memory
    at [a]. *)
Definition diverged (mem : Memory) (a : Z) (s : ObjectState) : Prop :=
  readBytes mem a (length (concreteStore s)) <> concreteStore s.

(** What [copyInConcretes] keeps of the heap [h] it started from: every
    location stays valid with its [readOnly] flag, and the states that are
    read-only or owned by another address space than [k] are as they
    were. *)
Definition keepsShared (k : Z) (h h' : Heap) : Prop :=
  forall l s, deref h l = Some s ->
    exists s', deref h' l = Some s'
               /\ readOnly s' = readOnly s
               /\ (readOnly s = true \/ copyOnWriteOwner s <> k -> s' = s).

(** A bound object that makes [copyInConcretes] give up: it takes part in
    the shadowing, its state is read-only and its bytes differ from native
    memory. *)
Definition offending (isUserSpecified : MemoryObject -> bool) (mem : Memory)
  (h : Heap) (x : ObjectPair) : Prop :=
  isUserSpecified (fst x) = false
  /\ exists s, deref h (snd x) = Some s /\ readOnly s = true
               /\ diverged mem (address (fst x)) s.

(** The state bound to [mo] holds the [n] bytes native memory has at the
    address of [mo], and no more. *)
Definition inStep (mem : Memory) (st : State) (mo : MemoryObject) (n : nat) : Prop :=
  exists os s,
    findObject mo (fst st) = Some os /\ deref (snd st) os = Some s
    /\ concreteStore s = readBytes mem (address mo) n.

(** A shadowing scenario: [moA] bound to a writable state owned by another
    address space, [moB] bound to a read-only state, native memory all
    zero. *)
Definition noneUserSpecified : MemoryObject -> bool := fun _ => false.
Definition nativeZero : Memory := fun _ => 0.
Definition shadowSpace : AddressSpace :=
  mkAddressSpace 7 [(moA, 0%nat); (moB, 1%nat)] [].
Definition shadowHeap : Heap :=
  [mkObjectState false 9 [1; 2; 3; 4]; mkObjectState true 0 [0; 0]].

(** The state at a location can be written to. *)
Definition writable (h : Heap) (l : loc) : bool :=
  match deref h l with
  | Some s => negb (readOnly s)
  | None => false
  end.

(** The native range a bound object takes in the shadowing: [sizeBound]
    bytes when its state is writable, the bytes of its store when it is
    read-only. *)
Definition footprint (sizeBound : loc -> nat) (h : Heap) (x : ObjectPair) : Z :=
  match deref h (snd x) with
  | Some s =>
      Z.of_nat (if readOnly s then length (concreteStore s) else sizeBound (snd x))
  | None => 0
  end.

Definition inFootprint (sizeBound : loc -> nat) (h : Heap) (x : ObjectPair) (a : Z)
  : Prop :=
  address (fst x) <= a < address (fst x) + footprint sizeBound h x.

(** The native ranges of the objects that take part in the shadowing do
    not overlap. *)
Fixpoint shadowLayout (isUserSpecified : MemoryObject -> bool)
  (sizeBound : loc -> nat) (h : Heap) (l : list ObjectPair) : Prop :=
  match l with
  | [] => True
  | x :: t =>
      (forall y, In y t ->
         isUserSpecified (fst x) = false -> isUserSpecified (fst y) = false ->
         forall a, inFootprint sizeBound h x a -> ~ inFootprint sizeBound h y a)
      /\ shadowLayout isUserSpecified sizeBound h t
  end.

(** The state an entry points to agrees with native memory. *)
Definition agrees (mem : Memory) (h : Heap) (x : ObjectPair) : Prop :=
  exists s, deref h (snd x) = Some s /\ ~ diverged mem (address (fst x)) s.

(** What [copyOutConcretes] keeps of the heap: every location stays valid
    with its [readOnly] flag, and the states that are read-only or whose
    store has its [sizeBound] already are as they were. *)
Definition keepsSized (sizeBound : loc -> nat) (h h' : Heap) : Prop :=
  forall l s, deref h l = Some s ->
    exists s', deref h' l = Some s'
               /\ readOnly s' = readOnly s
               /\ (readOnly s = true \/ length (concreteStore s) = sizeBound l -> s' = s).

Definition fourBytes : loc -> nat := fun _ => 4%nat.
Definition zeroFill : loc -> Z := fun _ => 0.

(** * The runtime library: [strtok] (musl) *)

(** Memory is a run of bytes and a pointer into it is an index; a read
    outside the run is undefined behaviour, [None].  The separator string
    [sep] is given by its characters up to the terminating NUL. *)
Definition isSep (sep : list Z) (c : Z) : bool := existsb (Z.eqb c) sep.

(** The number of leading characters of the string [l] that satisfy
    [keep]; the scan stops at the NUL. *)
Fixpoint spanOf (keep : Z -> bool) (l : list Z) : option nat :=
  match l with
  | [] => None
  | c :: t =>
      if (c =? 0) || negb (keep c) then Some 0%nat
      else option_map S (spanOf keep t)
  end.

(** Modelled from the C standard (7.24.5.6): [strspn(s, sep)] is the length
    of the longest initial segment of [s] made of characters of [sep]. *)
Definition strspn (mem : list Z) (s : nat) (sep : list Z) : option nat :=
  spanOf (isSep sep) (skipn s mem).

(** Modelled from the C standard (7.24.5.3): [strcspn(s, sep)] is the length
    of the longest initial segment of [s] made of characters not in [sep]. *)
Definition strcspn (mem : list Z) (s : nat) (sep : list Z) : option nat :=
  spanOf (fun c => negb (isSep sep c)) (skipn s mem).

(** [mem[i] = v]. *)
Fixpoint poke (mem : list Z) (i : nat) (v : Z) : list Z :=
  match mem, i with
  | [], _ => []
  | _ :: t, O => v :: t
  | x :: t, S i' => x :: poke t i' v
  end.

(** The memory and the [static char *p] of [strtok]; [None] is the null
    pointer. *)
Record StrtokState : Type := mkStrtokState {
  buffer : list Z;
  saved : option nat
}.

(** [strtok] (part_000, lines 6-16): the pointer returned and the state
    afterwards. *)
Definition strtok (s : option nat) (sep : list Z) (st : StrtokState)
  : option (option nat * StrtokState) :=
  match (match s with Some i => Some i | None => saved st end) with
  | None => Some (None, st)
  | Some s0 =>
      match strspn (buffer st) s0 sep with
      | None => None
      | Some k =>
          let s1 := (s0 + k)%nat in
          match nth_error (buffer st) s1 with
          | None => None
          | Some c =>
              if c =? 0 then Some (None, mkStrtokState (buffer st) None)
              else
                match strcspn (buffer st) s1 sep with
                | None => None
                | Some j =>
                    let p := (s1 + j)%nat in
                    match nth_error (buffer st) p with
                    | None => None
                    | Some d =>
                        if negb (d =? 0)
                        then Some (Some s1,
                                   mkStrtokState (poke (buffer st) p 0) (Some (S p)))
                        else Some (Some s1, mkStrtokState (buffer st) None)
                    end
                end
          end
      end
  end.

(** The C string at the head of [l]: its characters up to the NUL. *)
Fixpoint cstring (l : list Z) : option (list Z) :=
  match l with
  | [] => None
  | c :: t => if c =? 0 then Some [] else option_map (cons c) (cstring t)
  end.

Definition stringAt (mem : list Z) (i : nat) : option (list Z) :=
  cstring (skipn i mem).

(** There is a NUL at or after index [i]. *)
Definition terminatedFrom (mem : list Z) (i : nat) : Prop :=
  exists j, (i <= j)%nat /\ nth_error mem j = Some 0.

(** The saved pointer, when set, points into a terminated string. *)
Definition savedOk (st : StrtokState) : Prop :=
  match saved st with
  | Some i => terminatedFrom (buffer st) i
  | None => True
  end.

(** The tokens of a string: its maximal non-empty runs of characters that
    are not separators, in order.  [acc] holds the run being read,
    reversed. *)
Fixpoint splitRuns (sep : list Z) (acc : list Z) (l : list Z) : list (list Z) :=
  match l with
  | [] => match acc with [] => [] | _ => [rev acc] end
  | c :: t =>
      if isSep sep c
      then match acc with
           | [] => splitRuns sep [] t
           | _ => rev acc :: splitRuns sep [] t
           end
      else splitRuns sep (c :: acc) t
  end.

Definition tokensOf (sep : list Z) (l : list Z) : list (list Z) :=
  splitRuns sep [] l.

(** The caller's loop: [strtok(s, sep)] and then [strtok(NULL, sep)] until
    it returns null, reading each token as it is returned. *)
Fixpoint strtokAll (fuel : nat) (s : option nat) (sep : list Z) (st : StrtokState)
  : option (list (list Z)) :=
  match fuel with
  | O => None
  | S fuel' =>
      match strtok s sep st with
      | None => None
      | Some (None, _) => Some []
      | Some (Some t, st') =>
          match stringAt (buffer st') t with
          | None => None
          | Some tok => option_map (cons tok) (strtokAll fuel' None sep st')
          end
      end
  end.

(** * The runtime library: [getenv] *)

(** A [char]. *)
Definition isChar (c : Z) : Prop := -128 <= c < 128.

(** What a call of the model may do: the path is cut by [klee_assume], or
    the call returns null or the buffer. *)
Inductive GetenvResult : Type :=
| Infeasible
| ReturnsNull
| ReturnsEnv (dummy_env : list Z).

(** [getenv] (part_000, lines 26-39).  [nondet] is what [nondet_char()]
    returns, [symbolic] the 20 bytes [klee_make_symbolic] puts into
    [dummy_env] and [idx] what [nondet_uint()] returns. *)
Definition getenv (nondet : Z) (symbolic : list Z) (idx : Z) : GetenvResult :=
  if negb (nondet =? 0) then ReturnsNull
  else if idx <? 20 then ReturnsEnv (poke symbolic (Z.to_nat idx) 0)
  else Infeasible.

(** The inputs the environment of the model can supply. *)
Definition getenvInputs (nondet : Z) (symbolic : list Z) (idx : Z) : Prop :=
  isChar nondet /\ length symbolic = 20%nat /\ Forall isChar symbolic
  /\ 0 <= idx < 2 ^ 32.

(** * The Z3 back end (lib/Solver/Z3Solver.cpp) *)

Module Z3.

Inductive Z3_lbool : Type := Z3_L_FALSE | Z3_L_UNDEF | Z3_L_TRUE.

(** The values of [SolverImpl::SolverRunStatus] this file uses. *)
Inductive SolverRunStatus : Type :=
| SOLVER_RUN_STATUS_SUCCESS_SOLVABLE
| SOLVER_RUN_STATUS_SUCCESS_UNSOLVABLE
| SOLVER_RUN_STATUS_FAILURE
| SOLVER_RUN_STATUS_TIMEOUT
| SOLVER_RUN_STATUS_INTERRUPTED.

(** Modelled from the spec: a [Query] (klee/Solver/Solver.h) is the
    constraints of the state and the expression asked about;
    [withFalse] replaces the expression by false. *)
Record Query : Type := mkQuery {
  constraints : list Expr;
  expr : Expr
}.

Definition withFalse (q : Query) : Query := mkQuery (constraints q) (ConstantExpr 0).

(** What Z3 answers to [Z3_solver_check] on the asserted formulas, with
    the reason [Z3_solver_get_reason_unknown] gives afterwards. *)
Record Z3Answer : Type := mkZ3Answer {
  satisfiable : Z3_lbool;
  reason : String.string
}.

(** [stats::queries], [stats::queryCounterexamples], [stats::queriesValid]
    and [stats::queriesInvalid]. *)
Record Stats : Type := mkStats {
  queries : nat;
  queryCounterexamples : nat;
  queriesValid : nat;
  queriesInvalid : nat
}.

(** The solver object: its [runStatusCode], the statistics and the number
    of [SIGINT]s it has raised. *)
Record Solver : Type := mkSolver {
  runStatusCode : SolverRunStatus;
  stats : Stats;
  raised : nat
}.

Definition isSuccess (c : SolverRunStatus) : bool :=
  match c with
  | SOLVER_RUN_STATUS_SUCCESS_SOLVABLE | SOLVER_RUN_STATUS_SUCCESS_UNSOLVABLE => true
  | _ => false
  end.

Section Backend.
(** Z3 itself: the formulas are asserted as the builder constructs them
    from the expressions, and Z3 answers. *)
Variable z3 : list Expr -> Z3Answer.

(** [Z3SolverImpl::handleSolverResponse] (lines 391-446) for a call that
    needs no model: the status returned and the [hasSolution] left in the
    out-parameter; [None] is [abort()]. *)
Definition handleSolverResponse (answer : Z3Answer) (hasSolution : bool)
  : option (SolverRunStatus * bool) :=
  match satisfiable answer with
  | Z3_L_TRUE => Some (SOLVER_RUN_STATUS_SUCCESS_SOLVABLE, true)
  | Z3_L_FALSE => Some (SOLVER_RUN_STATUS_SUCCESS_UNSOLVABLE, false)
  | Z3_L_UNDEF =>
      let r := reason answer in
      if String.eqb r "timeout"%string || String.eqb r "canceled"%string
         || String.eqb r "(resource limits reached)"%string
      then Some (SOLVER_RUN_STATUS_TIMEOUT, hasSolution)
      else if String.eqb r "unknown"%string
      then Some (SOLVER_RUN_STATUS_FAILURE, hasSolution)
      else if String.eqb r "interrupted from keyboard"%string
      then Some (SOLVER_RUN_STATUS_INTERRUPTED, hasSolution)
      else None
  end.

(** The formulas [internalRunSolver] asserts: the constraints and the
    negation of the query expression.  (Constant arrays lie outside the
    expressions modelled here.) *)
Definition assertions (q : Query) : list Expr :=
  constraints q ++ [NotExpr (expr q)].

(** [Z3SolverImpl::internalRunSolver] (lines 246-330) with
    [needsModel = false]: the value returned, [hasSolution] and the solver
    afterwards.  [raise(SIGINT)] is counted and the call goes on to return
    false. *)
Definition internalRunSolver (q : Query) (hasSolution : bool) (sv : Solver)
  : option (bool * bool * Solver) :=
  let st := stats sv in
  let st1 := mkStats (S (queries st)) (queryCounterexamples st)
               (queriesValid st) (queriesInvalid st) in
  match handleSolverResponse (z3 (assertions q)) hasSolution with
  | None => None
  | Some (code, hasSolution') =>
      if isSuccess code then
        let st2 :=
          if hasSolution'
          then mkStats (queries st1) (queryCounterexamples st1)
                 (queriesValid st1) (S (queriesInvalid st1))
          else mkStats (queries st1) (queryCounterexamples st1)
                 (S (queriesValid st1)) (queriesInvalid st1) in
        Some (true, hasSolution', mkSolver code st2 (raised sv))
      else
        match code with
        | SOLVER_RUN_STATUS_INTERRUPTED =>
            Some (false, hasSolution', mkSolver code st1 (S (raised sv)))
        | _ => Some (false, hasSolution', mkSolver code st1 (raised sv))
        end
  end.

(** [Z3SolverImpl::computeTruth] (lines 216-223): the value returned,
    [isValid] and the solver afterwards. *)
Definition computeTruth (q : Query) (sv : Solver) : option (bool * bool * Solver) :=
  match internalRunSolver q false sv with
  | None => None
  | Some (status, hasSolution, sv') => Some (status, negb hasSolution, sv')
  end.

(** [Z3SolverImpl::getOperationStatusCode] (lines 497-499). *)
Definition getOperationStatusCode (sv : Solver) : SolverRunStatus := runStatusCode sv.

(** [computeTruth] on one query after the other, until one aborts: the
    values returned and the solver at the end. *)
Fixpoint computeTruths (qs : list Query) (sv : Solver) : option (list bool * Solver) :=
  match qs with
  | [] => Some ([], sv)
  | q :: rest =>
      match computeTruth q sv with
      | None => None
      | Some (status, _, sv1) =>
          match computeTruths rest sv1 with
          | None => None
          | Some (rs, sv2) => Some (status :: rs, sv2)
          end
      end
  end.
End Backend.

(** [Z3SolverImpl::setCoreSolverTimeout] (lines 80-88): the value handed
    to Z3 as its timeout in milliseconds. *)
Definition setCoreSolverTimeout (microseconds : Z) : Z :=
  let timeoutInMilliSeconds := wrap32 (microseconds / 1000) in
  if timeoutInMilliSeconds =? 0 then 2 ^ 32 - 1 else timeoutInMilliSeconds.

(** Z3 answers rightly on the formulas [fs]: if it calls them satisfiable
    they have a model, and if it calls them unsatisfiable they have
    none. *)
Definition answersRightly (z3 : list Expr -> Z3Answer) (fs : list Expr) : Prop :=
  (satisfiable (z3 fs) = Z3_L_TRUE ->
   exists m, forall f, In f fs -> holdsb m f = true)
  /\ (satisfiable (z3 fs) = Z3_L_FALSE ->
      forall m, exists f, In f fs /\ holdsb m f = false).

(** The query holds under every assignment that satisfies the
    constraints. *)
Definition holds (q : Query) : Prop :=
  forall m, (forall c, In c (constraints q) -> holdsb m c = true) ->
            holdsb m (expr q) = true.

(** The answers that make a call fail. *)
Definition undecided (a : Z3Answer) : bool :=
  match satisfiable a with Z3_L_UNDEF => true | _ => false end.

Definition interrupted (a : Z3Answer) : bool :=
  undecided a && String.eqb (reason a) "interrupted from keyboard"%string.

End Z3.

(** * Properties *)

(** ** The persistent map *)

Section MapFacts.
Context {E : Type}.
Variable key : E -> Z.

Lemma in_remove : forall k (m : list E) x,
  In x (ImmutableMap.remove key k m) <-> In x m /\ key x <> k.
Proof.
  induction m as [|e t IH]; simpl; intros x.
  - tauto.
  - destruct (Z.eqb_spec (key e) k) as [Heq|Hne]; simpl; rewrite IH.
    + split; [tauto|]. intros [[->|H] Hk]; [congruence|tauto].
    + split; [intros [->|H]; tauto|tauto].
Qed.

Lemma in_insert : forall x0 (m : list E) x,
  In x (ImmutableMap.insert key x0 m) <-> x = x0 \/ In x m.
Proof.
  induction m as [|e t IH]; simpl; intros x.
  - intuition.
  - destruct (key x0 <? key e); simpl; [|rewrite IH]; intuition.
Qed.

Lemma in_replace : forall x0 (m : list E) x,
  In x (ImmutableMap.replace key x0 m) <->
  x = x0 \/ (In x m /\ key x <> key x0).
Proof.
  intros. unfold ImmutableMap.replace. rewrite in_insert, in_remove. tauto.
Qed.

Lemma lookup_remove : forall k k' (m : list E),
  ImmutableMap.lookup key k (ImmutableMap.remove key k' m) =
  if k =? k' then None else ImmutableMap.lookup key k m.
Proof.
  induction m as [|e t IH]; simpl.
  - destruct (k =? k'); reflexivity.
  - destruct (Z.eqb_spec (key e) k') as [Heq|Hne]; simpl.
    + rewrite IH. destruct (Z.eqb_spec k k'); [reflexivity|].
      destruct (Z.eqb_spec (key e) k); [congruence|reflexivity].
    + rewrite IH. destruct (Z.eqb_spec (key e) k) as [H1|H1].
      * destruct (Z.eqb_spec k k'); [congruence|reflexivity].
      * reflexivity.
Qed.

Lemma lookup_insert : forall x0 k (m : list E),
  (forall x, In x m -> key x <> key x0) ->
  ImmutableMap.lookup key k (ImmutableMap.insert key x0 m) =
  if k =? key x0 then Some x0 else ImmutableMap.lookup key k m.
Proof.
  induction m as [|e t IH]; simpl; intros Hfree.
  - rewrite (Z.eqb_sym k). destruct (key x0 =? k); reflexivity.
  - destruct (key x0 <? key e); simpl.
    + rewrite (Z.eqb_sym k). destruct (Z.eqb_spec (key x0) k) as [H1|H1]; reflexivity.
    + rewrite IH by (intros; apply Hfree; auto).
      destruct (Z.eqb_spec (key e) k) as [H1|H1]; [|reflexivity].
      destruct (Z.eqb_spec k (key x0)) as [H2|H2]; [|reflexivity].
      exfalso. apply (Hfree e); [auto|congruence].
Qed.

Lemma lookup_replace : forall x0 k (m : list E),
  ImmutableMap.lookup key k (ImmutableMap.replace key x0 m) =
  if k =? key x0 then Some x0 else ImmutableMap.lookup key k m.
Proof.
  intros. unfold ImmutableMap.replace. rewrite lookup_insert.
  - rewrite lookup_remove. destruct (k =? key x0); reflexivity.
  - intros x Hx. apply in_remove in Hx. tauto.
Qed.

Lemma sorted_remove : forall k (m : list E),
  ImmutableMap.sorted key m -> ImmutableMap.sorted key (ImmutableMap.remove key k m).
Proof.
  induction m as [|e t IH]; simpl; [tauto|]. intros [Hlt Hs].
  destruct (key e =? k); simpl; [auto|]. split; [|auto].
  intros x Hx. apply in_remove in Hx. apply Hlt. tauto.
Qed.

Lemma sorted_insert : forall x0 (m : list E),
  ImmutableMap.sorted key m -> (forall x, In x m -> key x <> key x0) ->
  ImmutableMap.sorted key (ImmutableMap.insert key x0 m).
Proof.
  induction m as [|e t IH]; simpl; intros Hs Hfree.
  - split; [intros x []|exact I].
  - destruct Hs as [Hlt Hs]. destruct (Z.ltb_spec (key x0) (key e)) as [H|H]; simpl.
    + split; [|split; assumption].
      intros x [<-|Hx]; [exact H|]. specialize (Hlt x Hx). lia.
    + split.
      * intros x Hx. apply in_insert in Hx. destruct Hx as [->|Hx]; [|auto].
        assert (key e <> key x0) by (apply Hfree; auto). lia.
      * apply IH; [exact Hs|]. intros; apply Hfree; auto.
Qed.

Lemma sorted_replace : forall x0 (m : list E),
  ImmutableMap.sorted key m -> ImmutableMap.sorted key (ImmutableMap.replace key x0 m).
Proof.
  intros. unfold ImmutableMap.replace. apply sorted_insert.
  - apply sorted_remove. assumption.
  - intros x Hx. apply in_remove in Hx. tauto.
Qed.

Lemma sorted_key_inj : forall (m : list E) x y,
  ImmutableMap.sorted key m -> In x m -> In y m -> key x = key y -> x = y.
Proof.
  induction m as [|e t IH]; simpl; intros x y Hsort Hx Hy Hk; [contradiction|].
  destruct Hsort as [Hlt Hs].
  destruct Hx as [<-|Hx], Hy as [<-|Hy]; eauto.
  - specialize (Hlt y Hy). lia.
  - specialize (Hlt x Hx). lia.
Qed.
End MapFacts.

(** ** The segment index *)

Lemma bound_replace : forall sp k mo os segs x,
  bound (mkAddressSpace k (ImmutableMap.replace moKey (mo, os) (objects sp)) segs) x
  <-> x = mo \/ (bound sp x /\ address x <> address mo).
Proof.
  intros. unfold bound. simpl. split.
  - intros [l Hl]. apply in_replace in Hl. destruct Hl as [Heq|[Hin Hk]].
    + left. congruence.
    + right. split; [eauto|exact Hk].
  - intros [->|[[l Hl] Hk]].
    + exists os. apply in_replace. auto.
    + exists l. apply in_replace. right. split; [exact Hl|exact Hk].
Qed.

Lemma bound_remove : forall sp k a segs x,
  bound (mkAddressSpace k (ImmutableMap.remove moKey a (objects sp)) segs) x
  <-> bound sp x /\ address x <> a.
Proof.
  intros. unfold bound. simpl. split.
  - intros [l Hl]. apply in_remove in Hl. destruct Hl. split; [eauto|assumption].
  - intros [[l Hl] Hk]. exists l. apply in_remove. auto.
Qed.

Lemma segmentLookup_replace : forall k objs segs mo s,
  segmentLookup
    (mkAddressSpace k objs (ImmutableMap.replace segKey (segment mo, mo) segs)) s
  = if s =? segment mo then Some mo
    else segmentLookup (mkAddressSpace k objs segs) s.
Proof.
  intros. unfold segmentLookup. simpl. rewrite lookup_replace. simpl.
  destruct (s =? segment mo); reflexivity.
Qed.

Lemma segmentLookup_remove : forall k objs segs s0 s,
  segmentLookup (mkAddressSpace k objs (ImmutableMap.remove segKey s0 segs)) s
  = if s =? s0 then None
    else segmentLookup (mkAddressSpace k objs segs) s.
Proof.
  intros. unfold segmentLookup. simpl. rewrite lookup_remove.
  destruct (s =? s0); reflexivity.
Qed.

Lemma segmentLookup_objects : forall k k' objs objs' segs s,
  segmentLookup (mkAddressSpace k objs segs) s
  = segmentLookup (mkAddressSpace k' objs' segs) s.
Proof. reflexivity. Qed.

Lemma segmentSync_bindObject : forall sp h mo os st',
  segmentSync sp -> wellUsed (sp, h) (OpBind mo os) ->
  bindObject mo os (sp, h) = Some st' -> segmentSync (fst st').
Proof.
  intros sp h mo os st' Hinv Hpre Hrun. unfold bindObject in Hrun.
  destruct (deref h os) as [s0|]; [|discriminate].
  destruct (copyOnWriteOwner s0 =? 0); [|discriminate].
  injection Hrun as <-. simpl in *.
  intros s x Hs. rewrite bound_replace.
  destruct (Z.eqb_spec (segment mo) 0) as [Hz|Hnz]; simpl.
  - rewrite (segmentLookup_objects _ (cowKey sp) _ (objects sp)).
    assert (Hsp : mkAddressSpace (cowKey sp) (objects sp) (segmentMap sp) = sp)
      by (destruct sp; reflexivity).
    rewrite Hsp, (Hinv s x Hs). split.
    + intros [Hb Hseg]. split; [|exact Hseg]. right. split; [exact Hb|].
      intro Ha. destruct (Hpre x Hb) as [Hne _]; [congruence|]. contradiction.
    + intros [[->|[Hb _]] Hseg]; [congruence|tauto].
  - rewrite segmentLookup_replace.
    rewrite (segmentLookup_objects _ (cowKey sp) _ (objects sp)).
    assert (Hsp : mkAddressSpace (cowKey sp) (objects sp) (segmentMap sp) = sp)
      by (destruct sp; reflexivity).
    rewrite Hsp. destruct (Z.eqb_spec s (segment mo)) as [->|Hne].
    + split.
      * intros [= <-]. auto.
      * intros [[->|[Hb Ha]] Hseg]; [reflexivity|].
        f_equal. symmetry.
        destruct (Hpre x Hb) as [_ Hd]; [congruence|].
        exfalso. apply Hd; assumption.
    + rewrite (Hinv s x Hs). split.
      * intros [Hb Hseg]. split; [|exact Hseg]. right. split; [exact Hb|].
        intro Ha. destruct (Hpre x Hb) as [Hd _]; [congruence|]. contradiction.
      * intros [[->|[Hb _]] Hseg]; [congruence|tauto].
Qed.

Lemma bound_address_inj : forall sp x y,
  ImmutableMap.sorted moKey (objects sp) ->
  bound sp x -> bound sp y -> address x = address y -> x = y.
Proof.
  intros sp x y Hs [l Hl] [l' Hl'] Ha.
  assert (H : (x, l) = (y, l')) by (eapply sorted_key_inj; eauto).
  congruence.
Qed.

Lemma segmentSync_unbindObject : forall sp h mo,
  ImmutableMap.sorted moKey (objects sp) ->
  segmentSync sp -> wellUsed (sp, h) (OpUnbind mo) ->
  segmentSync (fst (unbindObject mo (sp, h))).
Proof.
  intros sp h mo Hsorted Hinv Hpre. simpl in *.
  assert (Hsp : forall s, segmentLookup
            (mkAddressSpace (cowKey sp) (objects sp) (segmentMap sp)) s
            = segmentLookup sp s) by (destruct sp; reflexivity).
  assert (Hsame : forall x, bound sp x -> address x = address mo -> x = mo)
    by (intros; eapply bound_address_inj; eauto).
  intros s x Hs. rewrite bound_remove.
  destruct (Z.eqb_spec (segment mo) 0) as [Hz|Hnz]; simpl.
  - rewrite (segmentLookup_objects _ (cowKey sp) _ (objects sp)), Hsp.
    rewrite (Hinv s x Hs). split; [|tauto].
    intros [Hb Hseg]. repeat split; try assumption.
    intro Ha. apply Hsame in Ha; [|exact Hb]. congruence.
  - rewrite segmentLookup_remove.
    rewrite (segmentLookup_objects _ (cowKey sp) _ (objects sp)), Hsp.
    destruct (Z.eqb_spec s (segment mo)) as [->|Hne].
    + split; [discriminate|]. intros [[Hb Ha] Hseg]. exfalso.
      assert (H1 : segmentLookup sp (segment mo) = Some x)
        by (apply Hinv; auto).
      assert (H2 : segmentLookup sp (segment mo) = Some mo)
        by (apply Hinv; auto).
      congruence.
    + rewrite (Hinv s x Hs). split; [|tauto].
      intros [Hb Hseg]. repeat split; try assumption.
      intro Ha. apply Hsame in Ha; [|exact Hb]. congruence.
Qed.

Lemma segmentSync_getWriteable : forall sp h mo os r st',
  ImmutableMap.sorted moKey (objects sp) ->
  segmentSync sp -> wellUsed (sp, h) (OpGetWriteable mo os) ->
  getWriteable mo os (sp, h) = Some (r, st') -> segmentSync (fst st').
Proof.
  intros sp h mo os r st' Hsorted Hinv Hpre Hrun. unfold getWriteable in Hrun.
  destruct (deref h os) as [s0|]; [|discriminate].
  destruct (readOnly s0); [discriminate|].
  destruct (cowKey sp =? copyOnWriteOwner s0).
  - injection Hrun as <- <-. exact Hinv.
  - simpl in Hrun. injection Hrun as <- <-. simpl in *.
    intros s x Hs. rewrite bound_replace.
    rewrite (segmentLookup_objects _ (cowKey sp) _ (objects sp)).
    assert (Hsp : mkAddressSpace (cowKey sp) (objects sp) (segmentMap sp) = sp)
      by (destruct sp; reflexivity).
    rewrite Hsp, (Hinv s x Hs). split.
    + intros [Hb Hseg]. split; [|exact Hseg].
      destruct (Z.eq_dec (address x) (address mo)) as [Ha|Ha]; [|tauto].
      left. eapply bound_address_inj; eauto.
    + intros [[->|[Hb _]] Hseg]; tauto.
Qed.

Lemma sorted_applyOp : forall o st st',
  ImmutableMap.sorted moKey (objects (fst st)) ->
  applyOp o st = Some st' ->
  ImmutableMap.sorted moKey (objects (fst st')).
Proof.
  intros o [sp h] st' Hs Hrun. destruct o as [mo os|mo|mo os]; simpl in *.
  - destruct (deref h os) as [s0|]; [|discriminate].
    destruct (copyOnWriteOwner s0 =? 0); [|discriminate].
    injection Hrun as <-. simpl. apply sorted_replace. exact Hs.
  - injection Hrun as <-. simpl. apply sorted_remove. exact Hs.
  - destruct (deref h os) as [s0|]; [|discriminate].
    destruct (readOnly s0); [discriminate|].
    destruct (cowKey sp =? copyOnWriteOwner s0).
    + injection Hrun as <-. exact Hs.
    + simpl in Hrun. injection Hrun as <-. simpl. apply sorted_replace. exact Hs.
Qed.

Lemma segmentSync_applyOp : forall o st st',
  ImmutableMap.sorted moKey (objects (fst st)) ->
  segmentSync (fst st) -> wellUsed st o -> applyOp o st = Some st' ->
  segmentSync (fst st').
Proof.
  intros o [sp h] st' Hs Hinv Hpre Hrun.
  destruct o as [mo os|mo|mo os]; unfold applyOp in Hrun.
  - eapply segmentSync_bindObject; eauto.
  - injection Hrun as <-. apply segmentSync_unbindObject; assumption.
  - destruct (getWriteable mo os (sp, h)) as [[r st1]|] eqn:Hg; [|discriminate].
    injection Hrun as <-. eapply segmentSync_getWriteable; eauto.
Qed.

(** C6 (as amended): on the non-zero segments, [segmentMap[s] == mo] exactly
    when [mo] is a key of [objects] with [mo.segment == s], and this is
    preserved by every sequence of [bindObject], [unbindObject] and
    [getWriteable] in which [bindObject] is given an object sharing neither
    its non-zero segment nor its address with a distinct bound object and the
    other two are given a bound object. *)
Theorem segment_sync_preserved : forall ops st st',
  ImmutableMap.sorted moKey (objects (fst st)) ->
  segmentSync (fst st) ->
  runs wellUsed st ops st' ->
  segmentSync (fst st') /\ ImmutableMap.sorted moKey (objects (fst st')).
Proof.
  intros ops st st' Hs Hinv Hruns. induction Hruns as [st|st o st1 ops st2 Hp Ha Hr IH].
  - split; assumption.
  - apply IH.
    + eapply sorted_applyOp; eauto.
    + eapply segmentSync_applyOp; eauto.
Qed.

Lemma bound_empty : forall k mo, ~ bound (emptySpace k) mo.
Proof. intros k mo [os []]. Qed.

Lemma segmentSync_empty : forall k, segmentSync (emptySpace k).
Proof.
  intros k s mo _. split; [discriminate|]. intros [H _]. destruct (bound_empty _ _ H).
Qed.

Lemma segmentSyncAll_empty : forall k, segmentSyncAll (emptySpace k).
Proof.
  intros k. split.
  - intros s mo. split; [discriminate|]. intros [H _]. destruct (bound_empty _ _ H).
  - intros mo H. destruct (bound_empty _ _ H).
Qed.

Lemma wellUsed_run :
  runs wellUsed startState
       [OpBind moS1 0%nat; OpGetWriteable moS1 0%nat; OpUnbind moS1;
        OpBind moS2 1%nat]
       (mkAddressSpace 7 [(moS2, 1%nat)] [(2, moS2)],
        [setOwner freshState 7; setOwner freshState 7]).
Proof.
  eapply runs_cons; [|reflexivity|].
  { intros mo' Hb. destruct (bound_empty _ _ Hb). }
  eapply runs_cons; [|reflexivity|].
  { exists 0%nat. left. reflexivity. }
  eapply runs_cons; [|reflexivity|].
  { exists 0%nat. left. reflexivity. }
  eapply runs_cons; [|reflexivity|].
  { intros mo' [os []]. }
  apply runs_nil.
Qed.

Lemma segment_sync_preserved_witness :
  segmentSync (mkAddressSpace 7 [(moS2, 1%nat)] [(2, moS2)])
  /\ ImmutableMap.sorted moKey [(moS2, 1%nat)].
Proof.
  exact (segment_sync_preserved _ startState _ I (segmentSync_empty 7) wellUsed_run).
Defined.

(** The stated precondition does not keep an unbound object out of
    [unbindObject]: unbinding a second object of segment 1 drops the index
    entry of the bound one. *)
Lemma unbind_unbound_run :
  runs bindSegmentFree startState [OpBind moS1 0%nat; OpUnbind moS1']
       (mkAddressSpace 7 [(moS1, 0%nat)] [], [setOwner freshState 7; freshState]).
Proof.
  eapply runs_cons; [|reflexivity|].
  { intros mo' Hb. destruct (bound_empty _ _ Hb). }
  eapply runs_cons; [exact I|reflexivity|]. apply runs_nil.
Qed.

(** Binding an object of segment 0 is well used and leaves no index entry. *)
Lemma bind_flat_run :
  runs wellUsed startState [OpBind moFlat 0%nat]
       (mkAddressSpace 7 [(moFlat, 0%nat)] [], [setOwner freshState 7; freshState]).
Proof.
  eapply runs_cons; [|reflexivity|apply runs_nil].
  intros mo' Hb. destruct (bound_empty _ _ Hb).
Qed.

(** [getWriteable] on an unbound object binds it without indexing it. *)
Lemma getWriteable_unbound_run :
  runs bindSegmentFree startState [OpGetWriteable moS1 0%nat]
       (mkAddressSpace 7 [(moS1, 2%nat)] [],
        [freshState; freshState; setOwner freshState 7]).
Proof.
  eapply runs_cons; [exact I|reflexivity|apply runs_nil].
Qed.

(** Binding a second object at the address of a bound one replaces it in
    [objects] and leaves its index entry behind. *)
Lemma bind_same_address_run :
  runs bindSegmentFree startState [OpBind moS1 0%nat; OpBind moS2 1%nat]
       (mkAddressSpace 7 [(moS2, 1%nat)] [(1, moS1); (2, moS2)],
        [setOwner freshState 7; setOwner freshState 7]).
Proof.
  eapply runs_cons; [|reflexivity|].
  { intros mo' Hb. destruct (bound_empty _ _ Hb). }
  eapply runs_cons; [|reflexivity|apply runs_nil].
  intros mo' [os Hin] Hne _. simpl in Hin. destruct Hin as [Hin|[]].
  inversion Hin; subst. discriminate.
Qed.

(** C6 (as stated) fails: with the precondition of [bindObject] alone the
    invariant is broken by [unbindObject] on an unbound object, by
    [getWriteable] on an unbound object and by [bindObject] at an occupied
    address; read for every [s], it is broken by binding an object of
    segment 0. *)
Lemma segment_sync_not_preserved :
  ~ (forall ops st st', segmentSyncAll (fst st) ->
       runs bindSegmentFree st ops st' -> segmentSyncAll (fst st'))
  /\ ~ (forall ops st st', segmentSync (fst st) ->
       ImmutableMap.sorted moKey (objects (fst st)) ->
       runs bindSegmentFree st ops st' -> segmentSync (fst st'))
  /\ ~ (forall ops st st', segmentSyncAll (fst st) ->
       runs wellUsed st ops st' -> segmentSyncAll (fst st')).
Proof.
  split; [|split].
  - intros H.
    specialize (H _ startState _ (segmentSyncAll_empty 7) unbind_unbound_run).
    destruct H as [_ H]. destruct (H moS1) as [s Hs].
    + exists 0%nat. left. reflexivity.
    + discriminate.
    + discriminate.
  - intros H.
    specialize (H _ startState _ (segmentSync_empty 7) I unbind_unbound_run).
    assert (Hl : segmentLookup
                   (mkAddressSpace 7 [(moS1, 0%nat)] []) 1 = Some moS1).
    { apply H; [discriminate|]. split; [|reflexivity].
      exists 0%nat. left. reflexivity. }
    discriminate.
  - intros H.
    specialize (H _ startState _ (segmentSyncAll_empty 7) bind_flat_run).
    destruct H as [H _].
    assert (Hl : segmentLookup
                   (mkAddressSpace 7 [(moFlat, 0%nat)] []) 0 = Some moFlat).
    { apply H. split; [|reflexivity]. exists 0%nat. left. reflexivity. }
    discriminate.
Qed.

(** The other two ways round the stated precondition end outside the
    invariant as well. *)
Lemma getWriteable_unbound_breaks :
  ~ segmentSync (mkAddressSpace 7 [(moS1, 2%nat)] []).
Proof.
  intros H.
  assert (Hl : segmentLookup (mkAddressSpace 7 [(moS1, 2%nat)] []) 1 = Some moS1).
  { apply H; [discriminate|]. split; [|reflexivity]. exists 2%nat. left. reflexivity. }
  discriminate.
Qed.

Lemma bind_same_address_breaks :
  ~ segmentSync (mkAddressSpace 7 [(moS2, 1%nat)] [(1, moS1); (2, moS2)]).
Proof.
  intros H.
  assert (Hb : bound (mkAddressSpace 7 [(moS2, 1%nat)] [(1, moS1); (2, moS2)]) moS1).
  { apply (H 1 moS1); [discriminate|reflexivity]. }
  destruct Hb as [os [Hin|[]]]. discriminate.
Qed.

(** ** Copy-on-write ownership *)

Lemma deref_store_same : forall h l v s,
  deref h l = Some s -> deref (store h l v) l = Some v.
Proof.
  unfold deref. induction h as [|x t IH]; intros [|l] v s H; simpl in *;
    try discriminate; eauto.
Qed.

Lemma deref_store_other : forall h l l' v,
  l' <> l -> deref (store h l v) l' = deref h l'.
Proof.
  unfold deref. induction h as [|x t IH]; intros [|l] [|l'] v H; simpl in *;
    try reflexivity; try congruence. apply IH. congruence.
Qed.

Lemma deref_alloc_old : forall h v l s,
  deref h l = Some s -> deref (snd (alloc h v)) l = Some s.
Proof.
  unfold deref, alloc. simpl. intros h v l s H.
  rewrite nth_error_app1; [exact H|]. apply nth_error_Some. congruence.
Qed.

Lemma deref_alloc_new : forall h v,
  deref (snd (alloc h v)) (fst (alloc h v)) = Some v.
Proof.
  unfold deref, alloc. simpl. intros h v.
  rewrite nth_error_app2 by lia. rewrite Nat.sub_diag. reflexivity.
Qed.

Lemma ownersOk_empty : forall k h, ownersOk (emptySpace k, h).
Proof. intros k h mo os []. Qed.

Lemma ownersOk_applyOp : forall o st st',
  ownersOk st -> applyOp o st = Some st' ->
  ownersOk st' /\ cowKey (fst st') = cowKey (fst st).
Proof.
  intros o [sp h] st' Hinv Hrun.
  destruct o as [mo os|mo|mo os]; unfold applyOp in Hrun.
  - unfold bindObject in Hrun.
    destruct (deref h os) as [s0|] eqn:Hd; [|discriminate].
    destruct (copyOnWriteOwner s0 =? 0); [|discriminate].
    injection Hrun as <-. split; [|reflexivity].
    intros mo' os' Hin. simpl in *. apply in_replace in Hin.
    destruct (Nat.eq_dec os' os) as [->|Hne].
    + exists (setOwner s0 (cowKey sp)). split; [|right; reflexivity].
      eapply deref_store_same; eauto.
    + destruct Hin as [Heq|[Hin _]]; [congruence|].
      destruct (Hinv mo' os' Hin) as [s1 [H1 H2]]. exists s1.
      split; [|exact H2]. simpl in *. rewrite deref_store_other; assumption.
  - injection Hrun as <-. split; [|reflexivity].
    intros mo' os' Hin. simpl in *. apply in_remove in Hin.
    destruct Hin as [Hin _]. exact (Hinv mo' os' Hin).
  - unfold getWriteable in Hrun.
    destruct (deref h os) as [s0|] eqn:Hd; [|discriminate].
    destruct (readOnly s0); [discriminate|].
    destruct (cowKey sp =? copyOnWriteOwner s0).
    + injection Hrun as <-. split; [exact Hinv|reflexivity].
    + pose proof (deref_alloc_new h (setOwner s0 (cowKey sp))) as Hnew.
      pose proof (deref_alloc_old h (setOwner s0 (cowKey sp))) as Hold.
      destruct (alloc h (setOwner s0 (cowKey sp))) as [l h'] eqn:Ha.
      injection Hrun as <-. split; [|reflexivity]. simpl in *.
      intros mo' os' Hin. simpl in *. apply in_replace in Hin.
      destruct Hin as [Heq|[Hin _]].
      * injection Heq as -> ->. exists (setOwner s0 (cowKey sp)).
        split; [exact Hnew|right; reflexivity].
      * destruct (Hinv mo' os' Hin) as [s1 [H1 H2]]. exists s1.
        split; [|exact H2]. apply Hold. exact H1.
Qed.

Lemma ownersOk_applyOps : forall ops st st',
  ownersOk st -> applyOps ops st = Some st' ->
  ownersOk st' /\ cowKey (fst st') = cowKey (fst st).
Proof.
  induction ops as [|o rest IH]; intros st st' Hinv Hrun; simpl in Hrun.
  - injection Hrun as <-. split; [exact Hinv|reflexivity].
  - destruct (applyOp o st) as [st1|] eqn:Ho; [|discriminate].
    destruct (ownersOk_applyOp _ _ _ Hinv Ho) as [H1 H2].
    destruct (IH _ _ H1 Hrun) as [H3 H4]. split; [exact H3|congruence].
Qed.

(** C7: after every sequence of [bindObject], [unbindObject] and
    [getWriteable] whose assertions hold (a fresh state for [bindObject], a
    state that is not read-only for [getWriteable]), every object state
    reachable from the address space has [copyOnWriteOwner] equal to 0 or to
    the [cowKey] of the address space, and the key has not changed: the
    property is kept by every such sequence, and it holds after every such
    sequence applied to a newly created address space. *)
Theorem owners_preserved :
  (forall ops st st',
     ownersOk st -> applyOps ops st = Some st' ->
     ownersOk st' /\ cowKey (fst st') = cowKey (fst st))
  /\ (forall ops k h st',
        applyOps ops (emptySpace k, h) = Some st' ->
        ownersOk st' /\ cowKey (fst st') = k).
Proof.
  split; [exact ownersOk_applyOps|].
  intros ops k h st' Hrun.
  exact (ownersOk_applyOps ops (emptySpace k, h) st' (ownersOk_empty k h) Hrun).
Qed.

Lemma owners_preserved_witness :
  ownersOk (mkAddressSpace 7 [(moS1', 1%nat)] [(1, moS1')],
            [setOwner freshState 7; setOwner freshState 7])
  /\ 7 = 7.
Proof.
  exact (proj2 owners_preserved
           [OpBind moS1 0%nat; OpGetWriteable moS1 0%nat; OpUnbind moS1;
            OpBind moS1' 1%nat]
           7 [freshState; freshState] _ eq_refl).
Defined.

(** C8: [getWriteable] is idempotent.  On a state that is not read-only the
    call succeeds and returns a state owned by the address space; a second
    call on the state it returned returns that same state and changes
    neither the bindings nor the heap. *)
Theorem getWriteable_idempotent : forall sp h mo os s,
  deref h os = Some s -> readOnly s = false ->
  exists os1 st1 s1,
    getWriteable mo os (sp, h) = Some (os1, st1)
    /\ deref (snd st1) os1 = Some s1
    /\ copyOnWriteOwner s1 = cowKey sp
    /\ getWriteable mo os1 st1 = Some (os1, st1).
Proof.
  intros sp h mo os s Hd Hro. unfold getWriteable at 1. rewrite Hd, Hro.
  destruct (cowKey sp =? copyOnWriteOwner s) eqn:Hk.
  - exists os, (sp, h), s. split; [reflexivity|]. split; [exact Hd|].
    split; [symmetry; apply Z.eqb_eq; exact Hk|].
    unfold getWriteable. rewrite Hd, Hro, Hk. reflexivity.
  - pose proof (deref_alloc_new h (setOwner s (cowKey sp))) as Hnew.
    destruct (alloc h (setOwner s (cowKey sp))) as [l h'] eqn:Ha.
    simpl in Hnew. eexists; eexists; exists (setOwner s (cowKey sp)).
    split; [reflexivity|]. split; [exact Hnew|]. split; [reflexivity|].
    unfold getWriteable. rewrite Hnew. simpl. rewrite Hro, Z.eqb_refl.
    reflexivity.
Qed.

Lemma getWriteable_idempotent_witness :
  exists os1 st1 s1,
    getWriteable moS1 0%nat
      (mkAddressSpace 9 [(moS1, 0%nat)] [(1, moS1)], [setOwner freshState 7])
    = Some (os1, st1)
    /\ deref (snd st1) os1 = Some s1
    /\ copyOnWriteOwner s1 = 9
    /\ getWriteable moS1 os1 st1 = Some (os1, st1).
Proof.
  exact (getWriteable_idempotent
           (mkAddressSpace 9 [(moS1, 0%nat)] [(1, moS1)])
           [setOwner freshState 7] moS1 0%nat (setOwner freshState 7)
           eq_refl eq_refl).
Defined.

(** ** The constant-address resolver *)

Section FloorFacts.
Context {E : Type}.
Variable key : E -> Z.

Lemma upper_bound_app : forall k (m : list E),
  fst (ImmutableMap.upper_bound key k m) ++ snd (ImmutableMap.upper_bound key k m) = m.
Proof.
  induction m as [|e t IH]; simpl; [reflexivity|].
  destruct (k <? key e); simpl; [reflexivity|].
  destruct (ImmutableMap.upper_bound key k t) as [b a]. simpl in *. congruence.
Qed.

Lemma upper_bound_before : forall k (m : list E) x,
  ImmutableMap.sorted key m ->
  (In x (fst (ImmutableMap.upper_bound key k m)) <-> In x m /\ key x <= k).
Proof.
  induction m as [|e t IH]; simpl; intros x Hs; [tauto|].
  destruct Hs as [Hlt Hs]. destruct (Z.ltb_spec k (key e)) as [H|H]; simpl.
  - split; [tauto|]. intros [[<-|Hx] Hk]; [lia|]. specialize (Hlt x Hx). lia.
  - specialize (IH x Hs).
    destruct (ImmutableMap.upper_bound key k t) as [b a]. simpl in *.
    rewrite IH. split.
    + intros [<-|[H1 H2]]; auto.
    + intros [[<-|H1] H2]; auto.
Qed.

Lemma upper_bound_after : forall k (m : list E) x,
  ImmutableMap.sorted key m ->
  (In x (snd (ImmutableMap.upper_bound key k m)) <-> In x m /\ k < key x).
Proof.
  induction m as [|e t IH]; simpl; intros x Hs; [tauto|].
  destruct Hs as [Hlt Hs]. destruct (Z.ltb_spec k (key e)) as [H|H]; simpl.
  - split; [|tauto]. intros [<-|Hx]; [auto|]. specialize (Hlt x Hx).
    split; [auto|lia].
  - specialize (IH x Hs).
    destruct (ImmutableMap.upper_bound key k t) as [b a]. simpl in *.
    rewrite IH. split; [tauto|]. intros [[<-|H1] H2]; [lia|auto].
Qed.

Lemma sorted_app_lt : forall (l1 l2 : list E) x y,
  ImmutableMap.sorted key (l1 ++ l2) -> In x l1 -> In y l2 -> key x < key y.
Proof.
  induction l1 as [|e t IH]; simpl; intros l2 x y Hs Hx Hy; [contradiction|].
  destruct Hs as [Hlt Hs]. destruct Hx as [<-|Hx].
  - apply Hlt. apply in_or_app. auto.
  - eapply IH; eauto.
Qed.

Lemma sorted_snoc_max : forall (l : list E) e x,
  ImmutableMap.sorted key (l ++ [e]) -> In x (l ++ [e]) -> key x <= key e.
Proof.
  intros l e x Hs Hx. apply in_app_or in Hx. destruct Hx as [Hx|[<-|[]]]; [|lia].
  assert (key x < key e).
  { apply (sorted_app_lt l [e] x e Hs Hx). simpl. auto. }
  lia.
Qed.

Lemma sorted_app_l : forall (l1 l2 : list E),
  ImmutableMap.sorted key (l1 ++ l2) -> ImmutableMap.sorted key l1.
Proof.
  induction l1 as [|e t IH]; simpl; intros l2 Hs; [exact I|].
  destruct Hs as [Hlt Hs]. split; [|eauto].
  intros x Hx. apply Hlt. apply in_or_app. auto.
Qed.

(** On a well-formed map [lookup_previous] is the floor entry. *)
Lemma lookup_previous_floor : forall k (m : list E) e,
  ImmutableMap.sorted key m ->
  (ImmutableMap.lookup_previous key k m = Some e <->
   In e m /\ key e <= k /\ forall x, In x m -> key x <= k -> key x <= key e).
Proof.
  intros k m e Hs. unfold ImmutableMap.lookup_previous.
  pose proof (upper_bound_before k m) as Hb.
  pose proof (upper_bound_app k m) as Happ.
  destruct (ImmutableMap.upper_bound key k m) as [b a]. simpl in *.
  assert (Hsb : ImmutableMap.sorted key b)
    by (apply (sorted_app_l b a); rewrite Happ; exact Hs).
  destruct (rev b) as [|l r] eqn:Hr.
  - assert (b = []) by (rewrite <- (rev_involutive b), Hr; reflexivity). subst b.
    split; [discriminate|]. intros [H1 [H2 _]].
    destruct (proj2 (Hb e Hs) (conj H1 H2)).
  - assert (Hbl : b = rev r ++ [l])
      by (rewrite <- (rev_involutive b), Hr; reflexivity).
    split.
    + intros [= <-]. assert (Hl : In l b) by (rewrite Hbl; apply in_or_app; simpl; auto).
      apply (Hb l Hs) in Hl. destruct Hl as [H1 H2]. repeat split; auto.
      intros x Hx Hk. assert (Hxb : In x b) by (apply (Hb x Hs); auto).
      rewrite Hbl in Hxb, Hsb. eapply sorted_snoc_max; eauto.
    + intros [H1 [H2 H3]]. f_equal.
      assert (Heb : In e b) by (apply (Hb e Hs); auto).
      assert (Hl : In l b) by (rewrite Hbl; apply in_or_app; simpl; auto).
      pose proof (proj1 (Hb l Hs) Hl) as [Hl1 Hl2].
      assert (key l <= key e) by auto.
      assert (key e <= key l)
        by (rewrite Hbl in Heb, Hsb; eapply sorted_snoc_max; eauto).
      eapply sorted_key_inj; eauto. lia.
Qed.
End FloorFacts.

(** [resolveConstantAddress] returns only where its casts succeed: the
    segment is a constant, and so is the address of a flat pointer. *)
Lemma resolveConstantAddress_casts : forall sp p,
  resolveConstantAddress sp p <> None ->
  isConstantExpr (getSegment p) = true
  /\ (getZExtValue (getSegment p) = 0 -> isConstantExpr (getValue p) = true).
Proof.
  intros sp p H. unfold resolveConstantAddress in H.
  destruct (isConstantExpr (getSegment p)); [|destruct (H eq_refl)].
  split; [reflexivity|]. intros Hz. rewrite Hz in H.
  change (negb (0 =? 0)) with false in H. cbn [negb] in H. cbv iota in H.
  destruct (isConstantExpr (getValue p)); [reflexivity|destruct (H eq_refl)].
Qed.

Lemma resolveConstantAddress_flat_constant : forall sp p,
  getZExtValue (getSegment p) = 0 ->
  resolveConstantAddress sp p <> None -> isConstant p = true.
Proof.
  intros sp p Hz H. destruct (resolveConstantAddress_casts sp p H) as [Hc Hv].
  unfold isConstant. rewrite Hc, (Hv Hz). reflexivity.
Qed.

(** What [resolveConstantAddress] computes on a constant flat pointer: the
    floor object, provided its size is concrete and the test on the size
    narrowed to [unsigned] succeeds. *)
Lemma resolveConstantAddress_flat : forall sp p res,
  isConstant p = true ->
  getZExtValue (getSegment p) = 0 ->
  (resolveConstantAddress sp p = Some (Some res)
   <-> ImmutableMap.lookup_previous moKey (getZExtValue (getValue p)) (objects sp)
       = Some res
       /\ exists v, size (fst res) = ConstantExpr v
          /\ ((wrap32 (wrap64 v) = 0 /\ getZExtValue (getValue p) = address (fst res))
              \/ wrap64 (getZExtValue (getValue p) - address (fst res))
                 < wrap32 (wrap64 v))).
Proof.
  intros sp p res Hk Hz. unfold isConstant in Hk.
  apply andb_true_iff in Hk. destruct Hk as [Hks Hkv].
  unfold resolveConstantAddress. rewrite Hks, Hkv, Hz.
  change (negb (0 =? 0)) with false. cbn [negb]. cbv iota.
  destruct (ImmutableMap.lookup_previous moKey (getZExtValue (getValue p)) (objects sp))
    as [r|].
  - destruct (size (fst r)) as [v| | | | | |] eqn:Hsz;
      try (split; [discriminate|intros [[= <-] [v' [Hv' _]]]; congruence]).
    cbn [getZExtValue].
    match goal with |- context [if ?c then _ else _] => destruct c eqn:Hc end.
    + apply orb_true_iff in Hc. rewrite andb_true_iff, Z.eqb_eq, Z.eqb_eq, Z.ltb_lt in Hc.
      split.
      * intros [= <-]. split; [reflexivity|]. exists v. split; [exact Hsz|exact Hc].
      * intros [[= <-] _]. reflexivity.
    + split; [discriminate|]. intros [[= <-] [v' [Hv' Hc']]].
      rewrite Hsz in Hv'. injection Hv' as <-.
      rewrite <- Z.eqb_eq, <- (Z.eqb_eq (getZExtValue (getValue p))),
        <- andb_true_iff, <- Z.ltb_lt, <- orb_true_iff in Hc'. congruence.
  - split; [discriminate|]. intros [H _]. discriminate.
Qed.

(** A constant flat pointer never crashes the resolver. *)
Lemma resolveConstantAddress_flat_total : forall sp p,
  isConstant p = true ->
  getZExtValue (getSegment p) = 0 -> resolveConstantAddress sp p <> None.
Proof.
  intros sp p Hk Hz. unfold isConstant in Hk.
  apply andb_true_iff in Hk. destruct Hk as [Hc Hv].
  unfold resolveConstantAddress. rewrite Hc, Hv, Hz.
  change (negb (0 =? 0)) with false. cbn [negb]. cbv iota.
  destruct (ImmutableMap.lookup_previous moKey (getZExtValue (getValue p)) (objects sp))
    as [r|]; [|discriminate].
  destruct (size (fst r)); try discriminate.
  destruct (_ || _); discriminate.
Qed.

Lemma wrap64_range_pos : forall z, 0 <= wrap64 z.
Proof. intros z. unfold wrap64. apply Z.mod_pos_bound. lia. Qed.

Lemma wrap32_small : forall z, 0 <= z < 2 ^ 32 -> wrap32 z = z.
Proof. intros z H. unfold wrap32. apply Z.mod_small. exact H. Qed.

(** For objects below 4 GiB the test is the one of the specification: the
    floor object matches when its size is concrete and either it is empty
    and the address is its base, or the address lies less than [size] above
    the base in unsigned 64-bit arithmetic. *)
Lemma resolveConstantAddress_small_objects : forall sp a res,
  (forall mo os v, In (mo, os) (objects sp) -> size mo = ConstantExpr v ->
                   wrap64 v < 2 ^ 32) ->
  ImmutableMap.sorted moKey (objects sp) ->
  (resolveConstantAddress sp (mkKValue (ConstantExpr 0) (ConstantExpr a)) = Some (Some res)
   <-> (In res (objects sp) /\ address (fst res) <= wrap64 a
        /\ forall x, In x (objects sp) -> address (fst x) <= wrap64 a ->
                     address (fst x) <= address (fst res))
       /\ exists v, size (fst res) = ConstantExpr v
          /\ ((wrap64 v = 0 /\ wrap64 a = address (fst res))
              \/ wrap64 (wrap64 a - address (fst res)) < wrap64 v)).
Proof.
  intros sp a res Hsmall Hs. rewrite resolveConstantAddress_flat by reflexivity.
  cbn [getValue getZExtValue].
  rewrite (lookup_previous_floor moKey (wrap64 a) (objects sp) res Hs).
  unfold moKey.
  assert (Hrange : forall v, 0 <= wrap64 v)
    by (intros v; unfold wrap64; apply Z.mod_pos_bound; lia).
  split; intros [Hf [v [Hv Hc]]]; (split; [exact Hf|]); exists v; (split; [exact Hv|]);
    destruct Hf as [Hin _]; destruct res as [mo os]; simpl in *;
    pose proof (Hsmall mo os v Hin Hv) as Hlt; specialize (Hrange v);
    rewrite wrap32_small in * by lia; exact Hc.
Qed.

(** The consequences the specification draws hold of the code: an empty
    object is matched only at its base, an address below every base matches
    nothing, and a floor object of symbolic size yields no result. *)
Lemma resolveConstantAddress_empty_object : forall sp p res v,
  getZExtValue (getSegment p) = 0 ->
  size (fst res) = ConstantExpr v -> wrap64 v = 0 ->
  resolveConstantAddress sp p = Some (Some res) ->
  getZExtValue (getValue p) = address (fst res).
Proof.
  intros sp p res v Hz Hsz Hv Hrun.
  assert (Hk : isConstant p = true)
    by (apply (resolveConstantAddress_flat_constant sp p Hz); congruence).
  apply (resolveConstantAddress_flat sp p res Hk Hz) in Hrun.
  destruct Hrun as [_ [v' [Hsz' Hc]]]. rewrite Hsz in Hsz'. injection Hsz' as <-.
  rewrite Hv in Hc. change (wrap32 0) with 0 in Hc.
  pose proof (wrap64_range_pos (getZExtValue (getValue p) - address (fst res))).
  destruct Hc as [[_ Ha]|Hlt]; [exact Ha|lia].
Qed.

Lemma resolveConstantAddress_below_all : forall sp p,
  isConstant p = true ->
  getZExtValue (getSegment p) = 0 ->
  ImmutableMap.sorted moKey (objects sp) ->
  (forall x, In x (objects sp) -> getZExtValue (getValue p) < address (fst x)) ->
  resolveConstantAddress sp p = Some None.
Proof.
  intros sp p Hk Hz Hs Hlow.
  pose proof (resolveConstantAddress_flat_total sp p Hk Hz) as Htot.
  destruct (resolveConstantAddress sp p) as [[res|]|] eqn:Hrun;
    [|reflexivity|contradiction].
  apply (resolveConstantAddress_flat sp p res Hk Hz) in Hrun. destruct Hrun as [Hf _].
  apply (lookup_previous_floor moKey _ _ _ Hs) in Hf. destruct Hf as [Hin [Hle _]].
  specialize (Hlow res Hin). unfold moKey in Hle. lia.
Qed.

Lemma resolveConstantAddress_symbolic_size : forall sp p res,
  getZExtValue (getSegment p) = 0 ->
  resolveConstantAddress sp p = Some (Some res) ->
  isConstantExpr (size (fst res)) = true.
Proof.
  intros sp p res Hz Hrun.
  assert (Hk : isConstant p = true)
    by (apply (resolveConstantAddress_flat_constant sp p Hz); congruence).
  apply (resolveConstantAddress_flat sp p res Hk Hz) in Hrun.
  destruct Hrun as [_ [v [-> _]]]. reflexivity.
Qed.

(** The scenarios of the specification on constant flat pointers. *)
Lemma constant_scenarios :
  resolveConstantAddress twoSpace (mkKValue (ConstantExpr 0) (ConstantExpr 4100))
  = Some (Some (moA, 0%nat))
  /\ resolveConstantAddress twoSpace (mkKValue (ConstantExpr 0) (ConstantExpr 6144))
     = Some None
  /\ resolveConstantAddress (mkAddressSpace 7 [(moZ, 0%nat)] [])
       (mkKValue (ConstantExpr 0) (ConstantExpr 12288)) = Some (Some (moZ, 0%nat))
  /\ resolveConstantAddress (mkAddressSpace 7 [(moZ, 0%nat)] [])
       (mkKValue (ConstantExpr 0) (ConstantExpr 12289)) = Some None.
Proof. repeat split. Qed.

(** C3: [resolveConstantAddress] narrows the size of the floor object to
    [unsigned] before the test.  An object of 4 GiB at 4096 is the floor
    object of the address 4100, its size is concrete and
    4100 - 4096 < 2^32, yet the narrowed size is 0 and nothing is returned;
    the fast path of [resolveOne], which compares with the full size,
    commits to the object at the same address. *)
Theorem resolveConstantAddress_narrows_size :
  ImmutableMap.lookup_previous moKey 4100 (objects bigSpace) = Some (moBig, 0%nat)
  /\ size moBig = ConstantExpr (2 ^ 32)
  /\ wrap64 (4100 - address moBig) < getZExtValue (size moBig)
  /\ resolveConstantAddress bigSpace (mkKValue (ConstantExpr 0) (ConstantExpr 4100))
     = Some None
  /\ cheapSearch bigSpace 4100 = Some (moBig, 0%nat).
Proof. repeat split. Qed.

(** ** [resolveOne] *)

(** C1: on the path of a non-zero segment [resolveOne] returns what
    [resolveConstantAddress] returns and never writes [success].  With a
    segment that names no object it returns false although no solver call
    failed (none was made for a constant segment, one succeeded for a
    symbolic one); with a segment that names an object it returns true and
    leaves [success] as the caller passed it. *)
Theorem resolveOne_nonzero_segment :
  resolveOne (modelSolver [constModel 0]) segmentedSpace strayPointer initialWorld
  = Some ((false, None, None), initialWorld)
  /\ (exists w,
        resolveOne (modelSolver [constModel 5]) segmentedSpace symbolicPointer initialWorld
        = Some ((false, None, None), w)
        /\ solverFailed w = false)
  /\ resolveOne (modelSolver [constModel 0]) segmentedSpace segmentOnePointer initialWorld
     = Some ((true, Some (moS1, 0%nat), None), initialWorld).
Proof.
  split; [reflexivity|split; [|reflexivity]].
  eexists. split; reflexivity.
Qed.

(** ** Traces *)

Lemma solverFailed_log : forall ev w,
  solverFailed (logEvent ev w) = failedQuery ev || solverFailed w.
Proof. reflexivity. Qed.

Lemma timeoutExceeded_log : forall t ev w,
  timeoutExceeded t (logEvent ev w) = expiredReading t ev || timeoutExceeded t w.
Proof. reflexivity. Qed.

(** The timeout test reads the clock at most once; it fails no query, and it
    answers true exactly when the reading it logged exceeds the budget. *)
Lemma timedOut_spec : forall clock t w,
  exists b w1,
    timedOut clock t w = Some (b, w1)
    /\ solverFailed w1 = solverFailed w
    /\ timeoutExceeded t w1 = b || timeoutExceeded t w.
Proof.
  intros clock t w. unfold timedOut.
  destruct (Z.eqb_spec t 0) as [Hz|Hnz].
  - exists false, w. repeat split.
  - exists (t <? clock (ticks w)),
      (mkWorld (EvDelta (clock (ticks w)) :: trace w) (S (ticks w))).
    repeat split. unfold timeoutExceeded. simpl.
    destruct (Z.eqb_spec t 0); [contradiction|reflexivity].
Qed.

(** ** [checkPointerInObject] *)

Lemma belowCap_one : forall maxResolutions rl,
  length rl = 1%nat -> belowCap maxResolutions rl.
Proof. intros maxResolutions rl H H1. lia. Qed.



Lemma checkPointerInObject_spec : forall S p op rl maxResolutions t w,
  exists r rl' w',
    checkPointerInObject S p op rl maxResolutions w = Some ((r, rl'), w')
    /\ timeoutExceeded t w' = timeoutExceeded t w
    /\ (r = 0 \/ r = 1 \/ r = 2)
    /\ (rl' = rl /\ TimingSolver.mayBeTrue S (getBoundsCheckPointer (fst op) p) <> Some true
        \/ rl' = rl ++ [op]
           /\ TimingSolver.mayBeTrue S (getBoundsCheckPointer (fst op) p) = Some true)
    /\ (r = 0 -> rl = [] /\ rl' = [op]
                 /\ TimingSolver.mustBeTrue S (getBoundsCheckPointer (fst op) p) = Some true
                 /\ solverFailed w' = solverFailed w)
    /\ (r = 1 -> solverFailed w' = true
                 \/ (capReached maxResolutions rl' /\ solverFailed w' = solverFailed w))
    /\ (r = 2 -> solverFailed w' = solverFailed w
                 /\ (belowCap maxResolutions rl -> belowCap maxResolutions rl')
                 /\ (rl' = rl ->
                     TimingSolver.mayBeTrue S (getBoundsCheckPointer (fst op) p) = Some false)).
Proof.
  intros S p op rl maxResolutions t w.
  unfold checkPointerInObject, bind, solverMayBeTrue, solverMustBeTrue, ret.
  destruct (TimingSolver.mayBeTrue S (getBoundsCheckPointer (fst op) p)) as [[|]|] eqn:Hmay.
  - (* may be true: the object is appended *)
    destruct (Nat.eqb_spec (length (rl ++ [op])) 1) as [Hone|Hmore].
    + assert (Hnil : rl = []).
      { destruct rl; [reflexivity|]. simpl in Hone. rewrite length_app in Hone.
        simpl in Hone. lia. }
      subst rl.
      destruct (TimingSolver.mustBeTrue S (getBoundsCheckPointer (fst op) p)) as [[|]|] eqn:Hmust;
        do 3 eexists; (split; [reflexivity|]); simpl;
        repeat split; auto; try discriminate; try congruence;
        intros; try (apply belowCap_one; reflexivity).
    + destruct (Nat.eqb_spec (length (rl ++ [op])) maxResolutions) as [Hcap|Hno];
        do 3 eexists; (split; [reflexivity|]); simpl;
        repeat split; auto; try discriminate; try congruence.
      * intros _. right. split; [|reflexivity]. split; [|exact Hcap].
        rewrite <- Hcap. rewrite length_app in *. simpl in *. lia.
      * intros Hb Hm. specialize (Hb Hm). rewrite length_app in *. simpl in *. lia.
      * intros Heq. exfalso. apply (f_equal (@length _)) in Heq.
        rewrite length_app in Heq. simpl in Heq. lia.
  - do 3 eexists. split; [reflexivity|]. simpl.
    repeat split; auto; try discriminate; try congruence.
    left. split; [reflexivity|discriminate].
  - do 3 eexists. split; [reflexivity|]. simpl.
    repeat split; auto; try discriminate; try congruence.
    left. split; [reflexivity|discriminate].
Qed.

(** C9: with [maxResolutions == 1] the cap is never what makes
    [checkPointerInObject] report incomplete (it returns 1 only when a
    solver call failed); a first candidate that may but need not contain the
    pointer makes it return 2, whatever the cap; and
    [resolveConstantSegment] with a cap of 1 goes on to the next object,
    appends it too and returns complete. *)
Theorem cap_of_one_is_not_enforced :
  (forall S p op rl w r rl' w',
     checkPointerInObject S p op rl 1 w = Some ((r, rl'), w') ->
     r = 1 -> solverFailed w' = true)
  /\ (forall S p op maxResolutions w,
        TimingSolver.mayBeTrue S (getBoundsCheckPointer (fst op) p) = Some true ->
        TimingSolver.mustBeTrue S (getBoundsCheckPointer (fst op) p) = Some false ->
        exists w',
          checkPointerInObject S p op [] maxResolutions w = Some ((2, [op]), w')
          /\ solverFailed w' = solverFailed w)
  /\ (exists w,
        resolveConstantSegment (modelSolver twoModels) stoppedClock twoSpace
          symbolicOffset [] 1 0 initialWorld
        = Some ((false, [(moA, 0%nat); (moB, 1%nat)]), w)
        /\ solverFailed w = false /\ timeoutExceeded 0 w = false).
Proof.
  split; [|split].
  - intros S p op rl w r rl' w' Hrun Hr.
    destruct (checkPointerInObject_spec S p op rl 1 0 w)
      as [r0 [rl0 [w0 [Hrun0 [_ [_ [Happ [_ [H1 _]]]]]]]]].
    rewrite Hrun in Hrun0. injection Hrun0 as <- <- <-.
    destruct (H1 Hr) as [Hf|[[Hcap _] _]]; [exact Hf|lia].
  - intros S p op maxResolutions w Hmay Hmust.
    unfold checkPointerInObject, bind, solverMayBeTrue, solverMustBeTrue, ret.
    rewrite Hmay. simpl. rewrite Hmust. eexists. split; reflexivity.
  - eexists. split; [vm_compute; reflexivity|split; reflexivity].
Qed.

Lemma cap_of_one_is_not_enforced_witness :
  solverFailed (logEvent (EvMayBeTrue (getBoundsCheckPointer moA symbolicOffset) None)
                         initialWorld) = true
  /\ exists w',
       checkPointerInObject (modelSolver twoModels) symbolicOffset (moA, 0%nat) [] 1
         initialWorld = Some ((2, [(moA, 0%nat)]), w')
       /\ solverFailed w' = solverFailed initialWorld.
Proof.
  split.
  - exact (proj1 cap_of_one_is_not_enforced failingSolver symbolicOffset
             (moA, 0%nat) [] initialWorld 1 [] _ eq_refl eq_refl).
  - exact (proj1 (proj2 cap_of_one_is_not_enforced) (modelSolver twoModels)
             symbolicOffset (moA, 0%nat) 1%nat initialWorld eq_refl eq_refl).
Defined.

(** ** The loop of [resolve] over the segment map *)

Lemma timedOuneverExpires : forall clock t w,
  t = 0 \/ (forall n, clock n <= t) ->
  exists w1,
    timedOut clock t w = Some (false, w1)
    /\ solverFailed w1 = solverFailed w
    /\ timeoutExceeded t w1 = timeoutExceeded t w.
Proof.
  intros clock t w Hq. unfold timedOut.
  destruct (Z.eqb_spec t 0) as [Hz|Hnz].
  - exists w. repeat split.
  - destruct Hq as [Hq|Hq]; [contradiction|].
    unfold bind, timerDelta, ret. specialize (Hq (ticks w)).
    destruct (Z.ltb_spec t (clock (ticks w))) as [Hlt|Hge]; [lia|].
    eexists. split; [reflexivity|]. split; [reflexivity|].
    unfold timeoutExceeded. simpl.
    destruct (Z.ltb_spec t (clock (ticks w))) as [Hlt|_]; [lia|].
    rewrite andb_false_r. reflexivity.
Qed.

Lemma resolveSegments_appends_matches : forall S clock sp p timeout l rl w,
  neverExpires clock timeout ->
  (forall res, In res l ->
     TimingSolver.mayBeTrue S (EqExpr (getSegment p) (ConstantExpr (fst res))) <> None) ->
  segmentsBound sp l ->
  exists w',
    resolveSegments S clock sp p timeout l rl w
    = Some ((false, rl ++ segmentMatches S sp p l), w')
    /\ solverFailed w' = solverFailed w
    /\ timeoutExceeded timeout w' = timeoutExceeded timeout w.
Proof.
  intros S clock sp p timeout. induction l as [|res rest IH]; intros rl w Hq Hans Hb.
  - exists w. simpl. rewrite app_nil_r. repeat split.
  - simpl. unfold bind at 1.
    destruct (timedOuneverExpires clock timeout w Hq) as [w1 [Ht [Hf1 Ht1]]].
    rewrite Ht. unfold bind, solverMayBeTrue.
    destruct (Hb res (or_introl eq_refl)) as [objpair Hl].
    assert (Hrest : forall r, In r rest ->
              TimingSolver.mayBeTrue S (EqExpr (getSegment p) (ConstantExpr (fst r))) <> None)
      by (intros; apply Hans; right; assumption).
    assert (Hbrest : segmentsBound sp rest)
      by (intros r Hr; apply Hb; right; assumption).
    destruct (TimingSolver.mayBeTrue S (EqExpr (getSegment p) (ConstantExpr (fst res))))
      as [[|]|] eqn:Hmay.
    + rewrite Hl.
      destruct (IH (rl ++ [objpair])
                  (logEvent (EvMayBeTrue (EqExpr (getSegment p) (ConstantExpr (fst res)))
                                         (Some true)) w1) Hq Hrest Hbrest)
        as [w' [Hrun [Hf Hto]]].
      exists w'. rewrite Hrun, <- app_assoc. simpl. repeat split.
      * rewrite Hf. simpl. exact Hf1.
      * rewrite Hto. simpl. exact Ht1.
    + destruct (IH rl
                  (logEvent (EvMayBeTrue (EqExpr (getSegment p) (ConstantExpr (fst res)))
                                         (Some false)) w1) Hq Hrest Hbrest)
        as [w' [Hrun [Hf Hto]]].
      exists w'. rewrite Hrun. repeat split.
      * rewrite Hf. simpl. exact Hf1.
      * rewrite Hto. simpl. exact Ht1.
    + exfalso. apply (Hans res (or_introl eq_refl)). exact Hmay.
Qed.

Lemma length_segmentMatches : forall S sp p l,
  (forall res, In res l ->
     TimingSolver.mayBeTrue S (EqExpr (getSegment p) (ConstantExpr (fst res))) = Some true) ->
  segmentsBound sp l ->
  length (segmentMatches S sp p l) = length l.
Proof.
  intros S sp p. induction l as [|res rest IH]; intros Hans Hb; [reflexivity|].
  simpl. rewrite (Hans res (or_introl eq_refl)).
  destruct (Hb res (or_introl eq_refl)) as [objpair ->]. simpl. f_equal.
  apply IH.
  - intros; apply Hans; right; assumption.
  - intros r Hr; apply Hb; right; assumption.
Qed.

Lemma wrap64_small : forall z, 0 <= z < 2 ^ 64 -> wrap64 z = z.
Proof. intros z H. unfold wrap64. apply Z.mod_small. exact H. Qed.

Lemma segment_zero_unsat : forall n,
  Z.of_nat n < 2 ^ 64 ->
  TimingSolver.mayBeTrue (modelSolver (segmentModels n))
    (createIsZero (getSegment anySegmentPointer)) = Some false.
Proof.
  intros n Hn. simpl. f_equal.
  destruct (existsb _ (segmentModels n)) eqn:He; [|reflexivity].
  apply existsb_exists in He. destruct He as [m [Hin Hm]].
  unfold segmentModels in Hin. apply in_map_iff in Hin.
  destruct Hin as [i [<- Hi]]. apply in_seq in Hi.
  unfold holdsb, constModel in Hm. simpl in Hm.
  rewrite (wrap64_small (Z.of_nat i)) in Hm by lia.
  rewrite (wrap64_small 0) in Hm by lia.
  destruct (Z.eqb_spec (Z.of_nat i) 0); [lia|discriminate].
Qed.

Lemma segment_sat : forall n i,
  In i (seq 1 n) ->
  TimingSolver.mayBeTrue (modelSolver (segmentModels n))
    (EqExpr (getSegment anySegmentPointer) (ConstantExpr (Z.of_nat i))) = Some true.
Proof.
  intros n i Hi. simpl. f_equal. apply existsb_exists.
  exists (constModel (Z.of_nat i)). split.
  - unfold segmentModels. apply in_map_iff. exists i. split; [reflexivity|exact Hi].
  - unfold holdsb, constModel. simpl. rewrite Z.eqb_refl. reflexivity.
Qed.

Lemma lookup_segObject : forall len a i,
  In i (seq a len) ->
  ImmutableMap.lookup moKey (address (segObject i))
    (map (fun j => (segObject j, j)) (seq a len)) = Some (segObject i, i).
Proof.
  induction len as [|len IH]; intros a i Hi; [contradiction|].
  change (seq a (S len)) with (a :: seq (S a) len) in *.
  cbn [map ImmutableMap.lookup].
  change (moKey (segObject a, a)) with (4096 * Z.of_nat a).
  change (address (segObject i)) with (4096 * Z.of_nat i) in *.
  destruct (Z.eqb_spec (4096 * Z.of_nat a) (4096 * Z.of_nat i)) as [Heq|Hne].
  - assert (a = i) by lia. subst. reflexivity.
  - destruct Hi as [->|Hi]; [contradiction|]. apply IH. exact Hi.
Qed.

Lemma segmentMap_segmentsSpace : forall n,
  segmentMap (segmentsSpace n) = map (fun i => (Z.of_nat i, segObject i)) (seq 1 n).
Proof. reflexivity. Qed.

(** C10: the loop of [resolve] over the segment map appends one entry for
    every segment that may equal the pointer's and never consults
    [maxResolutions]; so for every cap [n] other than 0 there is an address
    space (with [n + 1] segments the pointer may name) on which [resolve]
    returns complete with more than [n] entries. *)
Theorem segment_loop_ignores_cap :
  (forall S clock sp p timeout l rl w,
     neverExpires clock timeout ->
     (forall res, In res l ->
        TimingSolver.mayBeTrue S (EqExpr (getSegment p) (ConstantExpr (fst res))) <> None) ->
     segmentsBound sp l ->
     exists w',
       resolveSegments S clock sp p timeout l rl w
       = Some ((false, rl ++ segmentMatches S sp p l), w')
       /\ solverFailed w' = solverFailed w
       /\ timeoutExceeded timeout w' = timeoutExceeded timeout w)
  /\ (forall n, n <> 0%nat -> Z.of_nat n < 2 ^ 32 ->
        exists rl w,
          resolve (modelSolver (segmentModels (S n))) stoppedClock
            (segmentsSpace (S n)) anySegmentPointer [] n 0 initialWorld
          = Some ((false, rl), w)
          /\ (n < length rl)%nat
          /\ solverFailed w = false /\ timeoutExceeded 0 w = false).
Proof.
  split; [exact resolveSegments_appends_matches|].
  intros n Hn Hsmall.
  assert (Hb : segmentsBound (segmentsSpace (S n)) (segmentMap (segmentsSpace (S n)))).
  { intros res Hin. rewrite segmentMap_segmentsSpace in Hin.
    apply in_map_iff in Hin. destruct Hin as [i [<- Hi]].
    exists (segObject i, i). apply lookup_segObject. exact Hi. }
  assert (Hsat : forall res, In res (segmentMap (segmentsSpace (S n))) ->
            TimingSolver.mayBeTrue (modelSolver (segmentModels (S n)))
              (EqExpr (getSegment anySegmentPointer) (ConstantExpr (fst res))) = Some true).
  { intros res Hin. rewrite segmentMap_segmentsSpace in Hin.
    apply in_map_iff in Hin. destruct Hin as [i [<- Hi]].
    apply segment_sat. exact Hi. }
  destruct (resolveSegments_appends_matches
              (modelSolver (segmentModels (S n))) stoppedClock (segmentsSpace (S n))
              anySegmentPointer 0 (segmentMap (segmentsSpace (S n))) []
              (logEvent (EvMayBeTrue (createIsZero (getSegment anySegmentPointer))
                                     (Some false)) initialWorld))
    as [w' [Hrun [Hf Hto]]].
  - left. reflexivity.
  - intros res Hin. rewrite (Hsat res Hin). discriminate.
  - exact Hb.
  - exists (segmentMatches (modelSolver (segmentModels (S n))) (segmentsSpace (S n))
              anySegmentPointer (segmentMap (segmentsSpace (S n)))), w'.
    split; [|split; [|split]].
    + unfold resolve. change (isConstantExpr (getSegment anySegmentPointer)) with false.
      cbv iota. unfold bind at 1. unfold solverMayBeTrue.
      rewrite (segment_zero_unsat (S n)) by lia.
      unfold bind, ret. exact Hrun.
    + rewrite (length_segmentMatches _ _ _ _ Hsat Hb).
      rewrite segmentMap_segmentsSpace, length_map, length_seq. lia.
    + rewrite Hf. reflexivity.
    + rewrite Hto. reflexivity.
Qed.

Lemma segment_loop_ignores_cap_witness :
  exists rl w,
    resolve (modelSolver (segmentModels 3)) stoppedClock (segmentsSpace 3)
      anySegmentPointer [] 2 0 initialWorld = Some ((false, rl), w)
    /\ (2 < length rl)%nat
    /\ solverFailed w = false /\ timeoutExceeded 0 w = false.
Proof.
  apply (proj2 segment_loop_ignores_cap 2%nat); [discriminate|reflexivity].
Defined.

(** ** The walks of [resolveConstantSegment] *)

Lemma walkOutcome_nothing_added : forall S p maxResolutions t l rl w res w',
  match res with
  | Returned true =>
      solverFailed w' = true \/ timeoutExceeded t w' = true
      \/ capReached maxResolutions rl
  | _ =>
      solverFailed w' = solverFailed w
      /\ timeoutExceeded t w' = timeoutExceeded t w
  end ->
  walkOutcome S p maxResolutions t l rl w res rl w'.
Proof.
  intros S p maxResolutions t l rl w res w' H. split.
  - destruct res as [[|]|]; intuition.
  - exists []. rewrite app_nil_r. split; [reflexivity|]. intros x [].
Qed.

Lemma walkOutcome_step : forall S p maxResolutions t oi rest rl w rl1 w1 res rl' w',
  (rl1 = rl
   \/ rl1 = rl ++ [oi]
      /\ TimingSolver.mayBeTrue S (getBoundsCheckPointer (fst oi) p) = Some true) ->
  solverFailed w1 = solverFailed w ->
  timeoutExceeded t w1 = timeoutExceeded t w ->
  (belowCap maxResolutions rl -> belowCap maxResolutions rl1) ->
  walkOutcome S p maxResolutions t rest rl1 w1 res rl' w' ->
  walkOutcome S p maxResolutions t (oi :: rest) rl w res rl' w'.
Proof.
  intros S p maxResolutions t oi rest rl w rl1 w1 res rl' w' Hrl Hf Ht Hcap [Hflags [added [Heq Hadded]]].
  split.
  - destruct res as [[|]|]; [exact Hflags| |];
      (destruct Hflags as [H1 [H2 H3]]; repeat split; [congruence|congruence|tauto]).
  - destruct Hrl as [->|[-> Hmay]].
    + exists added. split; [exact Heq|]. intros x Hx.
      destruct (Hadded x Hx). split; [right|]; assumption.
    + exists (oi :: added). split; [rewrite Heq, <- app_assoc; reflexivity|].
      intros x [<-|Hx]; [split; [left; reflexivity|exact Hmay]|].
      destruct (Hadded x Hx). split; [right|]; assumption.
Qed.

Ltac flags :=
  rewrite ?solverFailed_log, ?timeoutExceeded_log;
  cbn [failedQuery expiredReading orb]; congruence.

Lemma searchBackward_spec : forall S clock p maxResolutions t l rl w,
  exists res rl' w',
    searchBackward S clock p maxResolutions t l rl w = Some ((res, rl'), w')
    /\ walkOutcome S p maxResolutions t l rl w res rl' w'.
Proof.
  intros S clock p maxResolutions t. induction l as [|oi rest IH]; intros rl w.
  - exists FellThrough, rl, w. split; [reflexivity|].
    apply walkOutcome_nothing_added. split; reflexivity.
  - simpl. unfold bind at 1.
    destruct (timedOut_spec clock t w) as [b [w1 [Hrun [Hf1 Ht1]]]]. rewrite Hrun.
    destruct b.
    { exists (Returned true), rl, w1. split; [reflexivity|].
      apply walkOutcome_nothing_added. right. left. rewrite Ht1. reflexivity. }
    simpl in Ht1. unfold bind at 1.
    destruct (checkPointerInObject_spec S p oi rl maxResolutions t w1)
      as [r [rl1 [w2 [Hc [Ht2 [Hr [Happ [H0 [H1 H2]]]]]]]]].
    rewrite Hc.
    assert (Happ' : rl1 = rl \/ rl1 = rl ++ [oi]
              /\ TimingSolver.mayBeTrue S (getBoundsCheckPointer (fst oi) p) = Some true)
      by (destruct Happ as [[? _]|?]; auto).
    destruct Hr as [-> | [-> | ->]].
    + (* done: the first result must contain the pointer *)
      destruct (H0 eq_refl) as [-> [-> [_ Hf2]]].
      exists (Returned false), [oi], w2. split; [reflexivity|].
      apply (walkOutcome_step S p maxResolutions t oi rest [] w [oi] w2);
        [exact Happ'|congruence|congruence| |].
      * intros _. apply belowCap_one. reflexivity.
      * apply walkOutcome_nothing_added. split; reflexivity.
    + (* incomplete *)
      exists (Returned true), rl1, w2. split; [reflexivity|].
      split.
      * destruct (H1 eq_refl) as [Hf|[Hcap _]]; auto.
      * destruct Happ' as [->|[-> Hmay]].
        -- exists []. rewrite app_nil_r. split; [reflexivity|]. intros x [].
        -- exists [oi]. split; [reflexivity|].
           intros x [<-|[]]. split; [left; reflexivity|exact Hmay].
    + (* go on *)
      destruct (H2 eq_refl) as [Hf2 [Hcap _]].
      change (negb (2 =? 2)) with false. cbv iota.
      unfold bind at 1. unfold solverMustBeTrue.
      destruct (TimingSolver.mustBeTrue S (UgeExpr (getOffset p) (getBaseExpr (fst oi))))
        as [[|]|] eqn:Hmust.
      * eexists FellThrough, rl1, _. split; [reflexivity|].
        eapply walkOutcome_step; [exact Happ'| | |exact Hcap|].
        3: { apply walkOutcome_nothing_added. split; reflexivity. }
        -- flags.
        -- flags.
      * match goal with |- context [searchBackward _ _ _ _ _ rest rl1 ?w3] =>
          destruct (IH rl1 w3) as [res [rl' [w' [Hrec Hout]]]] end.
        exists res, rl', w'. split; [exact Hrec|].
        eapply walkOutcome_step; [exact Happ'| | |exact Hcap|exact Hout].
        -- flags.
        -- flags.
      * eexists (Returned true), rl1, _. split; [reflexivity|].
        split; [left; reflexivity|].
        destruct Happ' as [->|[-> Hmay]].
        -- exists []. rewrite app_nil_r. split; [reflexivity|]. intros x [].
        -- exists [oi]. split; [reflexivity|].
           intros x [<-|[]]. split; [left; reflexivity|exact Hmay].
Qed.

Lemma searchForward_spec : forall S clock p maxResolutions t l rl w,
  exists res rl' w',
    searchForward S clock p maxResolutions t l rl w = Some ((res, rl'), w')
    /\ walkOutcome S p maxResolutions t l rl w res rl' w'.
Proof.
  intros S clock p maxResolutions t. induction l as [|oi rest IH]; intros rl w.
  - exists FellThrough, rl, w. split; [reflexivity|].
    apply walkOutcome_nothing_added. split; reflexivity.
  - simpl. unfold bind at 1.
    destruct (timedOut_spec clock t w) as [b [w1 [Hrun [Hf1 Ht1]]]]. rewrite Hrun.
    destruct b.
    { exists (Returned true), rl, w1. split; [reflexivity|].
      apply walkOutcome_nothing_added. right. left. rewrite Ht1. reflexivity. }
    simpl in Ht1. unfold bind at 1. unfold solverMustBeTrue.
    destruct (TimingSolver.mustBeTrue S (UltExpr (getOffset p) (getBaseExpr (fst oi))))
      as [[|]|] eqn:Hmust.
    + eexists FellThrough, rl, _. split; [reflexivity|].
      apply walkOutcome_nothing_added. split; flags.
    + unfold bind at 1.
      match goal with |- context [checkPointerInObject S p oi rl maxResolutions ?w2] =>
        destruct (checkPointerInObject_spec S p oi rl maxResolutions t w2)
          as [r [rl1 [w3 [Hc [Ht3 [Hr [Happ [H0 [H1 H2]]]]]]]]];
        assert (Hf2 : solverFailed w2 = solverFailed w) by flags;
        assert (Ht2 : timeoutExceeded t w2 = timeoutExceeded t w) by flags
      end.
      rewrite Hc.
      assert (Happ' : rl1 = rl \/ rl1 = rl ++ [oi]
                /\ TimingSolver.mayBeTrue S (getBoundsCheckPointer (fst oi) p) = Some true)
        by (destruct Happ as [[? _]|?]; auto).
      destruct Hr as [-> | [-> | ->]].
      * destruct (H0 eq_refl) as [-> [-> [_ Hf3]]].
        exists (Returned false), [oi], w3. split; [reflexivity|].
        apply (walkOutcome_step S p maxResolutions t oi rest [] w [oi] w3);
          [exact Happ'|congruence|congruence| |].
        -- intros _. apply belowCap_one. reflexivity.
        -- apply walkOutcome_nothing_added. split; reflexivity.
      * exists (Returned true), rl1, w3. split; [reflexivity|].
        split.
        -- destruct (H1 eq_refl) as [Hf|[Hcap _]]; auto.
        -- destruct Happ' as [->|[-> Hmay]].
           ++ exists []. rewrite app_nil_r. split; [reflexivity|]. intros x [].
           ++ exists [oi]. split; [reflexivity|].
              intros x [<-|[]]. split; [left; reflexivity|exact Hmay].
      * destruct (H2 eq_refl) as [Hf3 [Hcap _]].
        change (negb (2 =? 2)) with false. cbv iota.
        destruct (IH rl1 w3) as [res [rl' [w' [Hrec Hout]]]].
        exists res, rl', w'. split; [exact Hrec|].
        eapply walkOutcome_step; [exact Happ'| | |exact Hcap|exact Hout]; congruence.
    + eexists (Returned true), rl, _. split; [reflexivity|].
      apply walkOutcome_nothing_added. left. reflexivity.
Qed.

(** The flat phase of [resolveConstantSegment] always returns.  When it
    reports incomplete, a solver call has failed, a timeout test has fired or
    the cap comparison has succeeded; otherwise none of these has happened.
    Every object it appended is bound and its bounds check may be true. *)
Lemma resolveConstantSegment_flat_spec : forall S clock sp p maxResolutions t rl w,
  isConstantExpr (getSegment p) = true ->
  getZExtValue (getSegment p) = 0 ->
  exists r rl' w',
    resolveConstantSegment S clock sp p rl maxResolutions t w = Some ((r, rl'), w')
    /\ (if r then solverFailed w' = true \/ timeoutExceeded t w' = true
                  \/ capReached maxResolutions rl'
        else solverFailed w' = solverFailed w
             /\ timeoutExceeded t w' = timeoutExceeded t w
             /\ (belowCap maxResolutions rl -> belowCap maxResolutions rl'))
    /\ exists added,
         rl' = rl ++ added
         /\ forall x, In x added ->
              In x (objects sp)
              /\ TimingSolver.mayBeTrue S (getBoundsCheckPointer (fst x) p) = Some true.
Proof.
  intros S clock sp p maxResolutions t rl w Hcast Hz.
  unfold resolveConstantSegment. rewrite Hcast, Hz.
  change (negb (0 =? 0)) with false. cbn [negb]. cbv iota.
  unfold bind at 1. unfold solverGetValue.
  destruct (TimingSolver.getValue S (getOffset p)) as [v|] eqn:Hv.
  2: { eexists true, rl, _. split; [reflexivity|]. split; [left; reflexivity|].
       exists []. rewrite app_nil_r. split; [reflexivity|]. intros x []. }
  pose proof (upper_bound_app moKey (wrap64 v) (objects sp)) as Hsplit.
  destruct (ImmutableMap.upper_bound moKey (wrap64 v) (objects sp)) as [before after].
  simpl in Hsplit.
  assert (Hb : forall x, In x (rev before) -> In x (objects sp))
    by (intros x Hx; rewrite <- Hsplit; apply in_or_app; left; apply in_rev; exact Hx).
  assert (Ha : forall x, In x after -> In x (objects sp))
    by (intros x Hx; rewrite <- Hsplit; apply in_or_app; right; exact Hx).
  unfold bind at 1.
  match goal with |- context [searchBackward S clock p maxResolutions t (rev before) rl ?w1] =>
    destruct (searchBackward_spec S clock p maxResolutions t (rev before) rl w1)
      as [res [rl1 [w2 [Hrun [Hflags [added [Heq Hadded]]]]]]];
    assert (Hf1 : solverFailed w1 = solverFailed w) by flags;
    assert (Ht1 : timeoutExceeded t w1 = timeoutExceeded t w) by flags
  end.
  rewrite Hrun.
  destruct res as [r|].
  - exists r, rl1, w2. split; [reflexivity|]. split.
    + destruct r; [exact Hflags|].
      destruct Hflags as [H1 [H2 H3]]. repeat split; [congruence|congruence|exact H3].
    + exists added. split; [exact Heq|]. intros x Hx.
      destruct (Hadded x Hx). split; auto.
  - destruct Hflags as [Hf2 [Ht2 Hcap2]].
    unfold bind at 1.
    destruct (searchForward_spec S clock p maxResolutions t after rl1 w2)
      as [res [rl2 [w3 [Hrun2 [Hflags2 [added2 [Heq2 Hadded2]]]]]]].
    rewrite Hrun2.
    assert (Hall : exists added0,
              rl2 = rl ++ added0
              /\ forall x, In x added0 ->
                   In x (objects sp)
                   /\ TimingSolver.mayBeTrue S (getBoundsCheckPointer (fst x) p) = Some true).
    { exists (added ++ added2). split; [rewrite Heq2, Heq, app_assoc; reflexivity|].
      intros x Hx. apply in_app_or in Hx. destruct Hx as [Hx|Hx].
      - destruct (Hadded x Hx). split; auto.
      - destruct (Hadded2 x Hx). split; auto. }
    destruct res as [r|].
    + exists r, rl2, w3. split; [reflexivity|]. split; [|exact Hall].
      destruct r; [exact Hflags2|].
      destruct Hflags2 as [H1 [H2 H3]]. repeat split; [congruence|congruence|tauto].
    + exists false, rl2, w3. split; [reflexivity|]. split; [|exact Hall].
      destruct Hflags2 as [H1 [H2 H3]]. repeat split; [congruence|congruence|tauto].
Qed.

(** ** Semantics of the queries *)

Lemma wrap64_range : forall z, 0 <= wrap64 z < 2 ^ 64.
Proof. intros z. unfold wrap64. apply Z.mod_pos_bound. lia. Qed.

Lemma wrap64_sub_wrap : forall a b, wrap64 (a - wrap64 b) = wrap64 (a - b).
Proof.
  intros a b. unfold wrap64. rewrite Zminus_mod_idemp_r. reflexivity.
Qed.

Lemma wrap64_sub_ge : forall a b,
  0 <= b <= a -> a < 2 ^ 64 -> wrap64 (a - b) = a - b.
Proof. intros a b H1 H2. apply wrap64_small. lia. Qed.

Lemma wrap64_sub_lt : forall a b,
  0 <= a < b -> b < 2 ^ 64 -> wrap64 (a - b) = a - b + 2 ^ 64.
Proof.
  intros a b H1 H2. unfold wrap64. symmetry.
  apply (Z.mod_unique (a - b) (2 ^ 64) (-1)); lia.
Qed.

Lemma eval_range : forall m e, 0 <= eval m e < 2 ^ 64.
Proof.
  intros m e. destruct e; simpl; try apply wrap64_range;
    match goal with |- context [b2z ?b] => destruct b end; simpl; lia.
Qed.

Lemma holdsb_not : forall m e, holdsb m (NotExpr e) = negb (holdsb m e).
Proof.
  intros m e. unfold holdsb. simpl. destruct (eval m e =? 0); reflexivity.
Qed.

Lemma holdsb_b2z : forall b, negb (b2z b =? 0) = b.
Proof. intros []; reflexivity. Qed.

Lemma holdsb_uge : forall m a b,
  holdsb m (UgeExpr a b) = (eval m b <=? eval m a).
Proof. intros. unfold holdsb. simpl. apply holdsb_b2z. Qed.

Lemma holdsb_ult : forall m a b,
  holdsb m (UltExpr a b) = (eval m a <? eval m b).
Proof. intros. unfold holdsb. simpl. apply holdsb_b2z. Qed.

Lemma holdsb_eq : forall m a b,
  holdsb m (EqExpr a b) = (eval m a =? eval m b).
Proof. intros. unfold holdsb. simpl. apply holdsb_b2z. Qed.

(** The distance of the offset from the base, as the bounds check computes
    it. *)
Lemma eval_distance : forall m mo p,
  eval m (SubExpr (getOffset p) (getBaseExpr mo))
  = wrap64 (eval m (getOffset p) - address mo).
Proof. intros. simpl. apply wrap64_sub_wrap. Qed.

(** What the bounds check says under a model. *)
Lemma holdsb_bounds_check : forall m mo p,
  holdsb m (getBoundsCheckPointer mo p) = true ->
  (eval m (size mo) = 0 /\ wrap64 (eval m (getOffset p) - address mo) = 0)
  \/ wrap64 (eval m (getOffset p) - address mo) < eval m (size mo).
Proof.
  intros m mo p H. unfold getBoundsCheckPointer in H.
  destruct (size mo) as [v| | | | | |] eqn:Hsz;
    try (right; rewrite holdsb_ult, eval_distance in H; apply Z.ltb_lt in H; exact H).
  destruct (Z.eqb_spec (wrap64 v) 0) as [Hz|Hnz].
  - left. rewrite holdsb_eq, eval_distance in H. apply Z.eqb_eq in H.
    split; [exact Hz|]. rewrite H. reflexivity.
  - right. rewrite holdsb_ult, eval_distance in H. apply Z.ltb_lt in H. exact H.
Qed.

(** An offset inside an object lies between its base and its end (or on the
    base of an empty object). *)
Lemma bounds_check_inside : forall m x p,
  inRange m x ->
  holdsb m (getBoundsCheckPointer (fst x) p) = true ->
  address (fst x) <= eval m (getOffset p)
  /\ (eval m (getOffset p) < address (fst x) + eval m (size (fst x))
      \/ eval m (getOffset p) = address (fst x)).
Proof.
  intros m x p [Ha Hend] H. apply holdsb_bounds_check in H.
  pose proof (eval_range m (getOffset p)) as Ho.
  pose proof (eval_range m (size (fst x))) as Hs.
  destruct (Z.le_gt_cases (address (fst x)) (eval m (getOffset p))) as [Hle|Hgt].
  - rewrite wrap64_sub_ge in H by lia. lia.
  - rewrite wrap64_sub_lt in H by lia. lia.
Qed.

Section Decided.
Variable C : Model -> Prop.
Variable S : TimingSolver.t.
Hypothesis Hdec : decides C S.
Variable p : KValue.

Lemma may_true_satisfiable : forall e,
  TimingSolver.mayBeTrue S e = Some true -> satisfiable C e.
Proof. intros e H. apply (mayBeTrue_sound C S Hdec e true H). reflexivity. Qed.

Lemma may_false_excluded : forall e,
  TimingSolver.mayBeTrue S e = Some false -> valid C (NotExpr e).
Proof.
  intros e H m Hm. rewrite holdsb_not.
  destruct (holdsb m e) eqn:He; [|reflexivity].
  assert (Hs : satisfiable C e) by (exists m; auto).
  apply (mayBeTrue_sound C S Hdec e false H) in Hs. discriminate.
Qed.

Lemma must_true_valid : forall e,
  TimingSolver.mustBeTrue S e = Some true -> valid C e.
Proof. intros e H. apply (mustBeTrue_sound C S Hdec e true H). reflexivity. Qed.

(** The cut-off of the backward walk: an offset at or above the base of [e]
    lies in no object that ends before [e]. *)
Lemma excluded_below : forall e x,
  valid C (UgeExpr (getOffset p) (getBaseExpr (fst e))) ->
  (forall m, C m -> inRange m x /\ inRange m e /\ below m x e) ->
  excluded C p (fst x).
Proof.
  intros e x Hv Hx m Hm. rewrite holdsb_not.
  destruct (holdsb m (getBoundsCheckPointer (fst x) p)) eqn:Hb; [|reflexivity].
  destruct (Hx m Hm) as [Hr [[He _] [Hlt Hend]]].
  destruct (bounds_check_inside m x p Hr Hb) as [H1 H2].
  specialize (Hv m Hm). rewrite holdsb_uge in Hv. apply Z.leb_le in Hv.
  simpl in Hv. rewrite wrap64_small in Hv by lia. lia.
Qed.

(** The cut-off of the forward walk: an offset below the base of [e] lies in
    no object that starts at or after it. *)
Lemma excluded_above : forall e x,
  valid C (UltExpr (getOffset p) (getBaseExpr (fst e))) ->
  (forall m, C m -> inRange m x /\ inRange m e
                    /\ address (fst e) <= address (fst x)) ->
  excluded C p (fst x).
Proof.
  intros e x Hv Hx m Hm. rewrite holdsb_not.
  destruct (holdsb m (getBoundsCheckPointer (fst x) p)) eqn:Hb; [|reflexivity].
  destruct (Hx m Hm) as [Hr [[He _] Hle]].
  destruct (bounds_check_inside m x p Hr Hb) as [H1 H2].
  specialize (Hv m Hm). rewrite holdsb_ult in Hv. apply Z.ltb_lt in Hv.
  simpl in Hv. rewrite wrap64_small in Hv by lia. lia.
Qed.

(** An offset that must lie in [e] lies in no object apart from [e]. *)
Lemma excluded_other : forall e x,
  valid C (getBoundsCheckPointer (fst e) p) ->
  (forall m, C m -> inRange m x /\ inRange m e /\ (below m x e \/ below m e x)) ->
  excluded C p (fst x).
Proof.
  intros e x Hv Hx m Hm. rewrite holdsb_not.
  destruct (holdsb m (getBoundsCheckPointer (fst x) p)) eqn:Hb; [|reflexivity].
  destruct (Hx m Hm) as [Hrx [Hre Hd]].
  destruct (bounds_check_inside m x p Hrx Hb) as [H1 H2].
  destruct (bounds_check_inside m e p Hre (Hv m Hm)) as [H3 H4].
  pose proof (eval_range m (size (fst x))).
  pose proof (eval_range m (size (fst e))).
  unfold below in Hd. lia.
Qed.
End Decided.

(** ** Layout *)

Lemma layout_inRange : forall m l x, layoutOk m l -> In x l -> inRange m x.
Proof.
  induction l as [|e t IH]; simpl; intros x Hl Hx; [contradiction|].
  destruct Hl as [Hr [_ Ht]]. destruct Hx as [<-|Hx]; auto.
Qed.

Lemma layout_below : forall m l x y,
  layoutOk m l -> In x l -> In y l ->
  address (fst x) < address (fst y) -> below m x y.
Proof.
  induction l as [|e t IH]; simpl; intros x y Hl Hx Hy Hlt; [contradiction|].
  destruct Hl as [_ [Hb Ht]].
  destruct Hx as [<-|Hx], Hy as [<-|Hy]; auto.
  - lia.
  - destruct (Hb x Hx). lia.
Qed.

Lemma layout_apart : forall m l x y,
  layoutOk m l -> ImmutableMap.sorted moKey l -> In x l -> In y l -> x <> y ->
  below m x y \/ below m y x.
Proof.
  intros m l x y Hl Hs Hx Hy Hne.
  destruct (Z.lt_trichotomy (address (fst x)) (address (fst y))) as [H|[H|H]].
  - left. eapply layout_below; eauto.
  - exfalso. apply Hne. eapply sorted_key_inj; eauto.
  - right. eapply layout_below; eauto.
Qed.

(** ** Completeness of the walks *)

Section Complete.
Variable C : Model -> Prop.
Variable S : TimingSolver.t.
Hypothesis Hdec : decides C S.
Variable clock : nat -> Z.
Variable p : KValue.
Variable maxResolutions : nat.
Variable t : Z.
Variable objs : MemoryMap.
Hypothesis Hlay : forall m, C m -> layoutOk m objs.

Lemma visited_settled : forall (oi : ObjectPair) (rl rl1 : ResolutionList),
  (rl1 = rl /\ TimingSolver.mayBeTrue S (getBoundsCheckPointer (fst oi) p) <> Some true
   \/ rl1 = rl ++ [oi]
      /\ TimingSolver.mayBeTrue S (getBoundsCheckPointer (fst oi) p) = Some true) ->
  (rl1 = rl -> TimingSolver.mayBeTrue S (getBoundsCheckPointer (fst oi) p) = Some false) ->
  In oi rl1 \/ excluded C p (fst oi).
Proof.
  intros oi rl rl1 [[Heq _]|[-> _]] Hno.
  - right. apply (may_false_excluded C S Hdec). auto.
  - left. apply in_or_app. right. left. reflexivity.
Qed.

Lemma searchBackward_settles : forall l rl w res rl' w',
  ImmutableMap.sorted (fun x => - moKey x) l ->
  (forall x, In x l -> In x objs) ->
  searchBackward S clock p maxResolutions t l rl w = Some ((res, rl'), w') ->
  settled C p l rl res rl'.
Proof.
  induction l as [|oi rest IH]; intros rl w res rl' w' Hs Hin Hrun.
  - simpl in Hrun. injection Hrun as <- <- <-. intros x [].
  - simpl in Hrun. destruct Hs as [Hlt Hs]. unfold bind at 1 in Hrun.
    destruct (timedOut_spec clock t w) as [b [w1 [Ht _]]]. rewrite Ht in Hrun.
    destruct b; [injection Hrun as <- <- <-; exact I|].
    unfold bind at 1 in Hrun.
    destruct (checkPointerInObject_spec S p oi rl maxResolutions t w1)
      as [r [rl1 [w2 [Hc [_ [Hr [Happ [H0 [_ H2]]]]]]]]].
    rewrite Hc in Hrun.
    destruct Hr as [-> | [-> | ->]].
    + injection Hrun as <- <- <-. destruct (H0 eq_refl) as [-> [-> [Hmust _]]].
      split; [reflexivity|]. exists oi. split; [left; reflexivity|].
      split; [reflexivity|]. apply (must_true_valid C S Hdec). exact Hmust.
    + injection Hrun as <- <- <-. exact I.
    + destruct (H2 eq_refl) as [_ [_ Hno]].
      pose proof (visited_settled oi rl rl1 Happ Hno) as Hoi.
      change (negb (2 =? 2)) with false in Hrun. cbv iota in Hrun.
      unfold bind at 1 in Hrun. unfold solverMustBeTrue in Hrun.
      destruct (TimingSolver.mustBeTrue S (UgeExpr (getOffset p) (getBaseExpr (fst oi))))
        as [[|]|] eqn:Hmust.
      * injection Hrun as <- <- <-. intros x [<-|Hx]; [exact Hoi|].
        right. apply (excluded_below C p oi x).
        -- apply (must_true_valid C S Hdec). exact Hmust.
        -- intros m Hm. specialize (Hlay m Hm).
           assert (Hxo : In x objs) by (apply Hin; right; exact Hx).
           assert (Hoo : In oi objs) by (apply Hin; left; reflexivity).
           repeat split; try (eapply layout_inRange; eassumption).
           ++ apply (layout_below m objs x oi Hlay Hxo Hoo).
              specialize (Hlt x Hx). unfold moKey in Hlt. lia.
           ++ apply (layout_below m objs x oi Hlay Hxo Hoo).
              specialize (Hlt x Hx). unfold moKey in Hlt. lia.
      * destruct (searchBackward_spec S clock p maxResolutions t rest rl1
                    (logEvent (EvMustBeTrue (UgeExpr (getOffset p) (getBaseExpr (fst oi)))
                                            (Some false)) w2))
          as [res0 [rl0 [w0 [Hrun0 [_ [added [Heq _]]]]]]].
        rewrite Hrun in Hrun0. injection Hrun0 as <- <- <-.
        specialize (IH rl1 _ res rl' w' Hs (fun x Hx => Hin x (or_intror Hx)) Hrun).
        destruct res as [[|]|]; [exact I| |].
        -- destruct IH as [Hnil [e [He [Hrl Hv]]]]. split.
           ++ destruct Happ as [[Heq1 _]|[Heq1 _]]; [congruence|].
              rewrite Hnil in Heq1. destruct rl; discriminate.
           ++ exists e. split; [right; exact He|]. split; assumption.
        -- intros x [<-|Hx]; [|apply IH; exact Hx].
           destruct Hoi as [Hoi|Hoi]; [|right; exact Hoi].
           left. rewrite Heq. apply in_or_app. left. exact Hoi.
      * injection Hrun as <- <- <-. exact I.
Qed.
Lemma searchForward_settles : forall l rl w res rl' w',
  ImmutableMap.sorted moKey l ->
  (forall x, In x l -> In x objs) ->
  searchForward S clock p maxResolutions t l rl w = Some ((res, rl'), w') ->
  settled C p l rl res rl'.
Proof.
  induction l as [|oi rest IH]; intros rl w res rl' w' Hs Hin Hrun.
  - simpl in Hrun. injection Hrun as <- <- <-. intros x [].
  - simpl in Hrun. destruct Hs as [Hlt Hs]. unfold bind at 1 in Hrun.
    destruct (timedOut_spec clock t w) as [b [w1 [Ht _]]]. rewrite Ht in Hrun.
    destruct b; [injection Hrun as <- <- <-; exact I|].
    unfold bind at 1 in Hrun. unfold solverMustBeTrue in Hrun.
    destruct (TimingSolver.mustBeTrue S (UltExpr (getOffset p) (getBaseExpr (fst oi))))
      as [[|]|] eqn:Hmust.
    + injection Hrun as <- <- <-. intros x Hx. right.
      apply (excluded_above C p oi x).
      * apply (must_true_valid C S Hdec). exact Hmust.
      * intros m Hm. specialize (Hlay m Hm).
        assert (Hxo : In x objs) by (apply Hin; exact Hx).
        assert (Hoo : In oi objs) by (apply Hin; left; reflexivity).
        repeat split; try (eapply layout_inRange; eassumption).
        destruct Hx as [<-|Hx]; [lia|].
        specialize (Hlt x Hx). unfold moKey in Hlt. lia.
    + unfold bind at 1 in Hrun.
      match type of Hrun with context [checkPointerInObject S p oi rl maxResolutions ?w2] =>
        destruct (checkPointerInObject_spec S p oi rl maxResolutions t w2)
          as [r [rl1 [w3 [Hc [_ [Hr [Happ [H0 [_ H2]]]]]]]]]
      end.
      rewrite Hc in Hrun.
      destruct Hr as [-> | [-> | ->]].
      * injection Hrun as <- <- <-. destruct (H0 eq_refl) as [-> [-> [Hm _]]].
        split; [reflexivity|]. exists oi. split; [left; reflexivity|].
        split; [reflexivity|]. apply (must_true_valid C S Hdec). exact Hm.
      * injection Hrun as <- <- <-. exact I.
      * destruct (H2 eq_refl) as [_ [_ Hno]].
        pose proof (visited_settled oi rl rl1 Happ Hno) as Hoi.
        change (negb (2 =? 2)) with false in Hrun. cbv iota in Hrun.
        destruct (searchForward_spec S clock p maxResolutions t rest rl1 w3)
          as [res0 [rl0 [w0 [Hrun0 [_ [added [Heq _]]]]]]].
        rewrite Hrun in Hrun0. injection Hrun0 as <- <- <-.
        specialize (IH rl1 _ res rl' w' Hs (fun x Hx => Hin x (or_intror Hx)) Hrun).
        destruct res as [[|]|]; [exact I| |].
        -- destruct IH as [Hnil [e [He [Hrl Hv]]]]. split.
           ++ destruct Happ as [[Heq1 _]|[Heq1 _]]; [congruence|].
              rewrite Hnil in Heq1. destruct rl; discriminate.
           ++ exists e. split; [right; exact He|]. split; assumption.
        -- intros x [<-|Hx]; [|apply IH; exact Hx].
           destruct Hoi as [Hoi|Hoi]; [|right; exact Hoi].
           left. rewrite Heq. apply in_or_app. left. exact Hoi.
    + injection Hrun as <- <- <-. exact I.
Qed.
End Complete.

Section SortedFacts.
Context {E : Type}.
Variable key : E -> Z.

Lemma sorted_app : forall (l1 l2 : list E),
  ImmutableMap.sorted key l1 -> ImmutableMap.sorted key l2 ->
  (forall x y, In x l1 -> In y l2 -> key x < key y) ->
  ImmutableMap.sorted key (l1 ++ l2).
Proof.
  induction l1 as [|e t IH]; simpl; intros l2 H1 H2 Hlt; [exact H2|].
  destruct H1 as [Hh Ht]. split.
  - intros x Hx. apply in_app_or in Hx. destruct Hx; auto.
  - apply IH; auto.
Qed.

Lemma sorted_app_r : forall (l1 l2 : list E),
  ImmutableMap.sorted key (l1 ++ l2) -> ImmutableMap.sorted key l2.
Proof.
  induction l1 as [|e t IH]; simpl; intros l2 Hs; [exact Hs|].
  destruct Hs as [_ Hs]. auto.
Qed.

End SortedFacts.

Lemma sorted_rev : forall {E : Type} (key : E -> Z) (l : list E),
  ImmutableMap.sorted key l -> ImmutableMap.sorted (fun x => - key x) (rev l).
Proof.
  intros E key. induction l as [|e t IH]; simpl; intros Hs; [exact I|].
  destruct Hs as [Hlt Hs]. apply sorted_app.
  - auto.
  - simpl. split; [intros x []|exact I].
  - intros x y Hx [<-|[]]. apply in_rev in Hx. specialize (Hlt x Hx). lia.
Qed.

(** The flat phase, when it reports complete, has settled every bound
    object: the object is in the list or cannot contain the pointer. *)
Lemma flat_walk_complete : forall C S clock sp p maxResolutions t w rl' w',
  decides C S ->
  (forall m, C m -> layoutOk m (objects sp)) ->
  ImmutableMap.sorted moKey (objects sp) ->
  getZExtValue (getSegment p) = 0 ->
  resolveConstantSegment S clock sp p [] maxResolutions t w = Some ((false, rl'), w') ->
  forall x, In x (objects sp) -> In x rl' \/ excluded C p (fst x).
Proof.
  intros C S clock sp p maxResolutions t w rl' w' Hdec Hlay Hsorted Hz Hrun.
  assert (Hunique : forall e, In e (objects sp) ->
            valid C (getBoundsCheckPointer (fst e) p) ->
            forall x, In x (objects sp) -> In x [e] \/ excluded C p (fst x)).
  { intros e He Hv x Hx.
    assert (Hdecide : x = e \/ x <> e).
    { destruct (Z.eq_dec (address (fst x)) (address (fst e))) as [Ha|Ha].
      - left. eapply sorted_key_inj; eauto.
      - right. congruence. }
    destruct Hdecide as [->|Hne]; [left; left; reflexivity|].
    right. apply (excluded_other C p e x Hv). intros m Hm.
    specialize (Hlay m Hm). repeat split; try (eapply layout_inRange; eassumption).
    eapply layout_apart; eauto. }
  unfold resolveConstantSegment in Hrun.
  destruct (isConstantExpr (getSegment p)); [|discriminate Hrun].
  rewrite Hz in Hrun.
  change (negb (0 =? 0)) with false in Hrun. cbn [negb] in Hrun. cbv iota in Hrun.
  unfold bind at 1 in Hrun. unfold solverGetValue in Hrun.
  destruct (TimingSolver.getValue S (getOffset p)) as [v|]; [|discriminate].
  pose proof (upper_bound_app moKey (wrap64 v) (objects sp)) as Hsplit.
  destruct (ImmutableMap.upper_bound moKey (wrap64 v) (objects sp)) as [before after].
  simpl in Hsplit.
  assert (Hb : forall x, In x (rev before) -> In x (objects sp))
    by (intros x Hx; rewrite <- Hsplit; apply in_or_app; left; apply in_rev; exact Hx).
  assert (Ha : forall x, In x after -> In x (objects sp))
    by (intros x Hx; rewrite <- Hsplit; apply in_or_app; right; exact Hx).
  assert (Hsb : ImmutableMap.sorted (fun x => - moKey x) (rev before)).
  { apply sorted_rev. apply (sorted_app_l moKey before after). rewrite Hsplit. exact Hsorted. }
  assert (Hsa : ImmutableMap.sorted moKey after).
  { apply (sorted_app_r moKey before after). rewrite Hsplit. exact Hsorted. }
  unfold bind at 1 in Hrun.
  match type of Hrun with
  | context [searchBackward S clock p maxResolutions t (rev before) [] ?w1] =>
      destruct (searchBackward_spec S clock p maxResolutions t (rev before) [] w1)
        as [res [rl1 [w2 [Hrun1 [_ [added [Heq _]]]]]]]
  end.
  rewrite Hrun1 in Hrun.
  pose proof (searchBackward_settles C S Hdec clock p maxResolutions t (objects sp) Hlay
                _ _ _ _ _ _ Hsb Hb Hrun1) as Hset1.
  destruct res as [r|].
  - injection Hrun as -> <- <-. destruct Hset1 as [_ [e [He [-> Hv]]]].
    apply Hunique; auto.
  - unfold bind at 1 in Hrun.
    destruct (searchForward_spec S clock p maxResolutions t after rl1 w2)
      as [res [rl2 [w3 [Hrun2 [_ [added2 [Heq2 _]]]]]]].
    rewrite Hrun2 in Hrun.
    pose proof (searchForward_settles C S Hdec clock p maxResolutions t (objects sp) Hlay
                  _ _ _ _ _ _ Hsa Ha Hrun2) as Hset2.
    destruct res as [r|].
    + injection Hrun as -> <- <-. destruct Hset2 as [_ [e [He [-> Hv]]]].
      apply Hunique; auto.
    + injection Hrun as <- <-. intros x Hx. rewrite <- Hsplit in Hx.
      apply in_app_or in Hx. destruct Hx as [Hx|Hx].
      * apply in_rev in Hx. destruct (Hset1 x Hx) as [Hin|Hex]; [|right; exact Hex].
        left. rewrite Heq2. apply in_or_app. left. exact Hin.
      * apply Hset2. exact Hx.
Qed.

(** ** The model solver *)

Lemma modelSolver_decides : forall ms, decides (fun m => In m ms) (modelSolver ms).
Proof.
  intros ms. constructor.
  - intros e v H. destruct ms as [|m0 rest]; [discriminate|].
    injection H as <-. exists m0. split; [left; reflexivity|].
    symmetry. apply wrap64_small. apply eval_range.
  - intros e b H. injection H as <-. unfold satisfiable.
    rewrite existsb_exists. tauto.
  - intros e b H. injection H as <-. unfold valid.
    rewrite forallb_forall. tauto.
Qed.

Lemma modelSolver_neverFails : forall m ms, neverFails (modelSolver (m :: ms)).
Proof. intros m ms e. repeat split; discriminate. Qed.

Ltac layout_cases :=
  intros;
  repeat match goal with
         | H : In _ _ |- _ => simpl in H
         | H : _ \/ _ |- _ => destruct H as [H|H]
         | H : False |- _ => destruct H
         | H : (_, _) = ?x |- _ => subst x
         end;
  simpl; try (cbv; congruence).

Lemma layoutOk_flatSpace : forall m, layoutOk m (objects flatSpace).
Proof.
  intros m. simpl. unfold inRange, below. simpl.
  repeat split; layout_cases.
Qed.

Lemma sorted_flatSpace : ImmutableMap.sorted moKey (objects flatSpace).
Proof.
  simpl. repeat split; layout_cases.
Qed.


Lemma segmentSync_segmentedSpace : segmentSync segmentedSpace.
Proof.
  intros s mo Hnz. unfold segmentLookup.
  change (ImmutableMap.lookup segKey s (segmentMap segmentedSpace))
    with (if 1 =? s then Some (1, moS1) else None).
  destruct (Z.eqb_spec 1 s) as [<-|Hne]; split.
  - intros [= <-]. split; [|reflexivity]. exists 0%nat. left. reflexivity.
  - intros [[os Hin] _]. simpl in Hin. destruct Hin as [Hin|[]].
    inversion Hin; subst. reflexivity.
  - discriminate.
  - intros [[os Hin] Hseg]. simpl in Hin. destruct Hin as [Hin|[]].
    inversion Hin; subst. simpl in Hne. congruence.
Qed.

(** ** Soundness of the enumeration *)


(** ** Commitments of [resolveOne] *)


(** An offset whose distance from the base is below the concrete size (or
    zero, for an empty object) satisfies the bounds check. *)
Lemma holdsb_bounds_check_intro : forall m mo p v,
  size mo = ConstantExpr v ->
  (wrap64 v = 0 /\ wrap64 (eval m (getOffset p) - address mo) = 0)
  \/ wrap64 (eval m (getOffset p) - address mo) < wrap64 v ->
  holdsb m (getBoundsCheckPointer mo p) = true.
Proof.
  intros m mo p v Hsz H. unfold getBoundsCheckPointer. rewrite Hsz.
  pose proof (wrap64_range (eval m (getOffset p) - address mo)) as Hr.
  destruct (Z.eqb_spec (wrap64 v) 0) as [Hz|Hnz].
  - rewrite holdsb_eq, eval_distance. apply Z.eqb_eq.
    change (eval m (ConstantExpr 0)) with 0. lia.
  - rewrite holdsb_ult, eval_distance. apply Z.ltb_lt.
    change (eval m (ConstantExpr v)) with (wrap64 v). lia.
Qed.

Lemma resolveOneBackward_commit : forall S p l w r x s w',
  resolveOneBackward S p l w = Some (Returned (r, Some x, s), w') ->
  TimingSolver.mayBeTrue S (getBoundsCheckPointer (fst x) p) = Some true.
Proof.
  intros S p. induction l as [|oi rest IH]; intros w r x s w' Hrun; simpl in Hrun.
  - discriminate.
  - unfold bind, solverMayBeTrue, solverMustBeTrue, ret in Hrun.
    destruct (TimingSolver.mayBeTrue S (getBoundsCheckPointer (fst oi) p))
      as [[|]|] eqn:Hmay; try discriminate.
    + injection Hrun as <- <- <- <-. exact Hmay.
    + destruct (TimingSolver.mustBeTrue S (UgeExpr (getOffset p) (getBaseExpr (fst oi))))
        as [[|]|]; try discriminate.
      eapply IH. exact Hrun.
Qed.

Lemma resolveOneForward_commit : forall S p l w r x s w',
  resolveOneForward S p l w = Some (Returned (r, Some x, s), w') ->
  TimingSolver.mayBeTrue S (getBoundsCheckPointer (fst x) p) = Some true.
Proof.
  intros S p. induction l as [|oi rest IH]; intros w r x s w' Hrun; simpl in Hrun.
  - discriminate.
  - unfold bind, solverMayBeTrue, solverMustBeTrue, ret in Hrun.
    destruct (TimingSolver.mustBeTrue S (UltExpr (getOffset p) (getBaseExpr (fst oi))))
      as [[|]|]; try discriminate.
    destruct (TimingSolver.mayBeTrue S (getBoundsCheckPointer (fst oi) p))
      as [[|]|] eqn:Hmay; try discriminate.
    + injection Hrun as <- <- <- <-. exact Hmay.
    + eapply IH. exact Hrun.
Qed.


(** The fast path commits to an object that holds the example. *)
Lemma cheapSearch_in_bounds : forall sp p example mo os m,
  cheapSearch sp example = Some (mo, os) ->
  eval m (getOffset p) = example ->
  holdsb m (getBoundsCheckPointer mo p) = true.
Proof.
  intros sp p example mo os m Hrun He. unfold cheapSearch in Hrun.
  destruct (ImmutableMap.lookup_previous moKey example (objects sp)) as [res|];
    [|discriminate].
  destruct (size (fst res)) as [v| | | | | |] eqn:Hsz; try discriminate.
  cbn [getZExtValue] in Hrun.
  destruct (Z.ltb_spec (wrap64 (example - address (fst res))) (wrap64 v)) as [Hlt|];
    [|discriminate].
  injection Hrun as ->. simpl in *.
  apply (holdsb_bounds_check_intro m mo p v Hsz). right. rewrite He. exact Hlt.
Qed.


(** ** The trace records the answers of the solver *)










(** ** [resolve] *)

Lemma lookup_in : forall {E : Type} (key : E -> Z) k (m : list E) e,
  ImmutableMap.lookup key k m = Some e -> In e m.
Proof.
  intros E key k. induction m as [|x t IH]; simpl; intros e H; [discriminate|].
  destruct (key x =? k); [injection H as <-; auto|auto].
Qed.

(** With a segment map whose entries are bound, the constant-address
    resolver does not crash where its casts succeed: on a constant segment
    that is not zero, or with a constant address. *)
Lemma resolveConstantAddress_total : forall sp p,
  segmentsBound sp (segmentMap sp) ->
  isConstantExpr (getSegment p) = true ->
  (getZExtValue (getSegment p) = 0 -> isConstantExpr (getValue p) = true) ->
  resolveConstantAddress sp p <> None.
Proof.
  intros sp p Hb Hks Hkv. unfold resolveConstantAddress. rewrite Hks. cbn [negb].
  destruct (Z.eqb_spec (getZExtValue (getSegment p)) 0) as [Hz|Hnz]; cbn [negb].
  - rewrite (Hkv Hz). cbn [negb].
    destruct (ImmutableMap.lookup_previous moKey (getZExtValue (getValue p)) (objects sp))
      as [r|]; [|discriminate].
    destruct (size (fst r)); try discriminate.
    destruct (_ || _); discriminate.
  - destruct (ImmutableMap.lookup segKey (getZExtValue (getSegment p)) (segmentMap sp))
      as [res|] eqn:Hl; [|discriminate].
    apply lookup_in in Hl. destruct (Hb res Hl) as [objpair ->]. discriminate.
Qed.



Lemma layout_sorted : forall m l, layoutOk m l -> ImmutableMap.sorted moKey l.
Proof.
  induction l as [|e t IH]; simpl; intros H; [exact I|].
  destruct H as [_ [Hb Ht]]. split; [|auto].
  intros x Hx. destruct (Hb x Hx) as [Hlt _]. exact Hlt.
Qed.

Lemma sorted_NoDup : forall {E : Type} (key : E -> Z) (l : list E),
  ImmutableMap.sorted key l -> NoDup l.
Proof.
  intros E key. induction l as [|e t IH]; simpl; intros H; [constructor|].
  destruct H as [Hlt Hs]. constructor; [|auto].
  intros Hin. specialize (Hlt e Hin). lia.
Qed.

Lemma satisfiable_not_excluded : forall C p mo,
  satisfiable C (getBoundsCheckPointer mo p) -> ~ excluded C p mo.
Proof.
  intros C p mo [m [Hm Hh]] Hex. specialize (Hex m Hm).
  rewrite holdsb_not, Hh in Hex. discriminate.
Qed.



(** ** [resolveOne] away from the non-zero segments *)

(** What a walk of [resolveOne] returns: false exactly after a failed solver
    call, and true with [success] set to whether an object was committed. *)
Lemma resolveOneBackward_spec : forall S p l w,
  exists res w',
    resolveOneBackward S p l w = Some (res, w')
    /\ match res with
       | Returned (false, _, _) => solverFailed w' = true
       | Returned (true, r, s) =>
           solverFailed w' = solverFailed w /\ s = Some (isSome r)
       | FellThrough => solverFailed w' = solverFailed w
       end.
Proof.
  intros S p. induction l as [|oi rest IH]; intros w.
  - exists FellThrough, w. split; reflexivity.
  - simpl. unfold bind at 1. unfold solverMayBeTrue.
    destruct (TimingSolver.mayBeTrue S (getBoundsCheckPointer (fst oi) p))
      as [[|]|] eqn:Hmay.
    + eexists (Returned (true, Some oi, Some true)), _.
      split; [reflexivity|]. split; reflexivity.
    + unfold bind at 1. unfold solverMustBeTrue.
      destruct (TimingSolver.mustBeTrue S (UgeExpr (getOffset p) (getBaseExpr (fst oi))))
        as [[|]|] eqn:Hmust.
      * eexists FellThrough, _. split; reflexivity.
      * match goal with |- context [resolveOneBackward S p rest ?w2] =>
          destruct (IH w2) as [res [w' [Hrun Hres]]];
          assert (Hf : solverFailed w2 = solverFailed w) by flags
        end.
        exists res, w'. split; [exact Hrun|].
        destruct res as [[[[|] r] s]|];
          [destruct Hres as [H1 H2]; split; congruence|exact Hres|congruence].
      * eexists (Returned (false, None, None)), _. split; reflexivity.
    + eexists (Returned (false, None, None)), _. split; reflexivity.
Qed.

Lemma resolveOneForward_spec : forall S p l w,
  exists res w',
    resolveOneForward S p l w = Some (res, w')
    /\ match res with
       | Returned (false, _, _) => solverFailed w' = true
       | Returned (true, r, s) =>
           solverFailed w' = solverFailed w /\ s = Some (isSome r)
       | FellThrough => solverFailed w' = solverFailed w
       end.
Proof.
  intros S p. induction l as [|oi rest IH]; intros w.
  - exists FellThrough, w. split; reflexivity.
  - simpl. unfold bind at 1. unfold solverMustBeTrue.
    destruct (TimingSolver.mustBeTrue S (UltExpr (getOffset p) (getBaseExpr (fst oi))))
      as [[|]|] eqn:Hmust.
    + eexists FellThrough, _. split; reflexivity.
    + unfold bind at 1. unfold solverMayBeTrue.
      destruct (TimingSolver.mayBeTrue S (getBoundsCheckPointer (fst oi) p))
        as [[|]|] eqn:Hmay.
      * eexists (Returned (true, Some oi, Some true)), _.
        split; [reflexivity|]. split; reflexivity.
      * match goal with |- context [resolveOneForward S p rest ?w2] =>
          destruct (IH w2) as [res [w' [Hrun Hres]]];
          assert (Hf : solverFailed w2 = solverFailed w) by flags
        end.
        exists res, w'. split; [exact Hrun|].
        destruct res as [[[[|] r] s]|];
          [destruct Hres as [H1 H2]; split; congruence|exact Hres|congruence].
      * eexists (Returned (false, None, None)), _. split; reflexivity.
    + eexists (Returned (false, None, None)), _. split; reflexivity.
Qed.

(** Away from the non-zero segments [resolveOne] does what C1 says: for a
    constant pointer, and for a pointer whose constant or concretised
    segment is zero, it returns, it returns false exactly when a solver call
    failed, and when it returns true it has set [success] to whether it
    committed to an object. *)
Lemma resolveOne_flat_paths : forall S sp p,
  segmentsBound sp (segmentMap sp) ->
  match getSegment p with
  | ConstantExpr v => isConstant p = true \/ wrap64 v = 0
  | e => forall v, TimingSolver.getValue S e = Some v -> wrap64 v = 0
  end ->
  exists r res succ w,
    resolveOne S sp p initialWorld = Some ((r, res, succ), w)
    /\ (r = false <-> solverFailed w = true)
    /\ (r = true -> succ = Some (isSome res)).
Proof.
  intros S sp p Hb Hpath. unfold resolveOne.
  destruct (isConstant p) eqn:Hc.
  { pose proof (proj1 (andb_true_iff _ _) Hc) as [Hks Hkv].
    pose proof (resolveConstantAddress_total sp p Hb Hks (fun _ => Hkv)) as Htot.
    destruct (resolveConstantAddress sp p) as [r|]; [|contradiction].
    exists true, r, (Some (isSome r)), initialWorld. split; [reflexivity|].
    split; [split; discriminate|reflexivity]. }
  assert (Hflat : forall w1,
    exists r res succ w,
      (cex <- solverGetValue S (getOffset p) ;;
       match cex with
       | None => ret (false, None, None)
       | Some v =>
           let example := wrap64 v in
           match cheapSearch sp example with
           | Some res => ret (true, Some res, Some true)
           | None =>
               let (before, after) :=
                 ImmutableMap.upper_bound moKey example (objects sp) in
               b <- resolveOneBackward S p (rev before) ;;
               match b with
               | Returned r => ret r
               | FellThrough =>
                   f <- resolveOneForward S p after ;;
                   match f with
                   | Returned r => ret r
                   | FellThrough => ret (true, None, Some false)
                   end
               end
           end
       end) w1 = Some ((r, res, succ), w)
      /\ (r = false -> solverFailed w = true)
      /\ (r = true -> solverFailed w = solverFailed w1 /\ succ = Some (isSome res))).
  { intros w1. unfold bind at 1. unfold solverGetValue.
    destruct (TimingSolver.getValue S (getOffset p)) as [v|].
    2: { eexists false, None, None, _. split; [reflexivity|].
         split; [reflexivity|discriminate]. }
    destruct (cheapSearch sp (wrap64 v)) as [res|].
    { eexists true, (Some res), (Some true), _. split; [reflexivity|].
      split; [discriminate|]. intros _. split; reflexivity. }
    destruct (ImmutableMap.upper_bound moKey (wrap64 v) (objects sp)) as [before after].
    unfold bind at 1.
    match goal with |- context [resolveOneBackward S p (rev before) ?w2] =>
      destruct (resolveOneBackward_spec S p (rev before) w2) as [b [w3 [Hrun Hres]]];
      assert (Hf2 : solverFailed w2 = solverFailed w1) by flags
    end.
    rewrite Hrun. destruct b as [[[r res] succ]|].
    { exists r, res, succ, w3. split; [reflexivity|]. destruct r.
      - destruct Hres as [H1 H2]. split; [discriminate|]. intros _. split; congruence.
      - split; [intros _; exact Hres|discriminate]. }
    unfold bind at 1.
    destruct (resolveOneForward_spec S p after w3) as [f [w4 [Hrun2 Hres2]]].
    rewrite Hrun2. destruct f as [[[r res] succ]|].
    { exists r, res, succ, w4. split; [reflexivity|]. destruct r.
      - destruct Hres2 as [H1 H2]. split; [discriminate|]. intros _. split; congruence.
      - split; [intros _; exact Hres2|discriminate]. }
    exists true, None, (Some false), w4. split; [reflexivity|].
    split; [discriminate|]. intros _. split; [congruence|reflexivity]. }
  unfold bind at 1.
  destruct (getSegment p) as [v|x|l r|l r|l r|l r|e] eqn:Hseg.
  1: { (* a constant zero segment with a symbolic offset *)
    destruct Hpath as [Hp|Hp]; [discriminate|].
    unfold ret at 1. cbn [getZExtValue]. rewrite Hp.
    change (negb (0 =? 0)) with false. cbv iota.
    destruct (Hflat initialWorld) as [r [res [succ [w [Hrun [H1 H2]]]]]].
    exists r, res, succ, w. split; [exact Hrun|]. split.
    + split; [exact H1|]. intros Hf. destruct r; [|reflexivity].
      destruct (H2 eq_refl) as [H3 _]. rewrite H3 in Hf. discriminate.
    + intros Hr. apply H2. exact Hr. }
  (* a symbolic segment, concretised by the solver *)
  all: unfold bind at 1; unfold solverGetValue;
    match type of Hseg with
    | _ = ?e =>
        destruct (TimingSolver.getValue S e) as [v|] eqn:Hv;
        [ unfold ret at 1; cbn [option_map getZExtValue]; rewrite (Hpath v eq_refl);
          change (negb (0 =? 0)) with false; cbv iota;
          destruct (Hflat (logEvent (EvGetValue e (Some v)) initialWorld))
            as [r0 [res [succ [w [Hrun [H1 H2]]]]]];
          exists r0, res, succ, w; split; [exact Hrun|]; split;
          [ split; [exact H1|]; intros Hf; destruct r0; [|reflexivity];
            destruct (H2 eq_refl) as [H3 _]; rewrite H3 in Hf; discriminate
          | intros Hr; apply H2; exact Hr ]
        | eexists false, None, None, _; split; [reflexivity|];
          split; [split; reflexivity|discriminate] ]
    end.
Qed.

(** * Further properties of the address space *)

(** ** Bindings *)

(** [findObject] after [bindObject]: the state just bound is found under
    every object of the same address (the map compares keys by address), and
    the objects of every other address are found as before. *)
Theorem findObject_bindObject : forall mo os sp h st' mo',
  bindObject mo os (sp, h) = Some st' ->
  findObject mo' (fst st')
  = if address mo' =? address mo then Some os else findObject mo' sp.
Proof.
  intros mo os sp h st' mo' Hrun. unfold bindObject in Hrun.
  destruct (deref h os) as [s|]; [|discriminate].
  destruct (copyOnWriteOwner s =? 0); [|discriminate].
  injection Hrun as <-. unfold findObject. cbn [fst objects].
  rewrite lookup_replace. unfold moKey at 1. cbn [fst].
  destruct (address mo' =? address mo); reflexivity.
Qed.

Lemma findObject_bindObject_witness :
  findObject moS2 (mkAddressSpace 7 [(moS1, 0%nat)] [(1, moS1)])
  = if address moS2 =? address moS1 then Some 0%nat
    else findObject moS2 (emptySpace 7).
Proof.
  exact (findObject_bindObject moS1 0%nat (emptySpace 7) [freshState; freshState]
           _ moS2 eq_refl).
Defined.

(** [findObject] after [unbindObject]: nothing is found at the address of the
    unbound object, and the objects of every other address are found as
    before. *)
Theorem findObject_unbindObject : forall mo st mo',
  findObject mo' (fst (unbindObject mo st))
  = if address mo' =? address mo then None else findObject mo' (fst st).
Proof.
  intros mo [sp h] mo'. unfold findObject. cbn [unbindObject fst objects].
  rewrite lookup_remove. destruct (address mo' =? address mo); reflexivity.
Qed.

(** [getWriteable] never touches a state that exists: every location of the
    heap keeps its state (so an address space that shares the state does not
    see the write that follows), and the state it returns is not read-only,
    is owned by this address space and has the bytes of the state passed
    in. *)
Theorem getWriteable_leaves_shared_states : forall mo os sp h os1 st1,
  getWriteable mo os (sp, h) = Some (os1, st1) ->
  (forall l s, deref h l = Some s -> deref (snd st1) l = Some s)
  /\ exists s s1,
       deref h os = Some s /\ deref (snd st1) os1 = Some s1
       /\ readOnly s1 = false
       /\ copyOnWriteOwner s1 = cowKey sp
       /\ concreteStore s1 = concreteStore s
       /\ (os1 = os \/ os1 = length h).
Proof.
  intros mo os sp h os1 st1 Hrun. unfold getWriteable in Hrun.
  destruct (deref h os) as [s|] eqn:Hd; [|discriminate].
  destruct (readOnly s) eqn:Hro; [discriminate|].
  destruct (Z.eqb_spec (cowKey sp) (copyOnWriteOwner s)) as [Hk|Hk].
  - injection Hrun as <- <-. split; [auto|].
    exists s, s. repeat split; auto.
  - pose proof (deref_alloc_new h (setOwner s (cowKey sp))) as Hnew.
    pose proof (deref_alloc_old h (setOwner s (cowKey sp))) as Hold.
    unfold alloc in *. cbn [fst snd] in *. injection Hrun as <- <-. cbn [snd].
    split; [exact Hold|].
    exists s, (setOwner s (cowKey sp)). repeat split; auto.
Qed.

Lemma getWriteable_leaves_shared_states_witness :
  (forall l s, deref [setOwner freshState 7] l = Some s ->
               deref [setOwner freshState 7; setOwner freshState 9] l = Some s)
  /\ exists s s1,
       deref [setOwner freshState 7] 0%nat = Some s
       /\ deref [setOwner freshState 7; setOwner freshState 9] 1%nat = Some s1
       /\ readOnly s1 = false
       /\ copyOnWriteOwner s1 = 9
       /\ concreteStore s1 = concreteStore s
       /\ (1%nat = 0%nat \/ 1%nat = length [setOwner freshState 7]).
Proof.
  exact (getWriteable_leaves_shared_states moS1 0%nat
           (mkAddressSpace 9 [(moS1, 0%nat)] [(1, moS1)]) [setOwner freshState 7]
           1%nat _ eq_refl).
Defined.

(** [getWriteable] rebinds: afterwards [findObject] gives the returned state
    for the objects of the address of [mo] whenever it gave [os] before, and
    what it gives for every other address is unchanged. *)
Theorem findObject_getWriteable : forall mo os sp h os1 st1 mo',
  getWriteable mo os (sp, h) = Some (os1, st1) ->
  findObject mo sp = Some os ->
  findObject mo' (fst st1)
  = if address mo' =? address mo then Some os1 else findObject mo' sp.
Proof.
  intros mo os sp h os1 st1 mo' Hrun Hbound. unfold getWriteable in Hrun.
  destruct (deref h os) as [s|]; [|discriminate].
  destruct (readOnly s); [discriminate|].
  destruct (cowKey sp =? copyOnWriteOwner s).
  - injection Hrun as <- <-. cbn [fst].
    destruct (Z.eqb_spec (address mo') (address mo)) as [Ha|Ha]; [|reflexivity].
    unfold findObject in *. rewrite Ha. exact Hbound.
  - unfold alloc in Hrun. injection Hrun as <- <-. unfold findObject.
    cbn [fst objects]. rewrite lookup_replace. unfold moKey at 1. cbn [fst].
    destruct (address mo' =? address mo); reflexivity.
Qed.

Lemma findObject_getWriteable_witness :
  findObject moS1 (mkAddressSpace 9 [(moS1, 1%nat)] [(1, moS1)])
  = if address moS1 =? address moS1 then Some 1%nat
    else findObject moS1 (mkAddressSpace 9 [(moS1, 0%nat)] [(1, moS1)]).
Proof.
  exact (findObject_getWriteable moS1 0%nat
           (mkAddressSpace 9 [(moS1, 0%nat)] [(1, moS1)]) [setOwner freshState 7]
           1%nat _ moS1 eq_refl eq_refl).
Defined.

(** An object state is bound once: after [bindObject] has bound [os] in an
    address space whose key is not 0, binding [os] again (to any object)
    fails the assertion. *)
Theorem bindObject_twice_fails : forall mo os st st' mo',
  cowKey (fst st) <> 0 ->
  bindObject mo os st = Some st' ->
  bindObject mo' os st' = None.
Proof.
  intros mo os [sp h] st' mo' Hk Hrun. unfold bindObject in Hrun.
  destruct (deref h os) as [s|] eqn:Hd; [|discriminate].
  destruct (copyOnWriteOwner s =? 0); [|discriminate].
  injection Hrun as <-. unfold bindObject.
  rewrite (deref_store_same h os _ s Hd). cbn [setOwner copyOnWriteOwner cowKey].
  cbn [fst] in Hk. destruct (Z.eqb_spec (cowKey sp) 0); [contradiction|reflexivity].
Qed.

Lemma bindObject_twice_fails_witness :
  bindObject moS2 0%nat
    (mkAddressSpace 7 [(moS1, 0%nat)] [(1, moS1)], [setOwner freshState 7; freshState])
  = None.
Proof.
  exact (bindObject_twice_fails moS1 0%nat startState _ moS2
           (fun H : 7 = 0 => match Z.eqb_neq 7 0 with conj f _ => f eq_refl H end)
           eq_refl).
Defined.

(** ** Binding and resolving *)

Lemma lookup_sorted_in : forall {E : Type} (key : E -> Z) (m : list E) e,
  ImmutableMap.sorted key m -> In e m ->
  ImmutableMap.lookup key (key e) m = Some e.
Proof.
  intros E key. induction m as [|x t IH]; simpl; intros e Hs Hin; [contradiction|].
  destruct Hs as [Hlt Hs]. destruct Hin as [<-|Hin].
  - rewrite Z.eqb_refl. reflexivity.
  - specialize (Hlt e Hin). destruct (Z.eqb_spec (key x) (key e)); [lia|auto].
Qed.

(** An object bound with a non-zero segment is what a pointer of that
    segment resolves to, whatever its offset; once the object is unbound the
    pointer resolves to nothing, without a crash. *)
Theorem resolve_segment_after_bindObject : forall mo os sp h st' v,
  bindObject mo os (sp, h) = Some st' ->
  0 < segment mo < 2 ^ 64 ->
  resolveConstantAddress (fst st') (mkKValue (ConstantExpr (segment mo)) v)
  = Some (Some (mo, os))
  /\ resolveConstantAddress (fst (unbindObject mo st'))
       (mkKValue (ConstantExpr (segment mo)) v) = Some None.
Proof.
  intros mo os sp h st' v Hrun Hseg. unfold bindObject in Hrun.
  destruct (deref h os) as [s|]; [|discriminate].
  destruct (copyOnWriteOwner s =? 0); [|discriminate].
  injection Hrun as <-.
  assert (Hnz : (segment mo =? 0) = false) by (apply Z.eqb_neq; lia).
  unfold resolveConstantAddress. cbn [getSegment getZExtValue fst unbindObject segmentMap objects].
  rewrite (wrap64_small (segment mo)) by lia. rewrite Hnz. cbn [negb].
  split.
  - rewrite lookup_replace. unfold segKey at 1. cbn [fst]. rewrite Z.eqb_refl.
    cbn [snd]. rewrite lookup_replace. unfold moKey at 1. cbn [fst].
    rewrite Z.eqb_refl. reflexivity.
  - rewrite lookup_remove, Z.eqb_refl. reflexivity.
Qed.

Lemma resolve_segment_after_bindObject_witness :
  resolveConstantAddress (mkAddressSpace 7 [(moS1, 0%nat)] [(1, moS1)])
    (mkKValue (ConstantExpr (segment moS1)) (SymbolicExpr 0)) = Some (Some (moS1, 0%nat))
  /\ resolveConstantAddress
       (fst (unbindObject moS1
               (mkAddressSpace 7 [(moS1, 0%nat)] [(1, moS1)],
                [setOwner freshState 7; freshState])))
       (mkKValue (ConstantExpr (segment moS1)) (SymbolicExpr 0)) = Some None.
Proof.
  exact (resolve_segment_after_bindObject moS1 0%nat (emptySpace 7)
           [freshState; freshState] _ (SymbolicExpr 0) eq_refl
           (conj eq_refl eq_refl)).
Defined.

(** An object of concrete size below 4 GiB, once bound, is what every
    constant flat address inside it resolves to, provided no other bound
    object starts between its base and that address. *)
Theorem resolve_flat_after_bindObject : forall mo os sp h st' v a,
  bindObject mo os (sp, h) = Some st' ->
  ImmutableMap.sorted moKey (objects sp) ->
  size mo = ConstantExpr v -> wrap64 v < 2 ^ 32 ->
  0 <= address mo -> address mo <= a -> a < 2 ^ 64 ->
  a - address mo < wrap64 v ->
  (forall x, In x (objects sp) ->
             address (fst x) <= address mo \/ a < address (fst x)) ->
  resolveConstantAddress (fst st') (mkKValue (ConstantExpr 0) (ConstantExpr a))
  = Some (Some (mo, os)).
Proof.
  intros mo os sp h st' v a Hrun Hs Hsz Hsmall Hbase Hle Hlt Hin Hothers.
  unfold bindObject in Hrun.
  destruct (deref h os) as [s|]; [|discriminate].
  destruct (copyOnWriteOwner s =? 0); [|discriminate].
  injection Hrun as <-. cbn [fst].
  apply resolveConstantAddress_flat; [reflexivity|reflexivity|].
  cbn [getValue getZExtValue objects fst]. rewrite (wrap64_small a) by lia.
  split.
  - apply lookup_previous_floor; [apply sorted_replace; exact Hs|].
    split; [apply in_replace; left; reflexivity|].
    split; [exact Hle|].
    intros x Hx Hk. apply in_replace in Hx. unfold moKey in *. cbn [fst] in *.
    destruct Hx as [->|[Hx _]]; [simpl; lia|].
    destruct (Hothers x Hx); lia.
  - exists v. split; [exact Hsz|]. right.
    pose proof (wrap64_range v) as Hv.
    rewrite (wrap32_small (wrap64 v)) by lia.
    rewrite wrap64_small by lia. exact Hin.
Qed.

Lemma resolve_flat_after_bindObject_witness :
  resolveConstantAddress (mkAddressSpace 7 [(moA, 0%nat)] [])
    (mkKValue (ConstantExpr 0) (ConstantExpr 4100)) = Some (Some (moA, 0%nat)).
Proof.
  exact (resolve_flat_after_bindObject moA 0%nat (emptySpace 7)
           [freshState; freshState] _ 16 4100 eq_refl I eq_refl eq_refl
           ltac:(discriminate) ltac:(discriminate) eq_refl eq_refl
           (fun x (F : False) => match F with end)).
Defined.

(** With the segment map in step with [objects], a pointer of non-zero
    segment [s] resolves to exactly the bound object of segment [s], and to
    nothing when there is none; it never crashes. *)
Theorem resolve_segment_characterised : forall sp p mo os,
  segmentSync sp ->
  ImmutableMap.sorted moKey (objects sp) ->
  getZExtValue (getSegment p) <> 0 ->
  resolveConstantAddress sp p <> None
  /\ (resolveConstantAddress sp p = Some (Some (mo, os))
      <-> In (mo, os) (objects sp) /\ segment mo = getZExtValue (getSegment p)).
Proof.
  intros sp p mo os Hsync Hs Hnz.
  assert (Hk : isConstantExpr (getSegment p) = true)
    by (destruct (getSegment p); try reflexivity; destruct Hnz; reflexivity).
  unfold resolveConstantAddress. rewrite Hk. cbn [negb].
  destruct (Z.eqb_spec (getZExtValue (getSegment p)) 0) as [|_]; [contradiction|].
  cbn [negb].
  pose proof (Hsync (getZExtValue (getSegment p))) as Hsyn.
  unfold segmentLookup in Hsyn.
  destruct (ImmutableMap.lookup segKey (getZExtValue (getSegment p)) (segmentMap sp))
    as [res|] eqn:Hl.
  - destruct (proj1 (Hsyn (snd res) Hnz) eq_refl) as [[os0 Hin0] Hseg0].
    pose proof (lookup_sorted_in moKey (objects sp) (snd res, os0) Hs Hin0) as Hfound.
    change (moKey (snd res, os0)) with (address (snd res)) in Hfound.
    rewrite Hfound.
    split; [discriminate|]. split.
    + intros [= <- <-]. auto.
    + intros [Hin Hseg]. do 2 f_equal.
      assert (Hm : Some (snd res) = Some mo).
      { apply (Hsyn mo Hnz). split; [exists os; exact Hin|exact Hseg]. }
      injection Hm as <-. f_equal.
      assert (Heq : (snd res, os0) = (snd res, os))
        by (eapply sorted_key_inj; eauto).
      congruence.
  - split; [discriminate|]. split; [discriminate|].
    intros [Hin Hseg]. exfalso.
    assert (Hm : @None MemoryObject = Some mo).
    { apply (Hsyn mo Hnz). split; [exists os; exact Hin|exact Hseg]. }
    discriminate.
Qed.

Lemma resolve_segment_characterised_witness :
  resolveConstantAddress segmentedSpace segmentOnePointer <> None
  /\ (resolveConstantAddress segmentedSpace segmentOnePointer = Some (Some (moS1, 0%nat))
      <-> In (moS1, 0%nat) (objects segmentedSpace)
          /\ segment moS1 = getZExtValue (getSegment segmentOnePointer)).
Proof.
  exact (resolve_segment_characterised segmentedSpace segmentOnePointer moS1 0%nat
           segmentSync_segmentedSpace
           (conj (fun x (F : False) => match F with end) I)
           ltac:(discriminate)).
Defined.

(** ** The fast paths *)

(** Under a model in which the objects are laid out without overlap, the
    object that holds the offset is the floor entry of the offset. *)
Lemma floor_of_inside : forall m objs x p,
  layoutOk m objs -> In x objs ->
  holdsb m (getBoundsCheckPointer (fst x) p) = true ->
  ImmutableMap.lookup_previous moKey (eval m (getOffset p)) objs = Some x.
Proof.
  intros m objs x p Hlay Hx Hb.
  pose proof (layout_sorted m objs Hlay) as Hs.
  pose proof (layout_inRange m objs x Hlay Hx) as Hr.
  destruct (bounds_check_inside m x p Hr Hb) as [Hle Hin].
  apply lookup_previous_floor; [exact Hs|].
  split; [exact Hx|]. split; [exact Hle|].
  intros y Hy Hk. unfold moKey in *.
  destruct (Z.le_gt_cases (address (fst y)) (address (fst x))) as [|Hgt]; [assumption|].
  exfalso. assert (Hbel : below m x y) by (eapply layout_below; eauto; lia).
  destruct Hbel as [_ Hend]. lia.
Qed.

Lemma valid_satisfiable : forall C e m, C m -> valid C e -> satisfiable C e.
Proof. intros C e m Hm Hv. exists m. split; [exact Hm|apply Hv; exact Hm]. Qed.

(** The comment on the fast path of [resolveOne] ("will succeed for any
    inbounds pointer"), for objects that are not empty: when the offset of a
    flat pointer must lie in a bound object of non-zero concrete size,
    [resolveOne] commits to that object after the one query for an example
    offset. *)
Theorem resolveOne_cheap_search_succeeds : forall C S sp p sv mo os n,
  decides C S ->
  (forall m, C m -> layoutOk m (objects sp)) ->
  isConstant p = false ->
  getSegment p = ConstantExpr sv -> wrap64 sv = 0 ->
  TimingSolver.getValue S (getOffset p) <> None ->
  In (mo, os) (objects sp) ->
  size mo = ConstantExpr n -> wrap64 n <> 0 ->
  valid C (getBoundsCheckPointer mo p) ->
  exists v,
    resolveOne S sp p initialWorld
    = Some ((true, Some (mo, os), Some true),
            logEvent (EvGetValue (getOffset p) (Some v)) initialWorld).
Proof.
  intros C S sp p sv mo os n Hdec Hlay Hc Hseg Hz Hans Hin Hsz Hnz Hv.
  destruct (TimingSolver.getValue S (getOffset p)) as [v|] eqn:Hget; [|contradiction].
  exists v. unfold resolveOne. rewrite Hc, Hseg. unfold bind at 1. unfold ret at 1.
  cbn [getZExtValue]. rewrite Hz. change (negb (0 =? 0)) with false. cbv iota.
  unfold bind at 1. unfold solverGetValue. rewrite Hget.
  destruct (getValue_sound C S Hdec _ _ Hget) as [m [Hm He]].
  pose proof (Hv m Hm) as Hb.
  pose proof (floor_of_inside m (objects sp) (mo, os) p (Hlay m Hm) Hin Hb) as Hfloor.
  rewrite He in Hfloor.
  unfold cheapSearch. rewrite Hfloor. cbn [fst]. rewrite Hsz. cbn [getZExtValue].
  apply holdsb_bounds_check in Hb. cbn [fst] in Hb. rewrite Hsz, He in Hb.
  change (eval m (ConstantExpr n)) with (wrap64 n) in Hb.
  destruct Hb as [[H0 _]|Hlt]; [contradiction|].
  apply Z.ltb_lt in Hlt. rewrite Hlt. reflexivity.
Qed.

Lemma resolveOne_cheap_search_succeeds_witness :
  exists v,
    resolveOne (modelSolver [constModel 4100]) flatSpace symbolicOffset initialWorld
    = Some ((true, Some (moA, 0%nat), Some true),
            logEvent (EvGetValue (getOffset symbolicOffset) (Some v)) initialWorld).
Proof.
  apply (resolveOne_cheap_search_succeeds (fun m => In m [constModel 4100])
           (modelSolver [constModel 4100]) flatSpace symbolicOffset 0 moA 0%nat 16).
  - apply modelSolver_decides.
  - intros m _. apply layoutOk_flatSpace.
  - reflexivity.
  - reflexivity.
  - reflexivity.
  - discriminate.
  - left. reflexivity.
  - reflexivity.
  - discriminate.
  - intros m [<-|[]]. vm_compute. reflexivity.
Defined.

Lemma queries_logEvent : forall ev w,
  isQuery ev = true -> queries (logEvent ev w) = queries w ++ [ev].
Proof. intros ev w H. unfold queries, logEvent. simpl. rewrite H. reflexivity. Qed.

Lemma timedOut_queries : forall clock t w,
  neverExpires clock t ->
  exists w1, timedOut clock t w = Some (false, w1) /\ queries w1 = queries w.
Proof.
  intros clock t w Hq. unfold timedOut.
  destruct (Z.eqb_spec t 0) as [Hz|Hnz].
  - exists w. split; reflexivity.
  - destruct Hq as [Hq|Hq]; [contradiction|].
    unfold bind, timerDelta, ret. specialize (Hq (ticks w)).
    destruct (Z.ltb_spec t (clock (ticks w))) as [Hlt|Hge]; [lia|].
    eexists. split; [reflexivity|]. reflexivity.
Qed.

(** The comment in [resolveConstantSegment] on a known solution: when the
    offset of a pointer with the constant segment zero (the segment is cast
    to a constant on entry) must lie in one bound object, the enumeration
    returns complete with that object alone, and after the query for an
    example offset it asks the solver exactly twice. *)
Theorem resolveConstantSegment_unique_fast_path :
  forall C S clock sp p maxResolutions t mo os,
  decides C S -> neverFails S -> neverExpires clock t ->
  (forall m, C m -> layoutOk m (objects sp)) ->
  isConstantExpr (getSegment p) = true ->
  getZExtValue (getSegment p) = 0 ->
  In (mo, os) (objects sp) ->
  valid C (getBoundsCheckPointer mo p) ->
  exists v w,
    resolveConstantSegment S clock sp p [] maxResolutions t initialWorld
    = Some ((false, [(mo, os)]), w)
    /\ queries w
       = [EvGetValue (getOffset p) (Some v);
          EvMayBeTrue (getBoundsCheckPointer mo p) (Some true);
          EvMustBeTrue (getBoundsCheckPointer mo p) (Some true)].
Proof.
  intros C S clock sp p maxResolutions t mo os Hdec Hnf Hq Hlay Hk Hz Hin Hv.
  destruct (TimingSolver.getValue S (getOffset p)) as [v|] eqn:Hget;
    [|destruct (Hnf (getOffset p)) as [H _]; contradiction].
  destruct (getValue_sound C S Hdec _ _ Hget) as [m [Hm He]].
  pose proof (floor_of_inside m (objects sp) (mo, os) p (Hlay m Hm) Hin (Hv m Hm))
    as Hfloor.
  rewrite He in Hfloor.
  assert (Hmay : TimingSolver.mayBeTrue S (getBoundsCheckPointer mo p) = Some true).
  { destruct (TimingSolver.mayBeTrue S (getBoundsCheckPointer mo p)) as [b|] eqn:Hb;
      [|destruct (Hnf (getBoundsCheckPointer mo p)) as [_ [H _]]; contradiction].
    f_equal. apply (mayBeTrue_sound C S Hdec _ _ Hb).
    apply (valid_satisfiable C _ m Hm Hv). }
  assert (Hmust : TimingSolver.mustBeTrue S (getBoundsCheckPointer mo p) = Some true).
  { destruct (TimingSolver.mustBeTrue S (getBoundsCheckPointer mo p)) as [b|] eqn:Hb;
      [|destruct (Hnf (getBoundsCheckPointer mo p)) as [_ [_ H]]; contradiction].
    f_equal. apply (mustBeTrue_sound C S Hdec _ _ Hb). exact Hv. }
  exists v. unfold resolveConstantSegment. rewrite Hk, Hz.
  change (negb (0 =? 0)) with false. cbn [negb]. cbv iota.
  unfold bind at 1. unfold solverGetValue. rewrite Hget.
  unfold ImmutableMap.lookup_previous in Hfloor.
  destruct (ImmutableMap.upper_bound moKey (wrap64 v) (objects sp)) as [before after].
  cbn [fst] in Hfloor.
  destruct (rev before) as [|e rest]; [discriminate|]. injection Hfloor as ->.
  unfold bind at 1. cbn [searchBackward]. unfold bind at 1.
  destruct (timedOut_queries clock t
              (logEvent (EvGetValue (getOffset p) (Some v)) initialWorld) Hq)
    as [w1 [Ht Hq1]].
  rewrite Ht. unfold bind at 1.
  unfold checkPointerInObject. cbn [fst]. unfold bind at 1. unfold solverMayBeTrue.
  rewrite Hmay. cbn [app length Nat.eqb]. unfold bind at 1. unfold solverMustBeTrue.
  rewrite Hmust. unfold ret. cbn.
  eexists. split; [reflexivity|].
  rewrite !queries_logEvent by reflexivity. rewrite Hq1.
  rewrite queries_logEvent by reflexivity. reflexivity.
Qed.

Lemma resolveConstantSegment_unique_fast_path_witness :
  exists v w,
    resolveConstantSegment (modelSolver [constModel 8195; constModel 8192]) stoppedClock
      flatSpace symbolicOffset [] 4 100 initialWorld
    = Some ((false, [(moB, 1%nat)]), w)
    /\ queries w
       = [EvGetValue (getOffset symbolicOffset) (Some v);
          EvMayBeTrue (getBoundsCheckPointer moB symbolicOffset) (Some true);
          EvMustBeTrue (getBoundsCheckPointer moB symbolicOffset) (Some true)].
Proof.
  apply (resolveConstantSegment_unique_fast_path
           (fun m => In m [constModel 8195; constModel 8192])
           (modelSolver [constModel 8195; constModel 8192]) stoppedClock
           flatSpace symbolicOffset 4%nat 100 moB 1%nat).
  - apply modelSolver_decides.
  - apply modelSolver_neverFails.
  - right. intros n. unfold stoppedClock. lia.
  - intros m _. apply layoutOk_flatSpace.
  - reflexivity.
  - reflexivity.
  - right. left. reflexivity.
  - intros m [<-|[<-|[]]]; vm_compute; reflexivity.
Defined.

(** ** Completeness of [resolveOne] *)

Section CompleteOne.
Variable C : Model -> Prop.
Variable S : TimingSolver.t.
Hypothesis Hdec : decides C S.
Variable p : KValue.
Variable objs : MemoryMap.
Hypothesis Hlay : forall m, C m -> layoutOk m objs.

(** The walks of [resolveOne] never return true without an object. *)
Lemma resolveOneBackward_returns : forall l w r res s w',
  resolveOneBackward S p l w = Some (Returned (r, res, s), w') ->
  r = true -> res <> None.
Proof.
  induction l as [|oi rest IH]; intros w r res s w' Hrun Hr; simpl in Hrun.
  - discriminate.
  - unfold bind, solverMayBeTrue, solverMustBeTrue, ret in Hrun.
    destruct (TimingSolver.mayBeTrue S (getBoundsCheckPointer (fst oi) p))
      as [[|]|]; try (injection Hrun as <- <- <- <-; discriminate).
    destruct (TimingSolver.mustBeTrue S (UgeExpr (getOffset p) (getBaseExpr (fst oi))))
      as [[|]|]; try discriminate.
    + eapply IH; eauto.
    + injection Hrun as <- <- <- <-. discriminate.
Qed.

Lemma resolveOneForward_returns : forall l w r res s w',
  resolveOneForward S p l w = Some (Returned (r, res, s), w') ->
  r = true -> res <> None.
Proof.
  induction l as [|oi rest IH]; intros w r res s w' Hrun Hr; simpl in Hrun.
  - discriminate.
  - unfold bind, solverMayBeTrue, solverMustBeTrue, ret in Hrun.
    destruct (TimingSolver.mustBeTrue S (UltExpr (getOffset p) (getBaseExpr (fst oi))))
      as [[|]|]; try discriminate.
    + destruct (TimingSolver.mayBeTrue S (getBoundsCheckPointer (fst oi) p))
        as [[|]|]; try (injection Hrun as <- <- <- <-; discriminate).
      eapply IH; eauto.
    + injection Hrun as <- <- <- <-. discriminate.
Qed.

(** A backward walk that falls through has excluded every object it was
    given. *)
Lemma resolveOneBackward_excludes : forall l w w',
  ImmutableMap.sorted (fun x => - moKey x) l ->
  (forall x, In x l -> In x objs) ->
  resolveOneBackward S p l w = Some (FellThrough, w') ->
  forall x, In x l -> excluded C p (fst x).
Proof.
  induction l as [|oi rest IH]; intros w w' Hs Hin Hrun x Hx; [contradiction|].
  simpl in Hrun. destruct Hs as [Hlt Hs].
  unfold bind at 1 in Hrun. unfold solverMayBeTrue in Hrun.
  destruct (TimingSolver.mayBeTrue S (getBoundsCheckPointer (fst oi) p))
    as [[|]|] eqn:Hmay; try discriminate.
  pose proof (may_false_excluded C S Hdec _ Hmay) as Hoi.
  unfold bind at 1 in Hrun. unfold solverMustBeTrue in Hrun.
  destruct (TimingSolver.mustBeTrue S (UgeExpr (getOffset p) (getBaseExpr (fst oi))))
    as [[|]|] eqn:Hmust; try discriminate.
  - destruct Hx as [<-|Hx]; [exact Hoi|].
    apply (excluded_below C p oi x).
    + apply (must_true_valid C S Hdec). exact Hmust.
    + intros m Hm. specialize (Hlay m Hm).
      assert (Hxo : In x objs) by (apply Hin; right; exact Hx).
      assert (Hoo : In oi objs) by (apply Hin; left; reflexivity).
      assert (Hb : below m x oi).
      { apply (layout_below m objs x oi Hlay Hxo Hoo).
        specialize (Hlt x Hx). unfold moKey in Hlt. lia. }
      split; [eapply layout_inRange; eassumption|].
      split; [eapply layout_inRange; eassumption|exact Hb].
  - destruct Hx as [<-|Hx]; [exact Hoi|].
    eapply IH; eauto. intros y Hy. apply Hin. right. exact Hy.
Qed.

(** A forward walk that falls through has excluded every object it was
    given. *)
Lemma resolveOneForward_excludes : forall l w w',
  ImmutableMap.sorted moKey l ->
  (forall x, In x l -> In x objs) ->
  resolveOneForward S p l w = Some (FellThrough, w') ->
  forall x, In x l -> excluded C p (fst x).
Proof.
  induction l as [|oi rest IH]; intros w w' Hs Hin Hrun x Hx; [contradiction|].
  simpl in Hrun. destruct Hs as [Hlt Hs].
  unfold bind at 1 in Hrun. unfold solverMustBeTrue in Hrun.
  destruct (TimingSolver.mustBeTrue S (UltExpr (getOffset p) (getBaseExpr (fst oi))))
    as [[|]|] eqn:Hmust; try discriminate.
  - apply (excluded_above C p oi x).
    + apply (must_true_valid C S Hdec). exact Hmust.
    + intros m Hm. specialize (Hlay m Hm).
      assert (Hxo : In x objs) by (apply Hin; exact Hx).
      assert (Hoo : In oi objs) by (apply Hin; left; reflexivity).
      split; [eapply layout_inRange; eassumption|].
      split; [eapply layout_inRange; eassumption|].
      destruct Hx as [<-|Hx]; [lia|].
      specialize (Hlt x Hx). unfold moKey in Hlt. lia.
  - unfold bind at 1 in Hrun. unfold solverMayBeTrue in Hrun.
    destruct (TimingSolver.mayBeTrue S (getBoundsCheckPointer (fst oi) p))
      as [[|]|] eqn:Hmay; try discriminate.
    pose proof (may_false_excluded C S Hdec _ Hmay) as Hoi.
    destruct Hx as [<-|Hx]; [exact Hoi|].
    eapply IH; eauto. intros y Hy. apply Hin. right. exact Hy.
Qed.
End CompleteOne.

(** When [resolveOne] returns true without an object for a flat pointer
    with a symbolic offset, then under a solver that decides the constraints
    and with objects that do not overlap no bound object can contain the
    pointer: the two walks stop early only where the remaining objects are
    out of reach. *)
Theorem resolveOne_none_excludes_all : forall C S sp p sv s w,
  decides C S ->
  (forall m, C m -> layoutOk m (objects sp)) ->
  isConstant p = false ->
  getSegment p = ConstantExpr sv -> wrap64 sv = 0 ->
  resolveOne S sp p initialWorld = Some ((true, None, s), w) ->
  s = Some false
  /\ forall x, In x (objects sp) -> excluded C p (fst x).
Proof.
  intros C S sp p sv s w Hdec Hlay Hc Hseg Hz Hrun.
  unfold resolveOne in Hrun. rewrite Hc, Hseg in Hrun.
  unfold bind at 1 in Hrun. unfold ret at 1 in Hrun.
  cbn [getZExtValue] in Hrun. rewrite Hz in Hrun.
  change (negb (0 =? 0)) with false in Hrun. cbv iota in Hrun.
  unfold bind at 1 in Hrun. unfold solverGetValue in Hrun.
  destruct (TimingSolver.getValue S (getOffset p)) as [v|] eqn:Hget; [|discriminate].
  destruct (getValue_sound C S Hdec _ _ Hget) as [m [Hm _]].
  pose proof (layout_sorted m _ (Hlay m Hm)) as Hsorted.
  destruct (cheapSearch sp (wrap64 v)) as [res|]; [discriminate|].
  pose proof (upper_bound_app moKey (wrap64 v) (objects sp)) as Hsplit.
  destruct (ImmutableMap.upper_bound moKey (wrap64 v) (objects sp)) as [before after].
  simpl in Hsplit.
  assert (Hb : forall x, In x (rev before) -> In x (objects sp))
    by (intros x Hx; rewrite <- Hsplit; apply in_or_app; left; apply in_rev; exact Hx).
  assert (Ha : forall x, In x after -> In x (objects sp))
    by (intros x Hx; rewrite <- Hsplit; apply in_or_app; right; exact Hx).
  assert (Hsb : ImmutableMap.sorted (fun x => - moKey x) (rev before)).
  { apply sorted_rev. apply (sorted_app_l moKey before after). rewrite Hsplit. exact Hsorted. }
  assert (Hsa : ImmutableMap.sorted moKey after).
  { apply (sorted_app_r moKey before after). rewrite Hsplit. exact Hsorted. }
  unfold bind at 1 in Hrun.
  destruct (resolveOneBackward S p (rev before) _) as [[b w1]|] eqn:Hrun1;
    [|discriminate].
  destruct b as [[[r res] s1]|].
  { injection Hrun as -> -> <- <-.
    exfalso. exact (resolveOneBackward_returns S p _ _ _ _ _ _ Hrun1 eq_refl eq_refl). }
  unfold bind at 1 in Hrun.
  destruct (resolveOneForward S p after w1) as [[f w2]|] eqn:Hrun2; [|discriminate].
  destruct f as [[[r res] s1]|].
  { injection Hrun as -> -> <- <-.
    exfalso. exact (resolveOneForward_returns S p _ _ _ _ _ _ Hrun2 eq_refl eq_refl). }
  injection Hrun as <- <-. split; [reflexivity|].
  intros x Hx. rewrite <- Hsplit in Hx. apply in_app_or in Hx. destruct Hx as [Hx|Hx].
  - apply in_rev in Hx.
    exact (resolveOneBackward_excludes C S Hdec p (objects sp) Hlay _ _ _ Hsb Hb Hrun1 x Hx).
  - exact (resolveOneForward_excludes C S Hdec p (objects sp) Hlay _ _ _ Hsa Ha Hrun2 x Hx).
Qed.

Lemma resolveOne_none_excludes_all_witness :
  Some false = Some false
  /\ forall x, In x (objects flatSpace) ->
       excluded (fun m => In m [constModel 6000; constModel 100]) symbolicOffset (fst x).
Proof.
  eapply (resolveOne_none_excludes_all (fun m => In m [constModel 6000; constModel 100])
            (modelSolver [constModel 6000; constModel 100]) flatSpace symbolicOffset 0
            (Some false)).
  - apply modelSolver_decides.
  - intros m _. apply layoutOk_flatSpace.
  - reflexivity.
  - reflexivity.
  - reflexivity.
  - vm_compute. reflexivity.
Defined.

(** ** What the resolvers hand out *)

Lemma lookup_previous_in : forall {E : Type} (key : E -> Z) k (m : list E) e,
  ImmutableMap.lookup_previous key k m = Some e -> In e m.
Proof.
  intros E key k m e H. unfold ImmutableMap.lookup_previous in H.
  pose proof (upper_bound_app key k m) as Happ.
  destruct (ImmutableMap.upper_bound key k m) as [b a]. simpl in *.
  destruct (rev b) as [|x r] eqn:Hr; [discriminate|]. injection H as ->.
  rewrite <- Happ. apply in_or_app. left. apply in_rev. rewrite Hr. left. reflexivity.
Qed.

Lemma resolveConstantAddress_in : forall sp p res,
  resolveConstantAddress sp p = Some (Some res) -> In res (objects sp).
Proof.
  intros sp p res H. unfold resolveConstantAddress in H.
  destruct (isConstantExpr (getSegment p)); [|discriminate H]. cbn [negb] in H.
  destruct (negb (getZExtValue (getSegment p) =? 0)).
  - destruct (ImmutableMap.lookup segKey _ (segmentMap sp)) as [sres|]; [|discriminate].
    destruct (ImmutableMap.lookup moKey _ (objects sp)) as [op|] eqn:Hl; [|discriminate].
    injection H as <-. eapply lookup_in; eauto.
  - destruct (isConstantExpr (getValue p)); [|discriminate H]. cbn [negb] in H.
    destruct (ImmutableMap.lookup_previous moKey _ (objects sp)) as [r|] eqn:Hl;
      [|discriminate].
    destruct (size (fst r)); try discriminate.
    destruct (_ || _); [|discriminate].
    injection H as <-. eapply lookup_previous_in; eauto.
Qed.

Lemma resolveOneBackward_in : forall S p l w r x s w',
  resolveOneBackward S p l w = Some (Returned (r, Some x, s), w') -> In x l.
Proof.
  intros S p. induction l as [|oi rest IH]; intros w r x s w' Hrun; simpl in Hrun.
  - discriminate.
  - unfold bind, solverMayBeTrue, solverMustBeTrue, ret in Hrun.
    destruct (TimingSolver.mayBeTrue S (getBoundsCheckPointer (fst oi) p))
      as [[|]|]; try discriminate.
    + injection Hrun as <- <- <- <-. left. reflexivity.
    + destruct (TimingSolver.mustBeTrue S (UgeExpr (getOffset p) (getBaseExpr (fst oi))))
        as [[|]|]; try discriminate.
      right. eapply IH. exact Hrun.
Qed.

Lemma resolveOneForward_in : forall S p l w r x s w',
  resolveOneForward S p l w = Some (Returned (r, Some x, s), w') -> In x l.
Proof.
  intros S p. induction l as [|oi rest IH]; intros w r x s w' Hrun; simpl in Hrun.
  - discriminate.
  - unfold bind, solverMayBeTrue, solverMustBeTrue, ret in Hrun.
    destruct (TimingSolver.mustBeTrue S (UltExpr (getOffset p) (getBaseExpr (fst oi))))
      as [[|]|]; try discriminate.
    destruct (TimingSolver.mayBeTrue S (getBoundsCheckPointer (fst oi) p))
      as [[|]|]; try discriminate.
    + injection Hrun as <- <- <- <-. left. reflexivity.
    + right. eapply IH. exact Hrun.
Qed.

Lemma resolveSegments_in : forall S clock sp p t l rl w r rl' w',
  resolveSegments S clock sp p t l rl w = Some ((r, rl'), w') ->
  (forall x, In x rl -> In x (objects sp)) ->
  forall x, In x rl' -> In x (objects sp).
Proof.
  intros S clock sp p t. induction l as [|res rest IH];
    intros rl w r rl' w' Hrun Hrl; simpl in Hrun.
  - injection Hrun as <- <- <-. exact Hrl.
  - unfold bind at 1 in Hrun.
    destruct (timedOut_spec clock t w) as [b [w1 [Ht _]]]. rewrite Ht in Hrun.
    destruct b; [injection Hrun as <- <- <-; exact Hrl|].
    unfold bind at 1 in Hrun. unfold solverMayBeTrue in Hrun.
    destruct (TimingSolver.mayBeTrue S (EqExpr (getSegment p) (ConstantExpr (fst res))))
      as [[|]|].
    + destruct (ImmutableMap.lookup moKey (address (snd res)) (objects sp))
        as [objpair|] eqn:Hl; [|discriminate].
      eapply IH; [exact Hrun|].
      intros x Hx. apply in_app_or in Hx. destruct Hx as [Hx|[<-|[]]]; [auto|].
      eapply lookup_in; eauto.
    + eapply IH; eauto.
    + injection Hrun as <- <- <-. exact Hrl.
Qed.

Lemma resolveConstantSegment_in : forall S clock sp p rl maxResolutions t w r rl' w',
  resolveConstantSegment S clock sp p rl maxResolutions t w = Some ((r, rl'), w') ->
  (forall x, In x rl -> In x (objects sp)) ->
  forall x, In x rl' -> In x (objects sp).
Proof.
  intros S clock sp p rl maxResolutions t w r rl' w' Hrun Hrl x Hx.
  destruct (isConstantExpr (getSegment p)) eqn:Hc.
  2:{ unfold resolveConstantSegment in Hrun. rewrite Hc in Hrun. discriminate Hrun. }
  destruct (Z.eqb_spec (getZExtValue (getSegment p)) 0) as [Hz|Hnz].
  - destruct (resolveConstantSegment_flat_spec S clock sp p maxResolutions t rl w Hc Hz)
      as [r0 [rl0 [w0 [Hrun0 [_ [added [Heq Hadd]]]]]]].
    rewrite Hrun in Hrun0. injection Hrun0 as <- <- <-. subst rl'.
    apply in_app_or in Hx. destruct Hx as [Hx|Hx]; [auto|apply Hadd; exact Hx].
  - unfold resolveConstantSegment in Hrun.
    apply Z.eqb_neq in Hnz. rewrite Hc, Hnz in Hrun. cbn [negb] in Hrun.
    destruct (resolveConstantAddress sp p) as [[res|]|] eqn:Hres; try discriminate.
    + injection Hrun as <- <- <-. apply in_app_or in Hx.
      destruct Hx as [Hx|[<-|[]]]; [auto|]. eapply resolveConstantAddress_in; eauto.
    + injection Hrun as <- <- <-. auto.
Qed.

(** The resolvers hand out bound objects only: the pair [resolveOne]
    writes to [result] and every pair [resolve] appends to the resolution
    list is an entry of [objects], on every path and whatever the solver
    answers. *)
Theorem resolved_pairs_are_bound : forall S clock sp p,
  (forall w r x s w',
     resolveOne S sp p w = Some ((r, Some x, s), w') -> In x (objects sp))
  /\ (forall maxResolutions t w r rl w',
        resolve S clock sp p [] maxResolutions t w = Some ((r, rl), w') ->
        forall x, In x rl -> In x (objects sp)).
Proof.
  intros S clock sp p. split.
  - intros w r x s w' Hrun. unfold resolveOne in Hrun.
    destruct (isConstant p).
    { destruct (resolveConstantAddress sp p) as [[res|]|] eqn:Hres; try discriminate.
      injection Hrun as _ <- _ _. eapply resolveConstantAddress_in; eauto. }
    unfold bind at 1 in Hrun.
    destruct (match getSegment p with
              | ConstantExpr v => ret (Some (ConstantExpr v))
              | e => r0 <- solverGetValue S e ;;
                     ret (option_map (fun v => ConstantExpr v) r0)
              end w) as [[seg w1]|]; [|discriminate].
    destruct seg as [segment|]; [|discriminate].
    destruct (negb (getZExtValue segment =? 0)).
    { destruct (resolveConstantAddress sp (mkKValue segment (getOffset p)))
        as [[res|]|] eqn:Hres; try discriminate.
      injection Hrun as _ <- _ _. eapply resolveConstantAddress_in; eauto. }
    unfold bind at 1 in Hrun. unfold solverGetValue in Hrun.
    destruct (TimingSolver.getValue S (getOffset p)) as [v|]; [|discriminate].
    destruct (cheapSearch sp (wrap64 v)) as [res|] eqn:Hcheap.
    { injection Hrun as _ <- _ _. unfold cheapSearch in Hcheap.
      destruct (ImmutableMap.lookup_previous moKey (wrap64 v) (objects sp))
        as [r0|] eqn:Hl; [|discriminate].
      destruct (size (fst r0)); try discriminate.
      destruct (_ <? _); [|discriminate].
      injection Hcheap as <-. eapply lookup_previous_in; eauto. }
    pose proof (upper_bound_app moKey (wrap64 v) (objects sp)) as Hsplit.
    destruct (ImmutableMap.upper_bound moKey (wrap64 v) (objects sp)) as [before after].
    simpl in Hsplit. unfold bind at 1 in Hrun.
    destruct (resolveOneBackward S p (rev before) _) as [[b w2]|] eqn:Hrun1;
      [|discriminate].
    destruct b as [[[r1 res1] s1]|].
    { injection Hrun as -> -> -> <-. apply resolveOneBackward_in in Hrun1.
      rewrite <- Hsplit. apply in_or_app. left. apply in_rev. exact Hrun1. }
    unfold bind at 1 in Hrun.
    destruct (resolveOneForward S p after w2) as [[f w3]|] eqn:Hrun2; [|discriminate].
    destruct f as [[[r1 res1] s1]|]; [|discriminate].
    injection Hrun as -> -> -> <-. apply resolveOneForward_in in Hrun2.
    rewrite <- Hsplit. apply in_or_app. right. exact Hrun2.
  - intros maxResolutions t w r rl w' Hrun. unfold resolve in Hrun.
    destruct (isConstantExpr (getSegment p)).
    { eapply resolveConstantSegment_in; [exact Hrun|]. intros x []. }
    unfold bind at 1 in Hrun. unfold solverMayBeTrue in Hrun.
    destruct (TimingSolver.mayBeTrue S (createIsZero (getSegment p))) as [may|].
    2: { injection Hrun as <- <- <-. intros x []. }
    unfold bind at 1 in Hrun.
    destruct may.
    + destruct (resolveConstantSegment S clock sp
                  (mkKValue (ConstantExpr 0) (getValue p)) [] maxResolutions t _)
        as [[[inc rl1] w1]|] eqn:Hflat; [|discriminate].
      assert (Hrl1 : forall x, In x rl1 -> In x (objects sp)).
      { eapply resolveConstantSegment_in; [exact Hflat|]. intros x []. }
      destruct inc; [injection Hrun as <- <- <-; exact Hrl1|].
      eapply resolveSegments_in; eauto.
    + unfold ret at 1 in Hrun. cbv iota beta in Hrun.
      eapply resolveSegments_in; [exact Hrun|]. intros x [].
Qed.

Lemma resolved_pairs_are_bound_witness :
  In (moA, 0%nat) (objects flatSpace)
  /\ (forall x, In x [(moA, 0%nat); (moB, 1%nat)] -> In x (objects flatSpace)).
Proof.
  split.
  - eapply (proj1 (resolved_pairs_are_bound (modelSolver twoModels) stoppedClock
                     flatSpace symbolicOffset) initialWorld true (moA, 0%nat) (Some true)).
    vm_compute. reflexivity.
  - eapply (proj2 (resolved_pairs_are_bound (modelSolver twoModels) stoppedClock
                     flatSpace symbolicOffset) 0%nat 0 initialWorld false).
    vm_compute. reflexivity.
Defined.

(** ** No object twice *)

Lemma checkPointerInObject_appends : forall S p op rl maxResolutions w r rl' w',
  checkPointerInObject S p op rl maxResolutions w = Some ((r, rl'), w') ->
  rl' = rl \/ rl' = rl ++ [op].
Proof.
  intros S p op rl maxResolutions w r rl' w' Hrun.
  destruct (checkPointerInObject_spec S p op rl maxResolutions 0 w)
    as [r0 [rl0 [w0 [Hrun0 [_ [_ [Happ _]]]]]]].
  rewrite Hrun in Hrun0. injection Hrun0 as <- <- <-.
  destruct Happ as [[-> _]|[-> _]]; auto.
Qed.

Lemma NoDup_snoc : forall {A : Type} (l : list A) x,
  NoDup l -> ~ In x l -> NoDup (l ++ [x]).
Proof.
  intros A l x Hl Hx. induction Hl as [|y l Hy Hl IH]; simpl.
  - constructor; [intros []|constructor].
  - constructor.
    + intros Hin. apply in_app_or in Hin. destruct Hin as [Hin|[<-|[]]]; [auto|].
      apply Hx. left. reflexivity.
    + apply IH. intros Hin. apply Hx. right. exact Hin.
Qed.

(** A walk over objects none of which is in the list yet appends each of
    them at most once. *)
Lemma searchBackward_NoDup : forall S clock p maxResolutions t l rl w res rl' w',
  searchBackward S clock p maxResolutions t l rl w = Some ((res, rl'), w') ->
  NoDup l -> NoDup rl -> (forall x, In x l -> ~ In x rl) ->
  NoDup rl' /\ forall x, In x rl' -> In x rl \/ In x l.
Proof.
  intros S clock p maxResolutions t. induction l as [|oi rest IH];
    intros rl w res rl' w' Hrun Hl Hrl Hfresh; simpl in Hrun.
  - injection Hrun as <- <- <-. split; [exact Hrl|auto].
  - inversion Hl as [|? ? Hoi Hrest]; subst.
    unfold bind at 1 in Hrun.
    destruct (timedOut_spec clock t w) as [b [w1 [Ht _]]]. rewrite Ht in Hrun.
    destruct b; [injection Hrun as <- <- <-; split; [exact Hrl|auto]|].
    unfold bind at 1 in Hrun.
    destruct (checkPointerInObject S p oi rl maxResolutions w1)
      as [[[inc rl1] w2]|] eqn:Hc; [|discriminate].
    assert (Hrl1 : NoDup rl1 /\ forall x, In x rl1 -> In x rl \/ x = oi).
    { destruct (checkPointerInObject_appends _ _ _ _ _ _ _ _ _ Hc) as [ -> | -> ].
      - split; [exact Hrl|auto].
      - split; [apply NoDup_snoc; [exact Hrl|apply Hfresh; left; reflexivity]|].
        intros x Hx. apply in_app_or in Hx. destruct Hx as [Hx|[<-|[]]]; auto. }
    destruct Hrl1 as [Hnd1 Hsub1].
    assert (Hdone : NoDup rl1 /\ forall x, In x rl1 -> In x rl \/ In x (oi :: rest)).
    { split; [exact Hnd1|]. intros x Hx. destruct (Hsub1 x Hx) as [ | -> ]; [auto|].
      right. left. reflexivity. }
    destruct (negb (inc =? 2)); [injection Hrun as <- <- <-; exact Hdone|].
    unfold bind at 1 in Hrun. unfold solverMustBeTrue in Hrun.
    destruct (TimingSolver.mustBeTrue S (UgeExpr (getOffset p) (getBaseExpr (fst oi))))
      as [[|]|]; try (injection Hrun as <- <- <-; exact Hdone).
    assert (Hfresh1 : forall x, In x rest -> ~ In x rl1).
    { intros x Hx Hin. destruct (Hsub1 x Hin) as [Hin' | -> ].
      - exact (Hfresh x (or_intror Hx) Hin').
      - exact (Hoi Hx). }
    destruct (IH rl1 _ res rl' w' Hrun Hrest Hnd1 Hfresh1) as [Hnd Hsub].
    split; [exact Hnd|]. intros x Hx. destruct (Hsub x Hx) as [Hin|Hin].
    + destruct (Hsub1 x Hin) as [ | -> ]; [auto|]. right. left. reflexivity.
    + right. right. exact Hin.
Qed.

Lemma searchForward_NoDup : forall S clock p maxResolutions t l rl w res rl' w',
  searchForward S clock p maxResolutions t l rl w = Some ((res, rl'), w') ->
  NoDup l -> NoDup rl -> (forall x, In x l -> ~ In x rl) ->
  NoDup rl' /\ forall x, In x rl' -> In x rl \/ In x l.
Proof.
  intros S clock p maxResolutions t. induction l as [|oi rest IH];
    intros rl w res rl' w' Hrun Hl Hrl Hfresh; simpl in Hrun.
  - injection Hrun as <- <- <-. split; [exact Hrl|auto].
  - inversion Hl as [|? ? Hoi Hrest]; subst.
    unfold bind at 1 in Hrun.
    destruct (timedOut_spec clock t w) as [b [w1 [Ht _]]]. rewrite Ht in Hrun.
    destruct b; [injection Hrun as <- <- <-; split; [exact Hrl|auto]|].
    unfold bind at 1 in Hrun. unfold solverMustBeTrue in Hrun.
    destruct (TimingSolver.mustBeTrue S (UltExpr (getOffset p) (getBaseExpr (fst oi))))
      as [[|]|]; try (injection Hrun as <- <- <-; split; [exact Hrl|auto]).
    unfold bind at 1 in Hrun.
    destruct (checkPointerInObject S p oi rl maxResolutions _)
      as [[[inc rl1] w2]|] eqn:Hc; [|discriminate].
    assert (Hrl1 : NoDup rl1 /\ forall x, In x rl1 -> In x rl \/ x = oi).
    { destruct (checkPointerInObject_appends _ _ _ _ _ _ _ _ _ Hc) as [ -> | -> ].
      - split; [exact Hrl|auto].
      - split; [apply NoDup_snoc; [exact Hrl|apply Hfresh; left; reflexivity]|].
        intros x Hx. apply in_app_or in Hx. destruct Hx as [Hx|[<-|[]]]; auto. }
    destruct Hrl1 as [Hnd1 Hsub1].
    assert (Hdone : NoDup rl1 /\ forall x, In x rl1 -> In x rl \/ In x (oi :: rest)).
    { split; [exact Hnd1|]. intros x Hx. destruct (Hsub1 x Hx) as [ | -> ]; [auto|].
      right. left. reflexivity. }
    destruct (negb (inc =? 2)); [injection Hrun as <- <- <-; exact Hdone|].
    assert (Hfresh1 : forall x, In x rest -> ~ In x rl1).
    { intros x Hx Hin. destruct (Hsub1 x Hin) as [Hin' | -> ].
      - exact (Hfresh x (or_intror Hx) Hin').
      - exact (Hoi Hx). }
    destruct (IH rl1 _ res rl' w' Hrun Hrest Hnd1 Hfresh1) as [Hnd Hsub].
    split; [exact Hnd|]. intros x Hx. destruct (Hsub x Hx) as [Hin|Hin].
    + destruct (Hsub1 x Hin) as [ | -> ]; [auto|]. right. left. reflexivity.
    + right. right. exact Hin.
Qed.

(** For a pointer with a concrete segment [resolve] lists no object twice:
    the backward and the forward walk cover disjoint parts of the address
    order, and each visits an object once. *)
Theorem resolve_lists_no_object_twice :
  forall S clock sp p maxResolutions t w r rl w',
  ImmutableMap.sorted moKey (objects sp) ->
  isConstantExpr (getSegment p) = true ->
  resolve S clock sp p [] maxResolutions t w = Some ((r, rl), w') ->
  NoDup rl.
Proof.
  intros S clock sp p maxResolutions t w r rl w' Hsorted Hc Hrun.
  unfold resolve in Hrun. rewrite Hc in Hrun.
  unfold resolveConstantSegment in Hrun. rewrite Hc in Hrun. cbn [negb] in Hrun.
  destruct (negb (getZExtValue (getSegment p) =? 0)).
  { destruct (resolveConstantAddress sp p) as [[res|]|]; try discriminate;
      injection Hrun as <- <- <-; repeat constructor. intros []. }
  unfold bind at 1 in Hrun. unfold solverGetValue in Hrun.
  destruct (TimingSolver.getValue S (getOffset p)) as [v|];
    [|injection Hrun as <- <- <-; constructor].
  pose proof (upper_bound_app moKey (wrap64 v) (objects sp)) as Hsplit.
  destruct (ImmutableMap.upper_bound moKey (wrap64 v) (objects sp)) as [before after].
  simpl in Hsplit.
  pose proof (sorted_NoDup moKey _ Hsorted) as Hnd. rewrite <- Hsplit in Hnd.
  assert (Hndb : NoDup (rev before)).
  { apply NoDup_rev. eapply NoDup_app_remove_r. exact Hnd. }
  assert (Hnda : NoDup after) by (eapply NoDup_app_remove_l; exact Hnd).
  assert (Hdisj : forall x, In x after -> ~ In x before).
  { intros x Ha Hb.
    assert (moKey x < moKey x); [|lia].
    apply (sorted_app_lt moKey before after x x); [rewrite Hsplit|..]; assumption. }
  unfold bind at 1 in Hrun.
  destruct (searchBackward S clock p maxResolutions t (rev before) [] _)
    as [[[b rl1] w1]|] eqn:Hrun1; [|discriminate].
  destruct (searchBackward_NoDup _ _ _ _ _ _ _ _ _ _ _ Hrun1 Hndb (NoDup_nil _)
              (fun x _ (F : In x []) => F)) as [Hnd1 Hsub1].
  destruct b as [r1|]; [injection Hrun as <- <- <-; exact Hnd1|].
  unfold bind at 1 in Hrun.
  destruct (searchForward S clock p maxResolutions t after rl1 w1)
    as [[[f rl2] w2]|] eqn:Hrun2; [|discriminate].
  assert (Hfresh : forall x, In x after -> ~ In x rl1).
  { intros x Ha Hin. destruct (Hsub1 x Hin) as [[]|Hb].
    apply (Hdisj x Ha). apply in_rev. exact Hb. }
  destruct (searchForward_NoDup _ _ _ _ _ _ _ _ _ _ _ Hrun2 Hnda Hnd1 Hfresh)
    as [Hnd2 _].
  destruct f as [r2|]; injection Hrun as <- <- <-; exact Hnd2.
Qed.

Lemma resolve_lists_no_object_twice_witness :
  NoDup [(moA, 0%nat); (moB, 1%nat); (moC, 2%nat)].
Proof.
  eapply (resolve_lists_no_object_twice (modelSolver threeModels) stoppedClock
            flatSpace symbolicOffset 0%nat 0 initialWorld false).
  - exact sorted_flatSpace.
  - reflexivity.
  - vm_compute. reflexivity.
Defined.

(** * Concrete shadow memory *)

Lemma bytesEqual_spec : forall l1 l2, bytesEqual l1 l2 = true <-> l1 = l2.
Proof.
  induction l1 as [|x t IH]; intros [|y t2]; simpl; split; try discriminate; auto.
  - intros H. apply andb_true_iff in H. destruct H as [Hx Ht].
    apply Z.eqb_eq in Hx. apply IH in Ht. congruence.
  - intros [= -> ->]. rewrite Z.eqb_refl. simpl. apply IH. reflexivity.
Qed.

Lemma deref_valid : forall h l s, deref h l = Some s -> (l < length h)%nat.
Proof.
  intros h l s H. unfold deref in H. apply nth_error_Some. congruence.
Qed.

Lemma keepsShared_refl : forall k h, keepsShared k h h.
Proof. intros k h l s H. exists s. auto. Qed.

(** One step of the loop of [copyInConcretes]: it returns, it gives up
    exactly on a read-only state that differs from native memory, and it
    writes only to a state this address space owns or to a fresh copy. *)
Lemma copyInConcrete_step : forall mem mo os a sp hc s,
  deref hc os = Some s ->
  exists b st',
    copyInConcrete mem mo os a (sp, hc) = Some (b, st')
    /\ cowKey (fst st') = cowKey sp
    /\ (b = false <-> readOnly s = true /\ diverged mem a s)
    /\ (b = false -> st' = (sp, hc))
    /\ keepsShared (cowKey sp) hc (snd st').
Proof.
  intros mem mo os a sp hc s Hd. unfold copyInConcrete. cbn [snd]. rewrite Hd.
  destruct (bytesEqual (readBytes mem a (length (concreteStore s))) (concreteStore s))
    eqn:Heq; cbn [negb].
  { apply bytesEqual_spec in Heq.
    exists true, (sp, hc). split; [reflexivity|]. split; [reflexivity|].
    split; [|split; [discriminate|apply keepsShared_refl]].
    split; [discriminate|]. intros [_ Hdiv]. contradiction. }
  assert (Hdiv : diverged mem a s).
  { intros H. apply bytesEqual_spec in H. unfold diverged in *. congruence. }
  destruct (readOnly s) eqn:Hro.
  { exists false, (sp, hc). split; [reflexivity|]. split; [reflexivity|].
    split; [split; auto|]. split; [reflexivity|apply keepsShared_refl]. }
  unfold getWriteable. rewrite Hd, Hro.
  destruct (Z.eqb_spec (cowKey sp) (copyOnWriteOwner s)) as [Hk|Hk].
  - cbn [snd fst]. rewrite Hd.
    eexists true, _. split; [reflexivity|]. split; [reflexivity|].
    split; [split; [discriminate|intros [H _]; discriminate]|].
    split; [discriminate|]. cbn [snd].
    intros l s0 Hl. destruct (Nat.eq_dec l os) as [->|Hne].
    + rewrite Hd in Hl. injection Hl as <-.
      rewrite (deref_store_same hc os _ s Hd). eexists. split; [reflexivity|].
      split; [reflexivity|]. intros [H|H]; [congruence|]. symmetry in Hk. contradiction.
    + rewrite (deref_store_other hc os l _) by congruence.
      exists s0. auto.
  - unfold alloc. cbn [snd fst].
    pose proof (deref_alloc_new hc (setOwner s (cowKey sp))) as Hnew.
    unfold alloc in Hnew. cbn [fst snd] in Hnew. rewrite Hnew.
    eexists true, _. split; [reflexivity|]. split; [reflexivity|].
    split; [split; [discriminate|intros [H _]; discriminate]|].
    split; [discriminate|]. cbn [snd].
    intros l s0 Hl. pose proof (deref_valid hc l s0 Hl) as Hlt.
    rewrite (deref_store_other (hc ++ [setOwner s (cowKey sp)]) (length hc) l _) by lia.
    pose proof (deref_alloc_old hc (setOwner s (cowKey sp)) l s0 Hl) as Hold.
    unfold alloc in Hold. cbn [snd] in Hold. rewrite Hold. exists s0. auto.
Qed.

Lemma keepsShared_trans : forall k h1 h2 h3,
  keepsShared k h1 h2 -> keepsShared k h2 h3 -> keepsShared k h1 h3.
Proof.
  intros k h1 h2 h3 H12 H23 l s Hl.
  destruct (H12 l s Hl) as [s2 [Hl2 [Hro2 Hsame2]]].
  destruct (H23 l s2 Hl2) as [s3 [Hl3 [Hro3 Hsame3]]].
  exists s3. split; [exact Hl3|]. split; [congruence|].
  intros Hc. specialize (Hsame2 Hc). subst s2. apply Hsame3. exact Hc.
Qed.

(** The loop of [copyInConcretes] from any point on. *)
Lemma copyInLoop_spec : forall isUserSpecified mem h l sp hc,
  keepsShared (cowKey sp) h hc ->
  (forall x, In x l -> exists s, deref h (snd x) = Some s) ->
  exists b st',
    copyInLoop isUserSpecified mem l (sp, hc) = Some (b, st')
    /\ (b = false <-> exists x, In x l /\ offending isUserSpecified mem h x)
    /\ keepsShared (cowKey sp) h (snd st').
Proof.
  intros isUserSpecified mem h. induction l as [|[mo os] rest IH]; intros sp hc Hinv Hval.
  - exists true, (sp, hc). split; [reflexivity|].
    split; [|exact Hinv]. split; [discriminate|]. intros [x [[] _]].
  - assert (Hvalrest : forall x, In x rest -> exists s, deref h (snd x) = Some s)
      by (intros x Hx; apply Hval; right; exact Hx).
    cbn [copyInLoop].
    destruct (isUserSpecified mo) eqn:Hus; cbn [negb].
    { destruct (IH sp hc Hinv Hvalrest) as [b [st' [Hrun [Hiff Hk]]]].
      exists b, st'. split; [exact Hrun|]. split; [|exact Hk].
      rewrite Hiff. split.
      - intros [x [Hx Hoff]]. exists x. split; [right; exact Hx|exact Hoff].
      - intros [x [[<-|Hx] Hoff]]; [|exists x; auto].
        destruct Hoff as [Hno _]. cbn [fst] in Hno. congruence. }
    destruct (Hval (mo, os) (or_introl eq_refl)) as [s0 Hs0]. cbn [snd] in Hs0.
    destruct (Hinv os s0 Hs0) as [s [Hs [Hro Hsame]]].
    destruct (copyInConcrete_step mem mo os (address mo) sp hc s Hs)
      as [b1 [[sp1 h1] [Hstep [Hkey [Hb1 [Hfail Hkeep]]]]]].
    rewrite Hstep. cbn [fst snd] in *.
    destruct b1.
    + assert (Hinv1 : keepsShared (cowKey sp1) h h1).
      { rewrite Hkey. eapply keepsShared_trans; eauto. }
      destruct (IH sp1 h1 Hinv1 Hvalrest) as [b [st' [Hrun [Hiff Hk]]]].
      exists b, st'. split; [exact Hrun|]. split; [|rewrite <- Hkey; exact Hk].
      rewrite Hiff. split.
      * intros [x [Hx Hoff]]. exists x. split; [right; exact Hx|exact Hoff].
      * intros [x [[<-|Hx] Hoff]]; [|exists x; auto].
        exfalso. destruct Hoff as [_ [s' [Hs' [Hro' Hdiv]]]]. cbn [fst snd] in *.
        rewrite Hs0 in Hs'. injection Hs' as <-.
        rewrite (Hsame (or_introl Hro')) in Hb1.
        assert (true = false); [|discriminate]. apply Hb1. auto.
    + exists false, (sp1, h1). split; [reflexivity|].
      split; [|eapply keepsShared_trans; eauto].
      split; [|reflexivity]. intros _. exists (mo, os). split; [left; reflexivity|].
      destruct (proj1 Hb1 eq_refl) as [Hro1 Hdiv].
      split; [exact Hus|]. exists s0. cbn [fst snd].
      assert (s = s0) by (apply Hsame; left; congruence). subst s.
      auto.
Qed.

(** [copyInConcretes] on an address space whose entries point to live
    object states: it returns, and it returns false exactly when some bound
    object that takes part in the shadowing is read-only and differs from
    native memory. *)
Theorem copyInConcretes_fails_exactly_when : forall isUserSpecified mem sp h,
  (forall x, In x (objects sp) -> exists s, deref h (snd x) = Some s) ->
  exists b st',
    copyInConcretes isUserSpecified mem (sp, h) = Some (b, st')
    /\ (b = false <->
        exists x, In x (objects sp) /\ offending isUserSpecified mem h x).
Proof.
  intros isUserSpecified mem sp h Hval.
  destruct (copyInLoop_spec isUserSpecified mem h (objects sp) sp h
              (keepsShared_refl _ _) Hval) as [b [st' [Hrun [Hiff _]]]].
  exists b, st'. split; [exact Hrun|exact Hiff].
Qed.

(** [copyInConcretes] respects copy-on-write: every location of the heap
    stays valid, and a state that is read-only or owned by another address
    space is left exactly as it was, whether the call succeeds or gives
    up. *)
Theorem copyInConcretes_keeps_shared_states : forall isUserSpecified mem sp h b st',
  (forall x, In x (objects sp) -> exists s, deref h (snd x) = Some s) ->
  copyInConcretes isUserSpecified mem (sp, h) = Some (b, st') ->
  forall l s, deref h l = Some s ->
    (readOnly s = true \/ copyOnWriteOwner s <> cowKey sp) ->
    deref (snd st') l = Some s.
Proof.
  intros isUserSpecified mem sp h b st' Hval Hrun l s Hl Hc.
  destruct (copyInLoop_spec isUserSpecified mem h (objects sp) sp h
              (keepsShared_refl _ _) Hval) as [b0 [st0 [Hrun0 [_ Hkeep]]]].
  unfold copyInConcretes in Hrun. cbn [fst] in Hrun.
  rewrite Hrun in Hrun0. injection Hrun0 as <- <-.
  destruct (Hkeep l s Hl) as [s' [Hl' [_ Hsame]]].
  rewrite (Hsame Hc) in Hl'. exact Hl'.
Qed.

Lemma shadowHeap_valid :
  forall x, In x (objects shadowSpace) -> exists s, deref shadowHeap (snd x) = Some s.
Proof. intros x [<-|[<-|[]]]; eexists; reflexivity. Qed.

Lemma copyInConcretes_fails_exactly_when_witness :
  exists b st',
    copyInConcretes noneUserSpecified nativeZero (shadowSpace, shadowHeap) = Some (b, st')
    /\ (b = false <->
        exists x, In x (objects shadowSpace)
                  /\ offending noneUserSpecified nativeZero shadowHeap x).
Proof.
  exact (copyInConcretes_fails_exactly_when noneUserSpecified nativeZero
           shadowSpace shadowHeap shadowHeap_valid).
Defined.

Lemma copyInConcretes_keeps_shared_states_witness :
  deref (shadowHeap ++ [mkObjectState false 7 [0; 0; 0; 0]]) 0%nat
  = Some (mkObjectState false 9 [1; 2; 3; 4]).
Proof.
  apply (copyInConcretes_keeps_shared_states noneUserSpecified nativeZero
           shadowSpace shadowHeap true
           (mkAddressSpace 7 [(moA, 2%nat); (moB, 1%nat)] [],
            shadowHeap ++ [mkObjectState false 7 [0; 0; 0; 0]])
           shadowHeap_valid eq_refl 0%nat (mkObjectState false 9 [1; 2; 3; 4]) eq_refl).
  right. discriminate.
Defined.

(** ** After a successful [copyInConcretes] *)

Lemma length_readBytes : forall mem a n, length (readBytes mem a n) = n.
Proof. intros. unfold readBytes. rewrite length_map, length_seq. reflexivity. Qed.

Lemma length_store : forall h l v, length (store h l v) = length h.
Proof.
  induction h as [|x t IH]; intros [|l] v; simpl; try reflexivity.
  rewrite IH. reflexivity.
Qed.

(** One successful step: the object is in step afterwards, through its old
    state or a fresh one, and nothing else moves. *)
Lemma copyInConcrete_success : forall mem mo os sp hc s sp1 h1,
  deref hc os = Some s ->
  findObject mo sp = Some os ->
  copyInConcrete mem mo os (address mo) (sp, hc) = Some (true, (sp1, h1)) ->
  (exists os1 s1,
     findObject mo sp1 = Some os1 /\ deref h1 os1 = Some s1
     /\ concreteStore s1 = readBytes mem (address mo) (length (concreteStore s))
     /\ (os1 = os \/ os1 = length hc))
  /\ (length hc <= length h1)%nat
  /\ (forall mo', address mo' <> address mo -> findObject mo' sp1 = findObject mo' sp)
  /\ (forall os' s', deref hc os' = Some s' -> os' <> os -> deref h1 os' = Some s').
Proof.
  intros mem mo os sp hc s sp1 h1 Hd Hbound Hrun.
  unfold copyInConcrete in Hrun. cbn [snd] in Hrun. rewrite Hd in Hrun.
  destruct (bytesEqual (readBytes mem (address mo) (length (concreteStore s)))
              (concreteStore s)) eqn:Heq; cbn [negb] in Hrun.
  { apply bytesEqual_spec in Heq. injection Hrun as <- <-.
    split; [exists os, s; auto|]. split; [lia|]. split; auto. }
  destruct (readOnly s) eqn:Hro; [discriminate|].
  unfold getWriteable in Hrun. rewrite Hd, Hro in Hrun.
  destruct (Z.eqb_spec (cowKey sp) (copyOnWriteOwner s)) as [Hk|Hk].
  - cbn [snd fst] in Hrun. rewrite Hd in Hrun. injection Hrun as <- <-.
    split.
    { eexists os, _. split; [exact Hbound|].
      split; [apply (deref_store_same hc os _ s Hd)|].
      split; [|left; reflexivity].
      reflexivity. }
    split; [rewrite length_store; lia|]. split; [reflexivity|].
    intros os' s' Hd' Hne. rewrite deref_store_other by exact Hne. exact Hd'.
  - unfold alloc in Hrun. cbn [snd fst] in Hrun.
    pose proof (deref_alloc_new hc (setOwner s (cowKey sp))) as Hnew.
    unfold alloc in Hnew. cbn [fst snd] in Hnew. rewrite Hnew in Hrun.
    injection Hrun as <- <-.
    split.
    { eexists (length hc), _. split.
      - unfold findObject. cbn [objects]. rewrite lookup_replace.
        unfold moKey at 1. cbn [fst]. rewrite Z.eqb_refl. reflexivity.
      - split; [apply (deref_store_same _ _ _ _ Hnew)|].
        split; [|right; reflexivity].
        reflexivity. }
    split; [rewrite length_store, length_app; simpl; lia|].
    split.
    + intros mo' Hne. unfold findObject. cbn [objects]. rewrite lookup_replace.
      unfold moKey at 1. cbn [fst].
      destruct (Z.eqb_spec (address mo') (address mo)); [contradiction|reflexivity].
    + intros os' s' Hd' Hne. pose proof (deref_valid hc os' s' Hd') as Hlt.
      rewrite deref_store_other by lia.
      pose proof (deref_alloc_old hc (setOwner s (cowKey sp)) os' s' Hd') as Hold.
      unfold alloc in Hold. cbn [snd] in Hold. exact Hold.
Qed.

Lemma copyInLoop_success : forall isUserSpecified mem n0 l sp hc st',
  (forall x, In x l -> findObject (fst x) sp = Some (snd x)) ->
  NoDup (map moKey l) -> NoDup (map snd l) ->
  (forall x, In x l -> (snd x < n0)%nat) -> (n0 <= length hc)%nat ->
  copyInLoop isUserSpecified mem l (sp, hc) = Some (true, st') ->
  (forall x, In x l -> isUserSpecified (fst x) = false ->
     forall s0, deref hc (snd x) = Some s0 ->
       inStep mem st' (fst x) (length (concreteStore s0)))
  /\ (forall mo os s,
        ~ In (address mo) (map moKey l) -> ~ In os (map snd l) ->
        findObject mo sp = Some os -> deref hc os = Some s ->
        findObject mo (fst st') = Some os /\ deref (snd st') os = Some s).
Proof.
  intros isUserSpecified mem n0. induction l as [|[mo os] rest IH];
    intros sp hc st' Hbound Hkeys Hlocs Hlow Hn0 Hrun.
  - injection Hrun as <-. split; [intros x []|]. intros mo os s _ _ Hf Hd. auto.
  - cbn [copyInLoop] in Hrun.
    inversion Hkeys as [|? ? Hk1 Hk2]; subst. inversion Hlocs as [|? ? Hl1 Hl2]; subst.
    change (moKey (mo, os)) with (address mo) in Hk1. cbn [snd] in Hl1.
    assert (Hboundr : forall x, In x rest -> findObject (fst x) sp = Some (snd x))
      by (intros x Hx; apply Hbound; right; exact Hx).
    assert (Hlowr : forall x, In x rest -> (snd x < n0)%nat)
      by (intros x Hx; apply Hlow; right; exact Hx).
    destruct (isUserSpecified mo) eqn:Hus; cbn [negb] in Hrun.
    { destruct (IH sp hc st' Hboundr Hk2 Hl2 Hlowr Hn0 Hrun) as [Hgood Hframe].
      split.
      - intros x [<-|Hx] Hx0; [cbn [fst] in Hx0; congruence|apply Hgood; assumption].
      - intros mo' os' s' Hk Hl. apply Hframe; intros Hin; [apply Hk|apply Hl];
          right; exact Hin. }
    assert (Hos : (os < length hc)%nat).
    { specialize (Hlow (mo, os) (or_introl eq_refl)). cbn [snd] in Hlow. lia. }
    destruct (deref hc os) as [s|] eqn:Hd.
    2: { apply nth_error_None in Hd. lia. }
    destruct (copyInConcrete mem mo os (address mo) (sp, hc)) as [[b [sp1 h1]]|] eqn:Hstep;
      [|discriminate].
    destruct b; [|discriminate].
    destruct (copyInConcrete_success mem mo os sp hc s sp1 h1 Hd
                (Hbound (mo, os) (or_introl eq_refl)) Hstep)
      as [[os1 [s1 [Hf1 [Hd1 [Hbytes Hwhere]]]]] [Hlen [Hfr1 Hfr2]]].
    assert (Hnotin : forall x, In x rest -> address (fst x) <> address mo /\ snd x <> os).
    { intros x Hx. split; intros Heq.
      - apply Hk1. rewrite <- Heq. apply (in_map moKey rest x Hx).
      - apply Hl1. rewrite <- Heq. apply (in_map snd rest x Hx). }
    assert (Hbound1 : forall x, In x rest -> findObject (fst x) sp1 = Some (snd x)).
    { intros x Hx. rewrite Hfr1 by (apply Hnotin; exact Hx). apply Hboundr. exact Hx. }
    destruct (IH sp1 h1 st' Hbound1 Hk2 Hl2 Hlowr ltac:(lia) Hrun) as [Hgood Hframe].
    split.
    + intros x [<-|Hx] Hx0 s0 Hs0.
      2: { apply (Hgood x Hx Hx0). apply Hfr2; [exact Hs0|].
           apply Hnotin. exact Hx. }
      cbn [fst snd] in *. rewrite Hd in Hs0. injection Hs0 as <-.
      assert (Hfresh : ~ In os1 (map snd rest)).
      { intros Hin. apply in_map_iff in Hin. destruct Hin as [y [Hy1 Hy2]].
        destruct Hwhere as [->| ->].
        - apply (proj2 (Hnotin y Hy2)). exact Hy1.
        - specialize (Hlowr y Hy2). lia. }
      destruct (Hframe mo os1 s1 Hk1 Hfresh Hf1 Hd1) as [Hf Hd'].
      exists os1, s1. auto.
    + intros mo' os' s' Hk Hl Hf Hd'.
      assert (Ha : address mo' <> address mo)
        by (intros Heq; apply Hk; left; unfold moKey; cbn [fst]; congruence).
      assert (Ho : os' <> os) by (intros Heq; apply Hl; left; cbn [snd]; congruence).
      apply Hframe.
      * intros Hin. apply Hk. right. exact Hin.
      * intros Hin. apply Hl. right. exact Hin.
      * rewrite Hfr1 by exact Ha. exact Hf.
      * apply Hfr2; assumption.
Qed.

Lemma sorted_NoDup_keys : forall {E : Type} (key : E -> Z) (l : list E),
  ImmutableMap.sorted key l -> NoDup (map key l).
Proof.
  intros E key. induction l as [|e t IH]; simpl; intros H; [constructor|].
  destruct H as [Hlt Hs]. constructor; [|auto].
  intros Hin. apply in_map_iff in Hin. destruct Hin as [x [Hx1 Hx2]].
  specialize (Hlt x Hx2). lia.
Qed.

(** When [copyInConcretes] returns true, every bound object that takes
    part in the shadowing is in step with native memory: the state the
    address space now binds to it holds the bytes found at its address, as
    many of them as the store of its state held before the call.  The
    object map is keyed by address and no state is bound twice. *)
Theorem copyInConcretes_success_in_step : forall isUserSpecified mem sp h st',
  ImmutableMap.sorted moKey (objects sp) ->
  NoDup (map snd (objects sp)) ->
  (forall x, In x (objects sp) -> exists s, deref h (snd x) = Some s) ->
  copyInConcretes isUserSpecified mem (sp, h) = Some (true, st') ->
  forall x, In x (objects sp) -> isUserSpecified (fst x) = false ->
    forall s0, deref h (snd x) = Some s0 ->
      inStep mem st' (fst x) (length (concreteStore s0)).
Proof.
  intros isUserSpecified mem sp h st' Hs Hnd Hval Hrun.
  apply (copyInLoop_success isUserSpecified mem (length h) (objects sp) sp h st').
  - intros [mo os] Hx. unfold findObject. cbn [fst snd].
    pose proof (lookup_sorted_in moKey (objects sp) (mo, os) Hs Hx) as Hl.
    change (moKey (mo, os)) with (address mo) in Hl. rewrite Hl. reflexivity.
  - apply sorted_NoDup_keys. exact Hs.
  - exact Hnd.
  - intros x Hx. destruct (Hval x Hx) as [s Hd]. eapply deref_valid; eauto.
  - lia.
  - exact Hrun.
Qed.

Lemma copyInConcretes_success_in_step_witness :
  inStep nativeZero
    (mkAddressSpace 7 [(moA, 2%nat); (moB, 1%nat)] [],
     shadowHeap ++ [mkObjectState false 7 [0; 0; 0; 0]]) moA
    (length (concreteStore (mkObjectState false 9 [1; 2; 3; 4]))).
Proof.
  apply (copyInConcretes_success_in_step noneUserSpecified nativeZero
           shadowSpace shadowHeap _
           ltac:(split; [intros x [<-|[]]; reflexivity|split; [intros x []|exact I]])
           ltac:(repeat constructor; simpl; intuition discriminate)
           shadowHeap_valid eq_refl (moA, 0%nat)).
  - left. reflexivity.
  - reflexivity.
  - reflexivity.
Defined.

(** ** Copying out and back in *)

Lemma readBytes_ext : forall mem mem' a n,
  (forall x, a <= x < a + Z.of_nat n -> mem' x = mem x) ->
  readBytes mem' a n = readBytes mem a n.
Proof.
  intros mem mem' a n H. unfold readBytes. apply map_ext_in.
  intros i Hi. apply in_seq in Hi. apply H. lia.
Qed.

Lemma memcpy_outside : forall mem a data x,
  ~ (a <= x < a + Z.of_nat (length data)) -> memcpy mem a data x = mem x.
Proof.
  intros mem a data x H. unfold memcpy.
  destruct (Z.leb_spec a x); destruct (Z.ltb_spec x (a + Z.of_nat (length data)));
    simpl; try reflexivity. lia.
Qed.

Lemma readBytes_memcpy : forall mem a data,
  readBytes (memcpy mem a data) a (length data) = data.
Proof.
  intros mem a data. apply nth_error_ext. intros i. unfold readBytes.
  rewrite nth_error_map.
  destruct (Nat.lt_ge_cases i (length data)) as [Hlt|Hge].
  - rewrite nth_error_seq. destruct (Nat.ltb_spec i (length data)); [|lia].
    cbn [option_map Nat.add]. unfold memcpy.
    destruct (Z.leb_spec a (a + Z.of_nat i)); [|lia].
    destruct (Z.ltb_spec (a + Z.of_nat i) (a + Z.of_nat (length data))); [|lia].
    cbn [andb]. replace (a + Z.of_nat i - a) with (Z.of_nat i) by lia.
    rewrite Nat2Z.id. symmetry. apply nth_error_nth'. exact Hlt.
  - rewrite (proj2 (nth_error_None data i)) by exact Hge.
    rewrite (proj2 (nth_error_None (seq 0 (length data)) i))
      by (rewrite length_seq; exact Hge).
    reflexivity.
Qed.

Lemma length_resize : forall l n v, length (resize l n v) = n.
Proof.
  intros l n v. unfold resize. rewrite length_app, length_firstn, repeat_length. lia.
Qed.

Lemma resize_same : forall l v, resize l (length l) v = l.
Proof.
  intros l v. unfold resize. rewrite firstn_all, Nat.sub_diag. apply app_nil_r.
Qed.

Lemma setStore_same : forall s, setStore s (concreteStore s) = s.
Proof. intros [ro k cs]. reflexivity. Qed.

Lemma keepsSized_refl : forall sizeBound h, keepsSized sizeBound h h.
Proof. intros sizeBound h l s H. exists s. auto. Qed.

Lemma writable_store : forall h os s bytes l,
  deref h os = Some s ->
  writable (store h os (setStore s bytes)) l = writable h l.
Proof.
  intros h os s bytes l Hd. unfold writable.
  destruct (Nat.eq_dec l os) as [->|Hne].
  - rewrite (deref_store_same h os _ s Hd), Hd. reflexivity.
  - rewrite deref_store_other by exact Hne. reflexivity.
Qed.

(** [copyOutConcretes] from any point on: it returns on live states, it
    changes a state only by bringing its store to [sizeBound] bytes, and it
    changes native memory only inside the ranges of the writable objects it
    copies out. *)
Lemma copyOutLoop_frames : forall isUserSpecified sizeBound initialValue l h mem,
  (forall x, In x l -> exists s, deref h (snd x) = Some s) ->
  exists h' mem',
    copyOutLoop isUserSpecified sizeBound initialValue l h mem = Some (h', mem')
    /\ keepsSized sizeBound h h'
    /\ forall a,
         (forall y, In y l -> isUserSpecified (fst y) = false ->
                    writable h (snd y) = true ->
                    ~ (address (fst y) <= a < address (fst y) + Z.of_nat (sizeBound (snd y)))) ->
         mem' a = mem a.
Proof.
  intros isUserSpecified sizeBound initialValue.
  induction l as [|[mo os] rest IH]; intros h mem Hval.
  - exists h, mem. split; [reflexivity|]. split; [apply keepsSized_refl|auto].
  - assert (Hvalr : forall x, In x rest -> exists s, deref h (snd x) = Some s)
      by (intros x Hx; apply Hval; right; exact Hx).
    cbn [copyOutLoop].
    destruct (isUserSpecified mo) eqn:Hus; cbn [negb].
    { destruct (IH h mem Hvalr) as [h' [mem' [Hrun [Hk Hm]]]].
      exists h', mem'. split; [exact Hrun|]. split; [exact Hk|].
      intros a Ha. apply Hm. intros y Hy. apply Ha. right. exact Hy. }
    destruct (Hval (mo, os) (or_introl eq_refl)) as [s Hd]. cbn [snd] in Hd.
    rewrite Hd. destruct (readOnly s) eqn:Hro; cbn [negb].
    { destruct (IH h mem Hvalr) as [h' [mem' [Hrun [Hk Hm]]]].
      exists h', mem'. split; [exact Hrun|]. split; [exact Hk|].
      intros a Ha. apply Hm. intros y Hy. apply Ha. right. exact Hy. }
    set (R := resize (concreteStore s) (sizeBound os) (initialValue os)).
    set (h1 := store h os (setStore s R)).
    assert (Hval1 : forall x, In x rest -> exists s1, deref h1 (snd x) = Some s1).
    { intros x Hx. destruct (Hvalr x Hx) as [sx Hsx]. unfold h1.
      destruct (Nat.eq_dec (snd x) os) as [->|Hne].
      - rewrite (deref_store_same h os _ s Hd). eauto.
      - rewrite deref_store_other by exact Hne. eauto. }
    destruct (IH h1 (memcpy mem (address mo) R) Hval1) as [h' [mem' [Hrun [Hk Hm]]]].
    exists h', mem'. split; [exact Hrun|]. split.
    + intros l s0 Hl. destruct (Nat.eq_dec l os) as [->|Hne].
      * rewrite Hd in Hl. injection Hl as <-.
        destruct (Hk os (setStore s R) (deref_store_same h os _ s Hd))
          as [s' [Hs' [Hro' Hsame]]].
        exists s'. split; [exact Hs'|]. split; [exact Hro'|].
        intros [Hc|Hc]; [congruence|].
        assert (HR : R = concreteStore s)
          by (unfold R; rewrite <- Hc; apply resize_same).
        rewrite HR, setStore_same in Hsame. apply Hsame. right. exact Hc.
      * apply Hk. unfold h1. rewrite deref_store_other by exact Hne. exact Hl.
    + intros a Ha. rewrite Hm.
      * apply memcpy_outside. unfold R. rewrite length_resize.
        apply (Ha (mo, os) (or_introl eq_refl) Hus).
        unfold writable. cbn [snd]. rewrite Hd, Hro. reflexivity.
      * intros y Hy Hy0 Hw. apply Ha; [right; exact Hy|exact Hy0|].
        unfold h1 in Hw. rewrite (writable_store h os s R _ Hd) in Hw. exact Hw.
Qed.

Lemma footprint_store : forall sizeBound h os s bytes x,
  deref h os = Some s -> readOnly s = false ->
  footprint sizeBound (store h os (setStore s bytes)) x = footprint sizeBound h x.
Proof.
  intros sizeBound h os s bytes x Hd Hro. unfold footprint.
  destruct (Nat.eq_dec (snd x) os) as [->|Hne].
  - rewrite (deref_store_same h os _ s Hd), Hd. cbn [setStore readOnly].
    rewrite Hro. reflexivity.
  - rewrite deref_store_other by exact Hne. reflexivity.
Qed.

Lemma shadowLayout_store : forall isUserSpecified sizeBound h os s bytes l,
  deref h os = Some s -> readOnly s = false ->
  shadowLayout isUserSpecified sizeBound h l ->
  shadowLayout isUserSpecified sizeBound (store h os (setStore s bytes)) l.
Proof.
  intros isUserSpecified sizeBound h os s bytes l Hd Hro.
  induction l as [|x t IH]; simpl; [auto|]. intros [Hx Ht]. split; [|auto].
  intros y Hy Hx0 Hy0 a. unfold inFootprint.
  rewrite !(footprint_store sizeBound h os s bytes) by assumption.
  apply Hx; assumption.
Qed.

(** After [copyOutConcretes] every object that takes part in the shadowing
    agrees with native memory, provided the native ranges do not overlap
    and the read-only objects agreed beforehand. *)
Lemma copyOutLoop_agrees : forall isUserSpecified sizeBound initialValue l h mem h' mem',
  (forall x, In x l -> exists s, deref h (snd x) = Some s) ->
  shadowLayout isUserSpecified sizeBound h l ->
  (forall x, In x l -> ~ offending isUserSpecified mem h x) ->
  copyOutLoop isUserSpecified sizeBound initialValue l h mem = Some (h', mem') ->
  forall x, In x l -> isUserSpecified (fst x) = false -> agrees mem' h' x.
Proof.
  intros isUserSpecified sizeBound initialValue.
  induction l as [|[mo os] rest IH]; intros h mem h' mem' Hval Hlay Hoff Hrun;
    [intros x []|].
  assert (Hvalr : forall x, In x rest -> exists s, deref h (snd x) = Some s)
    by (intros x Hx; apply Hval; right; exact Hx).
  assert (Hoffr : forall x, In x rest -> ~ offending isUserSpecified mem h x)
    by (intros x Hx; apply Hoff; right; exact Hx).
  destruct Hlay as [Hhead Hlayr].
  cbn [copyOutLoop] in Hrun.
  destruct (isUserSpecified mo) eqn:Hus; cbn [negb] in Hrun.
  { intros x [<-|Hx] Hx0; [cbn [fst] in Hx0; congruence|]. eapply IH; eauto. }
  destruct (Hval (mo, os) (or_introl eq_refl)) as [s Hd]. cbn [snd] in Hd.
  rewrite Hd in Hrun.
  destruct (readOnly s) eqn:Hro; cbn [negb] in Hrun.
  - (* a read-only object is left alone and nothing later reaches it *)
    destruct (copyOutLoop_frames isUserSpecified sizeBound initialValue rest h mem Hvalr)
      as [h0 [mem0 [Hrun0 [Hk Hm]]]].
    rewrite Hrun in Hrun0. injection Hrun0 as <- <-.
    intros x [<-|Hx] Hx0; [|eapply IH; eauto].
    destruct (Hk os s Hd) as [s' [Hs' [_ Hsame]]].
    rewrite (Hsame (or_introl Hro)) in Hs'.
    exists s. split; [exact Hs'|]. cbn [fst]. unfold diverged. intros Hdiv. apply Hdiv.
    rewrite (readBytes_ext mem mem').
    + destruct (list_eq_dec Z.eq_dec
                  (readBytes mem (address mo) (length (concreteStore s)))
                  (concreteStore s)) as [He|Hne]; [exact He|].
      exfalso. apply (Hoff (mo, os) (or_introl eq_refl)).
      split; [exact Hus|]. exists s. auto.
    + intros a Ha. apply Hm. intros y Hy Hy0 Hw Hin.
      apply (Hhead y Hy Hus Hy0 a).
      * unfold inFootprint, footprint. cbn [fst snd]. rewrite Hd, Hro. exact Ha.
      * unfold inFootprint, footprint. unfold writable in Hw.
        destruct (deref h (snd y)) as [sy|]; [|discriminate].
        destruct (readOnly sy); [discriminate|]. exact Hin.
  - (* a writable object is copied out and nothing later reaches it *)
    set (R := resize (concreteStore s) (sizeBound os) (initialValue os)) in *.
    set (h1 := store h os (setStore s R)) in *.
    assert (Hval1 : forall x, In x rest -> exists s1, deref h1 (snd x) = Some s1).
    { intros x Hx. destruct (Hvalr x Hx) as [sx Hsx]. unfold h1.
      destruct (Nat.eq_dec (snd x) os) as [->|Hne].
      - rewrite (deref_store_same h os _ s Hd). eauto.
      - rewrite deref_store_other by exact Hne. eauto. }
    destruct (copyOutLoop_frames isUserSpecified sizeBound initialValue rest h1
                (memcpy mem (address mo) R) Hval1) as [h0 [mem0 [Hrun0 [Hk Hm]]]].
    rewrite Hrun in Hrun0. injection Hrun0 as <- <-.
    assert (HlenR : length R = sizeBound os) by (unfold R; apply length_resize).
    intros x [<-|Hx] Hx0.
    + destruct (Hk os (setStore s R) (deref_store_same h os _ s Hd))
        as [s' [Hs' [_ Hsame]]].
      rewrite (Hsame (or_intror HlenR)) in Hs'.
      exists (setStore s R). split; [exact Hs'|]. cbn [fst]. unfold diverged.
      intros Hdiv. apply Hdiv. cbn [setStore concreteStore].
      rewrite (readBytes_ext (memcpy mem (address mo) R) mem').
      * apply readBytes_memcpy.
      * intros a Ha. apply Hm. intros y Hy Hy0 Hw Hin.
        apply (Hhead y Hy Hus Hy0 a).
        -- unfold inFootprint, footprint. cbn [fst snd]. rewrite Hd, Hro.
           rewrite <- HlenR. exact Ha.
        -- unfold h1 in Hw. rewrite (writable_store h os s R _ Hd) in Hw.
           unfold inFootprint, footprint. unfold writable in Hw.
           destruct (deref h (snd y)) as [sy|]; [|discriminate].
           destruct (readOnly sy); [discriminate|]. exact Hin.
    + apply (IH h1 (memcpy mem (address mo) R) h' mem' Hval1); auto.
      * apply shadowLayout_store; assumption.
      * intros y Hy [Hy0 [sy [Hsy [Hroy Hdiv]]]].
        assert (Hne : snd y <> os).
        { intros Heq. unfold h1 in Hsy. rewrite Heq in Hsy.
          rewrite (deref_store_same h os _ s Hd) in Hsy. injection Hsy as <-.
          cbn [setStore readOnly] in Hroy. congruence. }
        unfold h1 in Hsy. rewrite deref_store_other in Hsy by exact Hne.
        apply (Hoffr y Hy). split; [exact Hy0|]. exists sy.
        split; [exact Hsy|]. split; [exact Hroy|].
        unfold diverged in *. intros He. apply Hdiv. rewrite <- He at 2.
        apply readBytes_ext. intros a Ha. apply memcpy_outside. rewrite HlenR.
        intros Hin. apply (Hhead y Hy Hus Hy0 a).
        -- unfold inFootprint, footprint. cbn [fst snd]. rewrite Hd, Hro. exact Hin.
        -- unfold inFootprint, footprint. rewrite Hsy, Hroy. exact Ha.
Qed.

(** When every object that takes part agrees with native memory,
    [copyInConcretes] returns true and changes nothing. *)
Lemma copyInLoop_quiet : forall isUserSpecified mem l sp h,
  (forall x, In x l -> isUserSpecified (fst x) = false -> agrees mem h x) ->
  copyInLoop isUserSpecified mem l (sp, h) = Some (true, (sp, h)).
Proof.
  intros isUserSpecified mem. induction l as [|[mo os] rest IH]; intros sp h Hag;
    [reflexivity|].
  cbn [copyInLoop].
  assert (Hagr : forall x, In x rest -> isUserSpecified (fst x) = false -> agrees mem h x)
    by (intros x Hx; apply Hag; right; exact Hx).
  destruct (isUserSpecified mo) eqn:Hus; cbn [negb]; [apply IH; exact Hagr|].
  destruct (Hag (mo, os) (or_introl eq_refl) Hus) as [s [Hd Hsame]].
  cbn [fst snd] in Hd, Hsame. unfold copyInConcrete. cbn [snd]. rewrite Hd.
  assert (Heq : bytesEqual (readBytes mem (address mo) (length (concreteStore s)))
                  (concreteStore s) = true).
  { apply bytesEqual_spec.
    destruct (list_eq_dec Z.eq_dec
                (readBytes mem (address mo) (length (concreteStore s)))
                (concreteStore s)) as [He|Hne]; [exact He|contradiction]. }
  rewrite Heq. cbn [negb]. apply IH. exact Hagr.
Qed.

(** Copying out and straight back in is quiet: when the native ranges of
    the objects that take part do not overlap and the read-only ones agree
    with native memory, [copyOutConcretes] returns and the [copyInConcretes]
    that follows returns true and leaves the address space and every object
    state as [copyOutConcretes] left them. *)
Theorem copy_out_then_in_is_quiet :
  forall isUserSpecified sizeBound initialValue sp h mem,
  (forall x, In x (objects sp) -> exists s, deref h (snd x) = Some s) ->
  shadowLayout isUserSpecified sizeBound h (objects sp) ->
  (forall x, In x (objects sp) -> ~ offending isUserSpecified mem h x) ->
  exists h' mem',
    copyOutConcretes isUserSpecified sizeBound initialValue (sp, h) mem = Some (h', mem')
    /\ copyInConcretes isUserSpecified mem' (sp, h') = Some (true, (sp, h')).
Proof.
  intros isUserSpecified sizeBound initialValue sp h mem Hval Hlay Hoff.
  destruct (copyOutLoop_frames isUserSpecified sizeBound initialValue (objects sp) h mem Hval)
    as [h' [mem' [Hrun _]]].
  exists h', mem'. split; [exact Hrun|].
  unfold copyInConcretes. cbn [fst]. apply copyInLoop_quiet.
  eapply copyOutLoop_agrees; eauto.
Qed.

Lemma copy_out_then_in_is_quiet_witness :
  exists h' mem',
    copyOutConcretes noneUserSpecified fourBytes zeroFill (shadowSpace, shadowHeap)
      nativeZero = Some (h', mem')
    /\ copyInConcretes noneUserSpecified mem' (shadowSpace, h')
       = Some (true, (shadowSpace, h')).
Proof.
  apply (copy_out_then_in_is_quiet noneUserSpecified fourBytes zeroFill
           shadowSpace shadowHeap nativeZero).
  - exact shadowHeap_valid.
  - split; [|split; [intros y []|exact I]].
    intros y [<-|[]] _ _ a. unfold inFootprint.
    change (footprint fourBytes shadowHeap (moA, 0%nat)) with 4.
    change (footprint fourBytes shadowHeap (moB, 1%nat)) with 2.
    change (address (fst (moA, 0%nat))) with 4096.
    change (address (fst (moB, 1%nat))) with 8192. lia.
  - intros x [<-|[<-|[]]] [_ [s [Hs [Hro Hdiv]]]]; vm_compute in Hs;
      injection Hs as <-; [discriminate|]. apply Hdiv. reflexivity.
Defined.

(** * [strtok] *)

Lemma nth_error_skipn_at : forall (mem : list Z) i j,
  nth_error (skipn i mem) j = nth_error mem (i + j).
Proof.
  induction mem as [|x t IH]; intros [|i] j; simpl; try reflexivity.
  - destruct j; reflexivity.
  - apply IH.
Qed.

Lemma skipn_view : forall (mem : list Z) i a b,
  skipn i mem = a ++ b -> skipn (i + length a) mem = b.
Proof.
  intros mem i a b H. rewrite Nat.add_comm, <- skipn_skipn, H.
  rewrite skipn_app, skipn_all, Nat.sub_diag. reflexivity.
Qed.

Lemma skipn_head : forall (mem : list Z) i d rest,
  skipn i mem = d :: rest -> nth_error mem i = Some d.
Proof.
  intros mem i d rest H. rewrite <- (Nat.add_0_r i), <- nth_error_skipn_at, H.
  reflexivity.
Qed.

Lemma skipn_poke : forall mem i j v,
  (j <= i)%nat -> skipn j (poke mem i v) = poke (skipn j mem) (i - j) v.
Proof.
  induction mem as [|x t IH]; intros i j v Hle.
  - destruct j; destruct i; reflexivity.
  - destruct j as [|j].
    + rewrite Nat.sub_0_r. reflexivity.
    + destruct i as [|i]; [lia|]. simpl. apply IH. lia.
Qed.

Lemma poke_app : forall a d rest v, poke (a ++ d :: rest) (length a) v = a ++ v :: rest.
Proof. induction a as [|x t IH]; intros; simpl; [reflexivity|]. rewrite IH. reflexivity. Qed.

Lemma nth_error_poke_other : forall mem i j v,
  i <> j -> nth_error (poke mem i v) j = nth_error mem j.
Proof.
  induction mem as [|x t IH]; intros [|i] [|j] v H; simpl; try reflexivity;
    try congruence. apply IH. congruence.
Qed.

(** What a scan has seen when it stops. *)
Lemma spanOf_split : forall keep l k,
  spanOf keep l = Some k ->
  exists a d rest,
    l = a ++ d :: rest /\ length a = k
    /\ Forall (fun c => c <> 0 /\ keep c = true) a
    /\ (d = 0 \/ keep d = false).
Proof.
  intros keep. induction l as [|c t IH]; intros k H; simpl in H; [discriminate|].
  destruct (Z.eqb_spec c 0) as [Hz|Hnz]; simpl in H.
  - injection H as <-. exists [], c, t. repeat split; auto.
  - destruct (keep c) eqn:Hk; simpl in H.
    + destruct (spanOf keep t) as [k'|] eqn:Hs; [|discriminate].
      injection H as <-. destruct (IH k' eq_refl) as [a [d [rest [-> [Hl [Ha Hd]]]]]].
      exists (c :: a), d, rest. simpl. repeat split; auto.
    + injection H as <-. exists [], c, t. repeat split; auto.
Qed.

Lemma spanOf_app : forall keep a d rest,
  Forall (fun c => c <> 0 /\ keep c = true) a ->
  (d = 0 \/ keep d = false) ->
  spanOf keep (a ++ d :: rest) = Some (length a).
Proof.
  intros keep a d rest Ha Hd. induction Ha as [|c a [Hc1 Hc2] Ha IH]; simpl.
  - destruct Hd as [->|Hd]; [reflexivity|]. rewrite Hd, orb_true_r. reflexivity.
  - destruct (Z.eqb_spec c 0); [contradiction|]. rewrite Hc2. simpl.
    rewrite IH. reflexivity.
Qed.

Lemma cstring_app : forall tok rest,
  Forall (fun c => c <> 0) tok -> cstring (tok ++ 0 :: rest) = Some tok.
Proof.
  intros tok rest H. induction H as [|c t Hc Ht IH]; simpl; [reflexivity|].
  destruct (Z.eqb_spec c 0); [contradiction|]. rewrite IH. reflexivity.
Qed.

(** A call of [strtok] that returns a token: the token is a non-empty run
    of characters that are not separators, read where the memory had it;
    the call has written at most one byte, a NUL over the separator that
    ended the token, and has saved the position after it. *)
Theorem strtok_token_shape : forall s sep st t st',
  strtok s sep st = Some (Some t, st') ->
  exists tok,
    stringAt (buffer st') t = Some tok
    /\ tok <> []
    /\ Forall (fun c => isSep sep c = false) tok
    /\ firstn (length tok) (skipn t (buffer st)) = tok
    /\ ((buffer st' = buffer st /\ saved st' = None
         /\ nth_error (buffer st) (t + length tok) = Some 0)
        \/ (exists c, nth_error (buffer st) (t + length tok) = Some c
                      /\ c <> 0 /\ isSep sep c = true)
           /\ buffer st' = poke (buffer st) (t + length tok) 0
           /\ saved st' = Some (S (t + length tok))).
Proof.
  intros s sep [mem p] t st' Hrun. unfold strtok in Hrun. cbn [buffer saved] in *.
  destruct (match s with Some i => Some i | None => p end) as [s0|]; [|discriminate].
  unfold strspn in Hrun.
  destruct (spanOf (isSep sep) (skipn s0 mem)) as [k|] eqn:Hspan; [|discriminate].
  destruct (spanOf_split _ _ _ Hspan) as [a [d [rest [Hview [Hk [_ Hd]]]]]].
  assert (Hs1 : skipn (s0 + k) mem = d :: rest)
    by (rewrite <- Hk; apply skipn_view; exact Hview).
  rewrite (skipn_head _ _ _ _ Hs1) in Hrun.
  destruct (Z.eqb_spec d 0) as [Hz|Hnz]; [discriminate|].
  destruct Hd as [Hd|Hd]; [contradiction|].
  unfold strcspn in Hrun. rewrite Hs1 in Hrun.
  destruct (spanOf (fun c => negb (isSep sep c)) (d :: rest)) as [j|] eqn:Hspan2;
    [|discriminate].
  destruct (spanOf_split _ _ _ Hspan2) as [tok [e [rest' [Hview2 [Hj [Htok He]]]]]].
  assert (Hp : skipn (s0 + k + j) mem = e :: rest').
  { rewrite <- Hj. apply skipn_view. rewrite Hs1. exact Hview2. }
  rewrite (skipn_head _ _ _ _ Hp) in Hrun.
  assert (Hne : tok <> []).
  { intros ->. simpl in Hview2. injection Hview2 as <- <-.
    destruct He as [He|He]; [contradiction|]. rewrite Hd in He. discriminate. }
  assert (Hnonsep : Forall (fun c => isSep sep c = false) tok).
  { eapply Forall_impl; [|exact Htok]. intros c [_ Hc]. simpl in Hc.
    destruct (isSep sep c); [discriminate|reflexivity]. }
  assert (Hnz' : Forall (fun c => c <> 0) tok)
    by (eapply Forall_impl; [|exact Htok]; intros c [Hc _]; exact Hc).
  assert (Hfirst : firstn (length tok) (skipn (s0 + k) mem) = tok).
  { rewrite Hs1, Hview2, firstn_app, firstn_all, Nat.sub_diag. simpl.
    apply app_nil_r. }
  subst j. exists tok.
  destruct (Z.eqb_spec e 0) as [He0|He0]; cbn [negb] in Hrun;
    injection Hrun as <- <-; cbn [buffer saved].
  - subst e. split.
    { unfold stringAt. rewrite Hs1, Hview2. apply cstring_app. exact Hnz'. }
    split; [exact Hne|]. split; [exact Hnonsep|]. split; [exact Hfirst|].
    left. split; [reflexivity|]. split; [reflexivity|].
    exact (skipn_head _ _ _ _ Hp).
  - split.
    { unfold stringAt. rewrite skipn_poke by lia.
      replace (s0 + k + length tok - (s0 + k))%nat with (length tok) by lia.
      rewrite Hs1, Hview2, poke_app. apply cstring_app. exact Hnz'. }
    split; [exact Hne|]. split; [exact Hnonsep|]. split; [exact Hfirst|].
    right. split; [|split; reflexivity].
    exists e. split; [exact (skipn_head _ _ _ _ Hp)|].
    split; [exact He0|]. destruct He as [He|He]; [contradiction|].
    simpl in He. destruct (isSep sep e); [reflexivity|discriminate].
Qed.

Lemma strtok_token_shape_witness :
  exists tok,
    stringAt [44; 44; 98; 0; 99; 0] 2%nat = Some tok
    /\ tok <> []
    /\ Forall (fun c => isSep [44] c = false) tok
    /\ firstn (length tok) (skipn 2%nat [44; 44; 98; 44; 99; 0]) = tok
    /\ (([44; 44; 98; 0; 99; 0] = [44; 44; 98; 44; 99; 0] /\ Some 4%nat = None
         /\ nth_error [44; 44; 98; 44; 99; 0] (2 + length tok) = Some 0)
        \/ (exists c, nth_error [44; 44; 98; 44; 99; 0] (2 + length tok) = Some c
                      /\ c <> 0 /\ isSep [44] c = true)
           /\ [44; 44; 98; 0; 99; 0] = poke [44; 44; 98; 44; 99; 0] (2 + length tok) 0
           /\ Some 4%nat = Some (S (2 + length tok))).
Proof.
  exact (strtok_token_shape (Some 0%nat) [44]
           (mkStrtokState [44; 44; 98; 44; 99; 0] None) 2%nat
           (mkStrtokState [44; 44; 98; 0; 99; 0] (Some 4%nat)) eq_refl).
Defined.

Lemma spanOf_terminated : forall keep l j,
  nth_error l j = Some 0 ->
  exists k, spanOf keep l = Some k /\ (k <= j)%nat.
Proof.
  intros keep. induction l as [|c t IH]; intros j H.
  - destruct j; discriminate.
  - simpl. destruct j as [|j].
    + injection H as ->. exists 0%nat. split; [reflexivity|lia].
    + simpl in H. destruct ((c =? 0) || negb (keep c)).
      * exists 0%nat. split; [reflexivity|lia].
      * destruct (IH j H) as [k [Hk Hle]]. rewrite Hk.
        exists (S k). split; [reflexivity|lia].
Qed.

Lemma spanOf_within : forall keep mem i j,
  (i <= j)%nat -> nth_error mem j = Some 0 ->
  exists k, spanOf keep (skipn i mem) = Some k /\ (i + k <= j)%nat.
Proof.
  intros keep mem i j Hle Hj.
  destruct (spanOf_terminated keep (skipn i mem) (j - i)) as [k [Hk Hb]].
  - rewrite nth_error_skipn_at. replace (i + (j - i))%nat with j by lia. exact Hj.
  - exists k. split; [exact Hk|lia].
Qed.

Lemma nth_error_within : forall (mem : list Z) i j,
  (i <= j)%nat -> nth_error mem j = Some 0 -> exists c, nth_error mem i = Some c.
Proof.
  intros mem i j Hle Hj.
  destruct (nth_error mem i) as [c|] eqn:Hi; [eauto|].
  apply nth_error_None in Hi.
  assert (j < length mem)%nat by (apply nth_error_Some; congruence). lia.
Qed.

(** On strings that end in a NUL [strtok] stays inside them: it returns
    without reading or writing beyond the NUL, the pointer it saves again
    points into a terminated string, and once it has returned null it
    returns null, with nothing changed, on every call that passes null. *)
Theorem strtok_stays_in_bounds : forall s sep st,
  savedOk st ->
  (forall i, s = Some i -> terminatedFrom (buffer st) i) ->
  exists r st',
    strtok s sep st = Some (r, st')
    /\ savedOk st'
    /\ length (buffer st') = length (buffer st)
    /\ (r = None -> strtok None sep st' = Some (None, st')).
Proof.
  intros s sep [mem p] Hsaved Hs. unfold savedOk in Hsaved. cbn [buffer saved] in *.
  unfold strtok. cbn [buffer saved].
  destruct (match s with Some i => Some i | None => p end) as [s0|] eqn:Hstart.
  2: { exists None, (mkStrtokState mem p). split; [reflexivity|].
       destruct s; [discriminate|]. subst p.
       split; [exact I|]. split; [reflexivity|]. intros _. reflexivity. }
  assert (Hterm : terminatedFrom mem s0).
  { destruct s as [i|]; [injection Hstart as <-; apply Hs; reflexivity|].
    subst p. exact Hsaved. }
  destruct Hterm as [J [HJ HJ0]].
  unfold strspn.
  destruct (spanOf_within (isSep sep) mem s0 J HJ HJ0) as [k [Hk Hkb]]. rewrite Hk.
  destruct (nth_error_within mem (s0 + k) J Hkb HJ0) as [c Hc]. rewrite Hc.
  destruct (Z.eqb_spec c 0) as [Hz|Hnz].
  { eexists None, _. split; [reflexivity|]. split; [exact I|].
    split; [reflexivity|]. intros _. reflexivity. }
  unfold strcspn.
  destruct (spanOf_within (fun x => negb (isSep sep x)) mem (s0 + k) J Hkb HJ0)
    as [j [Hj Hjb]].
  rewrite Hj.
  destruct (nth_error_within mem (s0 + k + j) J Hjb HJ0) as [d Hd]. rewrite Hd.
  destruct (Z.eqb_spec d 0) as [Hdz|Hdnz]; cbn [negb].
  - eexists (Some (s0 + k)%nat), _. split; [reflexivity|]. split; [exact I|].
    split; [reflexivity|discriminate].
  - eexists (Some (s0 + k)%nat), _. split; [reflexivity|].
    assert (Hlt : (s0 + k + j < J)%nat).
    { destruct (Nat.eq_dec (s0 + k + j) J) as [Heq|Hne]; [|lia].
      rewrite Heq in Hd. congruence. }
    split.
    { unfold savedOk. cbn [saved buffer]. exists J. split; [lia|].
      rewrite nth_error_poke_other by lia. exact HJ0. }
    split; [|discriminate]. cbn [buffer].
    clear. generalize (s0 + k + j)%nat. induction mem as [|x t IH]; intros [|n];
      simpl; try reflexivity. rewrite IH. reflexivity.
Qed.

Lemma strtok_stays_in_bounds_witness :
  exists r st',
    strtok None [44] (mkStrtokState [97; 0; 98; 0] (Some 2%nat)) = Some (r, st')
    /\ savedOk st'
    /\ length (buffer st') = length (buffer (mkStrtokState [97; 0; 98; 0] (Some 2%nat)))
    /\ (r = None -> strtok None [44] st' = Some (None, st')).
Proof.
  apply (strtok_stays_in_bounds None [44] (mkStrtokState [97; 0; 98; 0] (Some 2%nat))).
  - exists 3%nat. split; [cbn; lia|reflexivity].
  - intros i H. discriminate.
Defined.

(** ** The tokens of a string *)

Lemma span_exists : forall (keep : Z -> bool) l,
  exists a b, l = a ++ b /\ Forall (fun c => keep c = true) a
              /\ match b with [] => True | c :: _ => keep c = false end.
Proof.
  intros keep. induction l as [|c t IH].
  - exists [], []. repeat split. constructor.
  - destruct (keep c) eqn:Hk.
    + destruct IH as [a [b [-> [Ha Hb]]]]. exists (c :: a), b.
      repeat split; auto.
    + exists [], (c :: t). repeat split; auto.
Qed.

Lemma splitRuns_seps : forall sep a l,
  Forall (fun c => isSep sep c = true) a ->
  splitRuns sep [] (a ++ l) = splitRuns sep [] l.
Proof.
  intros sep a l H. induction H as [|c a Hc Ha IH]; simpl; [reflexivity|].
  rewrite Hc. exact IH.
Qed.

Lemma splitRuns_run : forall sep tok acc l,
  Forall (fun c => isSep sep c = false) tok ->
  splitRuns sep acc (tok ++ l) = splitRuns sep (rev tok ++ acc) l.
Proof.
  intros sep tok acc l H. revert acc.
  induction H as [|c t Hc Ht IH]; intros acc; simpl; [reflexivity|].
  rewrite Hc, IH, <- app_assoc. reflexivity.
Qed.

Lemma Forall_app_parts : forall (P : Z -> Prop) a b,
  Forall P (a ++ b) -> Forall P a /\ Forall P b.
Proof. intros P a b H. apply Forall_app in H. exact H. Qed.

(** The loop of the caller from a position inside a terminated string:
    the tokens it reads are the tokens of the rest of the string. *)
Lemma strtokAll_from : forall sep fuel pre rest tail s p,
  Forall (fun c => c <> 0) rest ->
  (s = Some (length pre) \/ (s = None /\ p = Some (length pre))) ->
  (length rest < fuel)%nat ->
  strtokAll fuel s sep (mkStrtokState (pre ++ rest ++ 0 :: tail) p)
  = Some (tokensOf sep rest).
Proof.
  intros sep. induction fuel as [|fuel IH]; intros pre rest tail s p Hnz Hstart Hfuel;
    [lia|].
  cbn [strtokAll]. unfold strtok. cbn [buffer saved].
  assert (Hs0 : match s with Some i => Some i | None => p end = Some (length pre))
    by (destruct Hstart as [->|[-> ->]]; reflexivity).
  rewrite Hs0.
  assert (Hview : skipn (length pre) (pre ++ rest ++ 0 :: tail) = rest ++ 0 :: tail).
  { rewrite skipn_app, skipn_all, Nat.sub_diag. reflexivity. }
  destruct (span_exists (isSep sep) rest) as [seps [rest1 [-> [Hseps Hrest1]]]].
  apply Forall_app_parts in Hnz. destruct Hnz as [Hnzs Hnz1].
  unfold tokensOf. rewrite splitRuns_seps by exact Hseps.
  assert (Hspan : spanOf (isSep sep) ((seps ++ rest1) ++ 0 :: tail) = Some (length seps)).
  { rewrite <- app_assoc.
    assert (Hall : Forall (fun c => c <> 0 /\ isSep sep c = true) seps).
    { apply Forall_forall. intros c Hc. split.
      - exact (proj1 (Forall_forall _ _) Hnzs c Hc).
      - exact (proj1 (Forall_forall _ _) Hseps c Hc). }
    destruct rest1 as [|c r]; simpl.
    - apply spanOf_app; [exact Hall|left; reflexivity].
    - apply spanOf_app; [exact Hall|right; exact Hrest1]. }
  unfold strspn. rewrite Hview, Hspan.
  assert (Hs1 : skipn (length pre + length seps) (pre ++ (seps ++ rest1) ++ 0 :: tail)
                = rest1 ++ 0 :: tail).
  { apply skipn_view. rewrite Hview, <- app_assoc. reflexivity. }
  destruct rest1 as [|c r].
  { (* only separators are left *)
    rewrite (skipn_head _ _ _ _ Hs1). reflexivity. }
  rewrite (skipn_head _ _ _ _ Hs1).
  inversion Hnz1 as [|? ? Hc Hr]; subst.
  destruct (Z.eqb_spec c 0) as [|_]; [contradiction|].
  destruct (span_exists (fun x => negb (isSep sep x)) (c :: r)) as [tok [rest2 [Hsplit [Htok Hrest2]]]].
  assert (Htokne : tok <> []).
  { intros ->. simpl in Hsplit. subst rest2. simpl in Hrest2.
    rewrite Hrest1 in Hrest2. discriminate. }
  assert (Hnonsep : Forall (fun x => isSep sep x = false) tok).
  { eapply Forall_impl; [|exact Htok]. intros x Hx. simpl in Hx.
    destruct (isSep sep x); [discriminate|reflexivity]. }
  rewrite Hsplit in Hnz1, Hs1, Hfuel |- *.
  apply Forall_app_parts in Hnz1. destruct Hnz1 as [Hnzt Hnz2].
  assert (Hall : Forall (fun x => x <> 0 /\ negb (isSep sep x) = true) tok).
  { apply Forall_forall. intros x Hx. split.
    - exact (proj1 (Forall_forall _ _) Hnzt x Hx).
    - exact (proj1 (Forall_forall _ _) Htok x Hx). }
  assert (Hspan2 : spanOf (fun x => negb (isSep sep x)) ((tok ++ rest2) ++ 0 :: tail)
                   = Some (length tok)).
  { rewrite <- app_assoc. destruct rest2 as [|e r2]; simpl.
    - apply spanOf_app; [exact Hall|left; reflexivity].
    - apply spanOf_app; [exact Hall|right; exact Hrest2]. }
  unfold strcspn. rewrite Hs1, Hspan2.
  assert (Hp : skipn (length pre + length seps + length tok)
                 (pre ++ (seps ++ tok ++ rest2) ++ 0 :: tail) = rest2 ++ 0 :: tail).
  { apply skipn_view. rewrite Hs1, <- app_assoc. reflexivity. }
  rewrite splitRuns_run by exact Hnonsep. rewrite app_nil_r.
  assert (Hlen : length (seps ++ tok ++ rest2)
                 = (length seps + length tok + length rest2)%nat).
  { rewrite !length_app. lia. }
  assert (Htoklen : (0 < length tok)%nat) by (destruct tok; [congruence|simpl; lia]).
  assert (Hrevne : rev tok <> []).
  { intros H. apply Htokne. rewrite <- (rev_involutive tok), H. reflexivity. }
  destruct rest2 as [|e r2].
  - (* the token runs to the end of the string *)
    rewrite (skipn_head _ _ _ _ Hp). cbn [Z.eqb negb].
    unfold stringAt. cbn [buffer]. rewrite Hs1, app_nil_r.
    rewrite (cstring_app tok tail Hnzt).
    destruct fuel as [|fuel]; [lia|]. cbn [strtokAll strtok saved option_map].
    simpl. destruct (rev tok) eqn:Hrev; [congruence|].
    rewrite <- Hrev, rev_involutive. reflexivity.
  - (* a separator ends the token *)
    rewrite (skipn_head _ _ _ _ Hp).
    inversion Hnz2 as [|? ? He Hr2]; subst.
    destruct (Z.eqb_spec e 0) as [|_]; [contradiction|]. cbn [negb].
    unfold stringAt. cbn [buffer].
    assert (Hpoke : poke (pre ++ (seps ++ tok ++ e :: r2) ++ 0 :: tail)
                      (length pre + length seps + length tok) 0
                    = (pre ++ seps ++ tok ++ [0]) ++ r2 ++ 0 :: tail).
    { replace (pre ++ (seps ++ tok ++ e :: r2) ++ 0 :: tail)
        with ((pre ++ seps ++ tok) ++ e :: r2 ++ 0 :: tail)
        by (rewrite <- !app_assoc; reflexivity).
      replace (length pre + length seps + length tok)%nat
        with (length (pre ++ seps ++ tok)) by (rewrite !length_app; lia).
      rewrite poke_app. rewrite <- !app_assoc. reflexivity. }
    rewrite Hpoke.
    assert (Htokat : skipn (length pre + length seps)
                       ((pre ++ seps ++ tok ++ [0]) ++ r2 ++ 0 :: tail)
                     = tok ++ 0 :: r2 ++ 0 :: tail).
    { replace ((pre ++ seps ++ tok ++ [0]) ++ r2 ++ 0 :: tail)
        with ((pre ++ seps) ++ tok ++ 0 :: r2 ++ 0 :: tail)
        by (rewrite <- !app_assoc; reflexivity).
      replace (length pre + length seps)%nat with (length (pre ++ seps))
        by (rewrite length_app; lia).
      rewrite skipn_app, skipn_all, Nat.sub_diag. reflexivity. }
    rewrite Htokat, (cstring_app tok _ Hnzt).
    rewrite (IH (pre ++ seps ++ tok ++ [0]) r2 tail None
               (Some (S (length pre + length seps + length tok)))).
    + assert (Hsep_e : isSep sep e = true).
      { simpl in Hrest2. destruct (isSep sep e); [reflexivity|discriminate]. }
      simpl. rewrite Hsep_e. destruct (rev tok) eqn:Hrev; [congruence|].
      rewrite <- Hrev, rev_involutive. reflexivity.
    + exact Hr2.
    + right. split; [reflexivity|]. f_equal. rewrite !length_app. simpl. lia.
    + rewrite Hlen in Hfuel. simpl in Hfuel. lia.
Qed.

(** Calling [strtok(s, sep)] and then [strtok(NULL, sep)] until null comes
    back reads exactly the tokens of the string at [s]: its maximal
    non-empty runs of characters outside [sep], in order.  One call per
    character and one more are always enough. *)
Theorem strtok_reads_the_tokens : forall sep content tail p,
  Forall (fun c => c <> 0) content ->
  strtokAll (S (length content)) (Some 0%nat) sep
    (mkStrtokState (content ++ 0 :: tail) p)
  = Some (tokensOf sep content).
Proof.
  intros sep content tail p Hnz.
  apply (strtokAll_from sep (S (length content)) [] content tail (Some 0%nat) p Hnz).
  - left. reflexivity.
  - lia.
Qed.

Lemma strtok_reads_the_tokens_witness :
  strtokAll 6 (Some 0%nat) [44; 32]
    (mkStrtokState ([44; 97; 98; 32; 99] ++ 0 :: [7]) None)
  = Some (tokensOf [44; 32] [44; 97; 98; 32; 99]).
Proof.
  apply (strtok_reads_the_tokens [44; 32] [44; 97; 98; 32; 99] [7] None).
  repeat constructor; discriminate.
Defined.

(** * [getenv] *)

Lemma cstring_split : forall l s,
  cstring l = Some s ->
  exists rest, l = s ++ 0 :: rest /\ Forall (fun c => c <> 0) s.
Proof.
  induction l as [|c t IH]; intros s H; simpl in H; [discriminate|].
  destruct (Z.eqb_spec c 0) as [->|Hc].
  - injection H as <-. exists t. split; [reflexivity|constructor].
  - destruct (cstring t) as [s'|]; [|discriminate]. injection H as <-.
    destruct (IH s' eq_refl) as [rest [-> Hs]]. exists rest.
    split; [reflexivity|constructor; assumption].
Qed.

Lemma nth_error_poke_same : forall mem i v,
  (i < length mem)%nat -> nth_error (poke mem i v) i = Some v.
Proof.
  induction mem as [|x t IH]; intros [|i] v H; simpl in *; try lia; [reflexivity|].
  apply IH. lia.
Qed.

Lemma length_poke : forall mem i v, length (poke mem i v) = length mem.
Proof.
  induction mem as [|x t IH]; intros [|i] v; simpl; try reflexivity.
  rewrite IH. reflexivity.
Qed.

Lemma Forall_poke : forall (P : Z -> Prop) mem i v,
  Forall P mem -> P v -> Forall P (poke mem i v).
Proof.
  intros P. induction mem as [|x t IH]; intros [|i] v H Hv; simpl; try exact H.
  - inversion H; subst. constructor; assumption.
  - inversion H; subst. constructor; [assumption|apply IH; assumption].
Qed.

Lemma cstring_terminated : forall l i,
  nth_error l i = Some 0 ->
  exists s, cstring l = Some s /\ (length s <= i)%nat.
Proof.
  induction l as [|c t IH]; intros i H.
  - destruct i; discriminate.
  - simpl. destruct (Z.eqb_spec c 0) as [Hc|Hc].
    + exists []. split; [reflexivity|simpl; lia].
    + destruct i as [|i]; [simpl in H; congruence|].
      destruct (IH i H) as [s [Hs Hlen]]. rewrite Hs.
      exists (c :: s). split; [reflexivity|simpl; lia].
Qed.

(** The buffer [getenv] returns always holds a string: it is the 20 bytes
    of [dummy_env] with a NUL at [idx], so the string in it ends at or
    before [idx].  And the strings the model can return are exactly the
    strings of at most 19 characters: every such string is returned for
    some choice of the inputs. *)
Theorem getenv_returns_any_short_string :
  (forall nondet symbolic idx dummy_env,
     getenvInputs nondet symbolic idx ->
     getenv nondet symbolic idx = ReturnsEnv dummy_env ->
     length dummy_env = 20%nat
     /\ Forall isChar dummy_env
     /\ nth_error dummy_env (Z.to_nat idx) = Some 0
     /\ exists s, cstring dummy_env = Some s
                  /\ (length s <= Z.to_nat idx)%nat /\ (length s <= 19)%nat)
  /\ (forall s,
        (exists nondet symbolic idx dummy_env,
           getenvInputs nondet symbolic idx
           /\ getenv nondet symbolic idx = ReturnsEnv dummy_env
           /\ cstring dummy_env = Some s)
        <-> (length s <= 19)%nat /\ Forall (fun c => c <> 0 /\ isChar c) s).
Proof.
  assert (Hshape : forall nondet symbolic idx dummy_env,
            getenvInputs nondet symbolic idx ->
            getenv nondet symbolic idx = ReturnsEnv dummy_env ->
            length dummy_env = 20%nat
            /\ Forall isChar dummy_env
            /\ nth_error dummy_env (Z.to_nat idx) = Some 0
            /\ exists s, cstring dummy_env = Some s
                         /\ (length s <= Z.to_nat idx)%nat /\ (length s <= 19)%nat).
  { intros nondet symbolic idx env [_ [Hlen [Hchars Hidx]]] Hrun.
    unfold getenv in Hrun. destruct (negb (nondet =? 0)); [discriminate|].
    destruct (Z.ltb_spec idx 20) as [Hlt|]; [|discriminate].
    injection Hrun as <-.
    assert (Hi : (Z.to_nat idx < length symbolic)%nat) by lia.
    pose proof (nth_error_poke_same symbolic (Z.to_nat idx) 0 Hi) as Hzero.
    split; [rewrite length_poke; exact Hlen|].
    split; [apply Forall_poke; [exact Hchars|unfold isChar; lia]|].
    split; [exact Hzero|].
    destruct (cstring_terminated _ _ Hzero) as [s [Hs Hl]].
    exists s. split; [exact Hs|]. split; [exact Hl|lia]. }
  split; [exact Hshape|].
  intros s. split.
  - intros [nondet [symbolic [idx [env [Hin [Hrun Hs]]]]]].
    destruct (Hshape nondet symbolic idx env Hin Hrun)
      as [_ [Hall [_ [s' [Hs' [_ Hlen]]]]]].
    rewrite Hs in Hs'. injection Hs' as <-.
    split; [exact Hlen|].
    destruct (cstring_split _ _ Hs) as [rest [Heq Hnz]].
    rewrite Heq in Hall. apply Forall_app in Hall. destruct Hall as [Hall _].
    apply Forall_forall. intros c Hc. split.
    + exact (proj1 (Forall_forall _ _) Hnz c Hc).
    + exact (proj1 (Forall_forall _ _) Hall c Hc).
  - intros [Hlen Hs].
    exists 0, (s ++ repeat 0 (20 - length s)), (Z.of_nat (length s)),
      (s ++ repeat 0 (20 - length s)).
    split; [|split].
    + split; [unfold isChar; lia|]. split.
      * rewrite length_app, repeat_length. lia.
      * split; [|lia]. apply Forall_app. split.
        -- eapply Forall_impl; [|exact Hs]. intros c [_ Hc]. exact Hc.
        -- apply Forall_forall. intros c Hc. apply repeat_spec in Hc. subst c.
           unfold isChar. lia.
    + unfold getenv. cbn [Z.eqb negb].
      destruct (Z.ltb_spec (Z.of_nat (length s)) 20) as [_|]; [|lia].
      rewrite Nat2Z.id. f_equal.
      destruct (20 - length s)%nat as [|n] eqn:Hn; [lia|].
      cbn [repeat]. apply poke_app.
    + destruct (20 - length s)%nat as [|n] eqn:Hn; [lia|].
      cbn [repeat]. apply cstring_app.
      eapply Forall_impl; [|exact Hs]. intros c [Hc _]. exact Hc.
Qed.

Lemma getenv_returns_any_short_string_witness :
  length (poke (repeat 65 20) 3 0) = 20%nat
  /\ Forall isChar (poke (repeat 65 20) 3 0)
  /\ nth_error (poke (repeat 65 20) 3 0) (Z.to_nat 3) = Some 0
  /\ exists s, cstring (poke (repeat 65 20) 3 0) = Some s
               /\ (length s <= Z.to_nat 3)%nat /\ (length s <= 19)%nat.
Proof.
  apply (proj1 getenv_returns_any_short_string 0 (repeat 65 20) 3).
  - split; [unfold isChar; lia|]. split; [reflexivity|].
    split; [|lia]. apply Forall_forall. intros c Hc. apply repeat_spec in Hc.
    subst c. unfold isChar. lia.
  - reflexivity.
Defined.

(** * The Z3 back end *)

Lemma handleSolverResponse_cases : forall a hs,
  match Z3.satisfiable a with
  | Z3.Z3_L_TRUE =>
      Z3.handleSolverResponse a hs = Some (Z3.SOLVER_RUN_STATUS_SUCCESS_SOLVABLE, true)
  | Z3.Z3_L_FALSE =>
      Z3.handleSolverResponse a hs = Some (Z3.SOLVER_RUN_STATUS_SUCCESS_UNSOLVABLE, false)
  | Z3.Z3_L_UNDEF =>
      Z3.handleSolverResponse a hs = None
      \/ exists code, Z3.handleSolverResponse a hs = Some (code, hs)
                      /\ Z3.isSuccess code = false
                      /\ (code = Z3.SOLVER_RUN_STATUS_INTERRUPTED
                          <-> Z3.interrupted a = true)
  end.
Proof.
  intros a hs. unfold Z3.handleSolverResponse, Z3.interrupted, Z3.undecided.
  destruct (Z3.satisfiable a); try reflexivity.
  destruct (String.eqb (Z3.reason a) "timeout"
            || String.eqb (Z3.reason a) "canceled"
            || String.eqb (Z3.reason a) "(resource limits reached)")%string eqn:Ht.
  { right. eexists. split; [reflexivity|]. split; [reflexivity|].
    split; [discriminate|]. cbn [andb]. intros Hi.
    apply String.eqb_eq in Hi. rewrite Hi in Ht. discriminate. }
  destruct (String.eqb (Z3.reason a) "unknown"%string) eqn:Hu.
  { right. eexists. split; [reflexivity|]. split; [reflexivity|].
    split; [discriminate|]. cbn [andb]. intros Hi.
    apply String.eqb_eq in Hi. rewrite Hi in Hu. discriminate. }
  destruct (String.eqb (Z3.reason a) "interrupted from keyboard"%string) eqn:Hi.
  { right. eexists. split; [reflexivity|]. split; [reflexivity|].
    split; reflexivity. }
  left. reflexivity.
Qed.

(** [computeTruth] decides validity through Z3: when Z3 answers rightly on
    the formulas asserted (the constraints and the negated query), the call
    succeeds exactly when Z3 answers sat or unsat, and then [isValid] says
    whether the query holds under every assignment that satisfies the
    constraints.  A failed call leaves [isValid] true, and the status code
    kept for [getOperationStatusCode] is a success code exactly when the
    call succeeded. *)
Theorem computeTruth_decides_validity : forall z3 q sv status isValid sv',
  Z3.answersRightly z3 (Z3.assertions q) ->
  Z3.computeTruth z3 q sv = Some (status, isValid, sv') ->
  status = negb (Z3.undecided (z3 (Z3.assertions q)))
  /\ (status = true -> (isValid = true <-> Z3.holds q))
  /\ (status = false -> isValid = true)
  /\ Z3.isSuccess (Z3.getOperationStatusCode sv') = status.
Proof.
  intros z3 q sv status isValid sv' [Hsat Hunsat] Hrun.
  unfold Z3.computeTruth, Z3.internalRunSolver in Hrun.
  pose proof (handleSolverResponse_cases (z3 (Z3.assertions q)) false) as Hcases.
  unfold Z3.undecided.
  destruct (Z3.satisfiable (z3 (Z3.assertions q))) eqn:Hans.
  - (* unsat: the query holds *)
    rewrite Hcases in Hrun. cbn in Hrun. injection Hrun as <- <- <-.
    split; [reflexivity|]. split; [|split; [discriminate|reflexivity]].
    intros _. split; [|reflexivity]. intros _ m Hm.
    destruct (Hunsat eq_refl m) as [f [Hf Hfalse]].
    unfold Z3.assertions in Hf. apply in_app_or in Hf.
    destruct Hf as [Hf|[<-|[]]].
    + rewrite (Hm f Hf) in Hfalse. discriminate.
    + rewrite holdsb_not in Hfalse. destruct (holdsb m (Z3.expr q));
        [reflexivity|discriminate].
  - (* undecided: the call fails *)
    destruct Hcases as [Habort|[code [Hcode [Hfail _]]]].
    + rewrite Habort in Hrun. discriminate.
    + rewrite Hcode in Hrun. rewrite Hfail in Hrun.
      destruct code; try discriminate; injection Hrun as <- <- <-;
        (split; [reflexivity|]; split; [discriminate|]; split; reflexivity).
  - (* sat: an assignment refutes the query *)
    rewrite Hcases in Hrun. cbn in Hrun. injection Hrun as <- <- <-.
    split; [reflexivity|]. split; [|split; [discriminate|reflexivity]].
    intros _. split; [discriminate|]. intros Hholds. exfalso.
    destruct (Hsat eq_refl) as [m Hm].
    assert (Hc : forall c, In c (Z3.constraints q) -> holdsb m c = true).
    { intros c Hc. apply Hm. unfold Z3.assertions. apply in_or_app. left. exact Hc. }
    assert (Hn : holdsb m (NotExpr (Z3.expr q)) = true).
    { apply Hm. unfold Z3.assertions. apply in_or_app. right. left. reflexivity. }
    rewrite holdsb_not, (Hholds m Hc) in Hn. discriminate.
Qed.

Lemma computeTruth_decides_validity_witness :
  true = negb (Z3.undecided (Z3.mkZ3Answer Z3.Z3_L_FALSE "unsat"%string))
  /\ (true = true ->
      (true = true <->
       Z3.holds (Z3.mkQuery [EqExpr (SymbolicExpr 0) (ConstantExpr 5)]
                   (UltExpr (SymbolicExpr 0) (ConstantExpr 6)))))
  /\ (true = false -> true = true)
  /\ Z3.isSuccess
       (Z3.getOperationStatusCode
          (Z3.mkSolver Z3.SOLVER_RUN_STATUS_SUCCESS_UNSOLVABLE (Z3.mkStats 1 0 1 0) 0))
     = true.
Proof.
  apply (computeTruth_decides_validity
           (fun _ => Z3.mkZ3Answer Z3.Z3_L_FALSE "unsat"%string)
           (Z3.mkQuery [EqExpr (SymbolicExpr 0) (ConstantExpr 5)]
              (UltExpr (SymbolicExpr 0) (ConstantExpr 6)))
           (Z3.mkSolver Z3.SOLVER_RUN_STATUS_FAILURE (Z3.mkStats 0 0 0 0) 0)).
  - split; [discriminate|]. intros _ m.
    destruct (Z.eq_dec (wrap64 (m 0%nat)) 5) as [H5|H5].
    + exists (NotExpr (UltExpr (SymbolicExpr 0) (ConstantExpr 6))).
      split; [right; left; reflexivity|].
      rewrite holdsb_not, holdsb_ult. cbn [eval]. rewrite H5. reflexivity.
    + exists (EqExpr (SymbolicExpr 0) (ConstantExpr 5)).
      split; [left; reflexivity|].
      rewrite holdsb_eq. cbn [eval]. apply Z.eqb_neq. exact H5.
  - reflexivity.
Defined.

(** The statistics add up: over any run of [computeTruth] calls
    [stats::queries] grows by one per call, [stats::queriesValid] and
    [stats::queriesInvalid] together by one per call that returned true,
    [stats::queryCounterexamples] not at all, and [SIGINT] is raised once
    per answer "interrupted from keyboard"%string. *)
Theorem computeTruths_accounting : forall z3 qs sv rs sv',
  Z3.computeTruths z3 qs sv = Some (rs, sv') ->
  length rs = length qs
  /\ Z3.queries (Z3.stats sv') = (Z3.queries (Z3.stats sv) + length qs)%nat
  /\ (Z3.queriesValid (Z3.stats sv') + Z3.queriesInvalid (Z3.stats sv')
      = Z3.queriesValid (Z3.stats sv) + Z3.queriesInvalid (Z3.stats sv)
        + count_occ bool_dec rs true)%nat
  /\ Z3.queryCounterexamples (Z3.stats sv') = Z3.queryCounterexamples (Z3.stats sv)
  /\ Z3.raised sv'
     = (Z3.raised sv
        + length (filter (fun q => Z3.interrupted (z3 (Z3.assertions q))) qs))%nat.
Proof.
  intros z3. induction qs as [|q rest IH]; intros sv rs sv' Hrun.
  - injection Hrun as <- <-. simpl. repeat split; lia.
  - cbn [Z3.computeTruths] in Hrun.
    destruct (Z3.computeTruth z3 q sv) as [[[status isValid] sv1]|] eqn:Hq;
      [|discriminate].
    destruct (Z3.computeTruths z3 rest sv1) as [[rs1 sv2]|] eqn:Hrest; [|discriminate].
    injection Hrun as <- <-.
    destruct (IH sv1 rs1 sv2 Hrest) as [Hlen [Hqs [Hvi [Hce Hr]]]].
    assert (Hstep :
      Z3.queries (Z3.stats sv1) = S (Z3.queries (Z3.stats sv))
      /\ (Z3.queriesValid (Z3.stats sv1) + Z3.queriesInvalid (Z3.stats sv1)
          = Z3.queriesValid (Z3.stats sv) + Z3.queriesInvalid (Z3.stats sv)
            + (if status then 1 else 0))%nat
      /\ Z3.queryCounterexamples (Z3.stats sv1) = Z3.queryCounterexamples (Z3.stats sv)
      /\ Z3.raised sv1
         = (Z3.raised sv
            + (if Z3.interrupted (z3 (Z3.assertions q)) then 1 else 0))%nat).
    { unfold Z3.computeTruth, Z3.internalRunSolver in Hq.
      pose proof (handleSolverResponse_cases (z3 (Z3.assertions q)) false) as Hcases.
      unfold Z3.interrupted at 1, Z3.undecided.
      unfold Z3.interrupted, Z3.undecided in Hcases.
      destruct (Z3.satisfiable (z3 (Z3.assertions q))).
      - rewrite Hcases in Hq. cbn in Hq. injection Hq as <- <- <-. cbn.
        repeat split; lia.
      - destruct Hcases as [Habort|[code [Hcode [Hfail Hint]]]].
        + rewrite Habort in Hq. discriminate.
        + rewrite Hcode, Hfail in Hq. cbn [andb] in *.
          destruct (String.eqb (Z3.reason (z3 (Z3.assertions q)))
                      "interrupted from keyboard"%string).
          * rewrite (proj2 Hint eq_refl) in Hq. injection Hq as <- <- <-. cbn.
            repeat split; lia.
          * destruct code; try discriminate;
              try (injection Hq as <- <- <-; cbn; repeat split; lia).
            discriminate (proj1 Hint eq_refl).
      - rewrite Hcases in Hq. cbn in Hq. injection Hq as <- <- <-. cbn.
        repeat split; lia. }
    destruct Hstep as [Hs1 [Hs2 [Hs3 Hs4]]].
    cbn [length filter count_occ].
    split; [lia|]. split; [lia|]. split.
    + destruct status; [destruct (bool_dec true true); [lia|congruence]|].
      destruct (bool_dec false true); [discriminate|lia].
    + split; [congruence|].
      destruct (Z3.interrupted (z3 (Z3.assertions q))); cbn [length]; lia.
Qed.

Lemma computeTruths_accounting_witness :
  length [true; false] = length [Z3.mkQuery [] (ConstantExpr 1); Z3.mkQuery [] (SymbolicExpr 0)]
  /\ Z3.queries (Z3.mkStats 2 0 1 0) = (0 + 2)%nat
  /\ (Z3.queriesValid (Z3.mkStats 2 0 1 0) + Z3.queriesInvalid (Z3.mkStats 2 0 1 0)
      = 0 + 0 + count_occ bool_dec [true; false] true)%nat
  /\ Z3.queryCounterexamples (Z3.mkStats 2 0 1 0) = 0%nat
  /\ 1%nat
     = (0 + length (filter
                      (fun q => Z3.interrupted
                                  ((fun fs => match fs with
                                              | [NotExpr (ConstantExpr _)] =>
                                                  Z3.mkZ3Answer Z3.Z3_L_FALSE "unsat"%string
                                              | _ => Z3.mkZ3Answer Z3.Z3_L_UNDEF
                                                       "interrupted from keyboard"%string
                                              end) (Z3.assertions q)))
                      [Z3.mkQuery [] (ConstantExpr 1); Z3.mkQuery [] (SymbolicExpr 0)]))%nat.
Proof.
  exact (computeTruths_accounting
           (fun fs => match fs with
                      | [NotExpr (ConstantExpr _)] => Z3.mkZ3Answer Z3.Z3_L_FALSE "unsat"%string
                      | _ => Z3.mkZ3Answer Z3.Z3_L_UNDEF "interrupted from keyboard"%string
                      end)
           [Z3.mkQuery [] (ConstantExpr 1); Z3.mkQuery [] (SymbolicExpr 0)]
           (Z3.mkSolver Z3.SOLVER_RUN_STATUS_FAILURE (Z3.mkStats 0 0 0 0) 0)
           [true; false]
           (Z3.mkSolver Z3.SOLVER_RUN_STATUS_INTERRUPTED (Z3.mkStats 2 0 1 0) 1)
           eq_refl).
Defined.

(** The timeout handed to Z3 is never 0: a non-zero number of whole
    milliseconds below 2^32 is passed on as it is, and a time span shorter
    than a millisecond, like no timeout at all, becomes [UINT_MAX]. *)
Theorem setCoreSolverTimeout_never_zero : forall us,
  0 <= us ->
  1 <= Z3.setCoreSolverTimeout us <= 2 ^ 32 - 1
  /\ (us < 1000 -> Z3.setCoreSolverTimeout us = 2 ^ 32 - 1)
  /\ (1000 <= us < 1000 * 2 ^ 32 -> Z3.setCoreSolverTimeout us = us / 1000).
Proof.
  intros us Hus. unfold Z3.setCoreSolverTimeout, wrap32.
  assert (Hr : 0 <= (us / 1000) mod 2 ^ 32 < 2 ^ 32) by (apply Z.mod_pos_bound; lia).
  split; [|split].
  - destruct (Z.eqb_spec ((us / 1000) mod 2 ^ 32) 0); lia.
  - intros Hlt. rewrite Z.div_small by lia. reflexivity.
  - intros [Hlo Hhi].
    assert (Hd : 1 <= us / 1000 < 2 ^ 32).
    { split; [apply Z.div_le_lower_bound; lia|apply Z.div_lt_upper_bound; lia]. }
    rewrite Z.mod_small by lia.
    destruct (Z.eqb_spec (us / 1000) 0); lia.
Qed.

Lemma setCoreSolverTimeout_never_zero_witness :
  1 <= Z3.setCoreSolverTimeout 999 <= 2 ^ 32 - 1
  /\ (999 < 1000 -> Z3.setCoreSolverTimeout 999 = 2 ^ 32 - 1)
  /\ (1000 <= 999 < 1000 * 2 ^ 32 -> Z3.setCoreSolverTimeout 999 = 999 / 1000).
Proof.
  apply (setCoreSolverTimeout_never_zero 999). lia.
Defined.

(** * Two more properties of the address space *)

(** What [resolveOne] picks, [resolve] lists: for a flat pointer with a
    symbolic offset, under a solver that decides the constraints and with
    objects that do not overlap, the object [resolveOne] commits to is in
    the list of every complete enumeration by [resolve]. *)
Theorem resolveOne_choice_is_enumerated :
  forall C S clock sp p sv r x s w maxResolutions t w0 rl w',
  decides C S ->
  (forall m, C m -> layoutOk m (objects sp)) ->
  isConstant p = false ->
  getSegment p = ConstantExpr sv -> wrap64 sv = 0 ->
  resolveOne S sp p initialWorld = Some ((r, Some x, s), w) ->
  resolve S clock sp p [] maxResolutions t w0 = Some ((false, rl), w') ->
  In x rl.
Proof.
  intros C S clock sp p sv r x s w maxResolutions t w0 rl w'
    Hdec Hlay Hc Hseg Hz Hone Hall.
  assert (Hzero : getZExtValue (getSegment p) = 0) by (rewrite Hseg; exact Hz).
  (* what resolveOne committed to may contain the pointer *)
  assert (Hx : In x (objects sp)
               /\ satisfiable C (getBoundsCheckPointer (fst x) p)
               /\ exists m, C m).
  { unfold resolveOne in Hone. rewrite Hc, Hseg in Hone.
    unfold bind at 1 in Hone. unfold ret at 1 in Hone.
    cbn [getZExtValue] in Hone. rewrite Hz in Hone.
    change (negb (0 =? 0)) with false in Hone. cbv iota in Hone.
    unfold bind at 1 in Hone. unfold solverGetValue in Hone.
    destruct (TimingSolver.getValue S (getOffset p)) as [v|] eqn:Hget; [|discriminate].
    destruct (getValue_sound C S Hdec _ _ Hget) as [m [Hm He]].
    destruct (cheapSearch sp (wrap64 v)) as [res|] eqn:Hcheap.
    { injection Hone as _ <- _ _. split; [|split; [|exists m; exact Hm]].
      - unfold cheapSearch in Hcheap.
        destruct (ImmutableMap.lookup_previous moKey (wrap64 v) (objects sp))
          as [r0|] eqn:Hl; [|discriminate].
        destruct (size (fst r0)); try discriminate.
        destruct (_ <? _); [|discriminate].
        injection Hcheap as <-. eapply lookup_previous_in; eauto.
      - exists m. split; [exact Hm|]. destruct res as [mo os].
        eapply cheapSearch_in_bounds; eauto. }
    pose proof (upper_bound_app moKey (wrap64 v) (objects sp)) as Hsplit.
    destruct (ImmutableMap.upper_bound moKey (wrap64 v) (objects sp)) as [before after].
    simpl in Hsplit. unfold bind at 1 in Hone.
    destruct (resolveOneBackward S p (rev before) _) as [[b w2]|] eqn:Hrun1;
      [|discriminate].
    destruct b as [[[r1 res1] s1]|].
    { injection Hone as -> -> -> <-. split; [|split; [|exists m; exact Hm]].
      - apply resolveOneBackward_in in Hrun1.
        rewrite <- Hsplit. apply in_or_app. left. apply in_rev. exact Hrun1.
      - apply (may_true_satisfiable C S Hdec).
        eapply resolveOneBackward_commit; eauto. }
    unfold bind at 1 in Hone.
    destruct (resolveOneForward S p after w2) as [[f w3]|] eqn:Hrun2; [|discriminate].
    destruct f as [[[r1 res1] s1]|]; [|discriminate].
    injection Hone as -> -> -> <-. split; [|split; [|exists m; exact Hm]].
    - apply resolveOneForward_in in Hrun2.
      rewrite <- Hsplit. apply in_or_app. right. exact Hrun2.
    - apply (may_true_satisfiable C S Hdec).
      eapply resolveOneForward_commit; eauto. }
  destruct Hx as [Hin [Hsat [m Hm]]].
  unfold resolve in Hall. rewrite Hseg in Hall. cbn [isConstantExpr] in Hall.
  destruct (flat_walk_complete C S clock sp p maxResolutions t w0 rl w' Hdec Hlay
              (layout_sorted m _ (Hlay m Hm)) Hzero Hall x Hin) as [Hrl|Hex].
  - exact Hrl.
  - exfalso. exact (satisfiable_not_excluded C p (fst x) Hsat Hex).
Qed.

Lemma resolveOne_choice_is_enumerated_witness :
  In (moA, 0%nat) [(moA, 0%nat); (moB, 1%nat)].
Proof.
  eapply (resolveOne_choice_is_enumerated (fun m => In m twoModels)
            (modelSolver twoModels) stoppedClock flatSpace symbolicOffset 0
            true (moA, 0%nat) (Some true) _ 0%nat 0 initialWorld).
  - apply modelSolver_decides.
  - intros m _. apply layoutOk_flatSpace.
  - reflexivity.
  - reflexivity.
  - reflexivity.
  - vm_compute. reflexivity.
  - vm_compute. reflexivity.
Defined.

(** [copyOutConcretes] on live object states returns; it leaves every
    location valid, leaves alone the states that are read-only or whose
    store has its [sizeBound] already, and changes native memory only
    inside the [sizeBound] bytes at a writable object that takes part. *)
Theorem copyOutConcretes_frame :
  forall isUserSpecified sizeBound initialValue sp h mem,
  (forall x, In x (objects sp) -> exists s, deref h (snd x) = Some s) ->
  exists h' mem',
    copyOutConcretes isUserSpecified sizeBound initialValue (sp, h) mem = Some (h', mem')
    /\ keepsSized sizeBound h h'
    /\ forall a,
         mem' a <> mem a ->
         exists y, In y (objects sp) /\ isUserSpecified (fst y) = false
                   /\ writable h (snd y) = true
                   /\ address (fst y) <= a < address (fst y) + Z.of_nat (sizeBound (snd y)).
Proof.
  intros isUserSpecified sizeBound initialValue sp h mem Hval.
  destruct (copyOutLoop_frames isUserSpecified sizeBound initialValue (objects sp) h mem Hval)
    as [h' [mem' [Hrun [Hk Hm]]]].
  exists h', mem'. split; [exact Hrun|]. split; [exact Hk|].
  intros a Hne.
  (* the objects are finitely many: look for the one that covers [a] *)
  assert (Hfind : forall l,
            (exists y, In y l /\ isUserSpecified (fst y) = false
                       /\ writable h (snd y) = true
                       /\ address (fst y) <= a
                          < address (fst y) + Z.of_nat (sizeBound (snd y)))
            \/ (forall y, In y l -> isUserSpecified (fst y) = false ->
                          writable h (snd y) = true ->
                          ~ (address (fst y) <= a
                             < address (fst y) + Z.of_nat (sizeBound (snd y))))).
  { induction l as [|y l IH].
    - right. intros y [].
    - destruct IH as [[z [Hz Hrest]]|IH].
      + left. exists z. split; [right; exact Hz|exact Hrest].
      + destruct (isUserSpecified (fst y)) eqn:Hus.
        { right. intros z [<-|Hz]; [congruence|apply IH; exact Hz]. }
        destruct (writable h (snd y)) eqn:Hw.
        2: { right. intros z [<-|Hz]; [congruence|apply IH; exact Hz]. }
        destruct (Z_le_dec (address (fst y)) a) as [Hle|Hgt].
        2: { right. intros z [<-|Hz]; [lia|apply IH; exact Hz]. }
        destruct (Z_lt_dec a (address (fst y) + Z.of_nat (sizeBound (snd y))))
          as [Hlt|Hge].
        * left. exists y. split; [left; reflexivity|]. auto.
        * right. intros z [<-|Hz]; [lia|apply IH; exact Hz]. }
  destruct (Hfind (objects sp)) as [Hy|Hnone]; [exact Hy|].
  exfalso. apply Hne. apply Hm. exact Hnone.
Qed.

Lemma copyOutConcretes_frame_witness :
  exists h' mem',
    copyOutConcretes noneUserSpecified fourBytes zeroFill (shadowSpace, shadowHeap)
      nativeZero = Some (h', mem')
    /\ keepsSized fourBytes shadowHeap h'
    /\ forall a,
         mem' a <> nativeZero a ->
         exists y, In y (objects shadowSpace) /\ noneUserSpecified (fst y) = false
                   /\ writable shadowHeap (snd y) = true
                   /\ address (fst y) <= a < address (fst y) + Z.of_nat (fourBytes (snd y)).
Proof.
  exact (copyOutConcretes_frame noneUserSpecified fourBytes zeroFill
           shadowSpace shadowHeap nativeZero shadowHeap_valid).
Defined.

(** * The resolvers on every path *)

(** ** Commitments of [resolveOne] on the zero segment *)





(** ** The segment loop and the flat phase of a symbolic segment *)






(** ** Soundness of the enumeration on every path *)






(** ** Incomplete exactly when *)


